(** * cartom-ss: the SS.LV thread scraper and its Pipedrive reconciliation

    A shallow embedding of [process.js] (the version that synchronises every
    message of a conversation): the regular-expression scraper
    [fetchAllMessages], the note formatter [formatNoteHtml], the Pipedrive
    helpers built on [pdFetch], and [main].

    Conventions of the embedding.
    - A JavaScript string is the list of its UTF-16 code units ([str]).
    - Numbers that the program only compares, counts or passes around
      (record ids, offsets, counters) are [Z] or [nat]; [parseInt] is exact,
      which agrees with the IEEE doubles of JavaScript below 2^53.
    - A thrown [Error] is a value of type [Error]; a function that may throw
      returns a [Res].
    - The remote record store is an explicit state ([Remote]) threaded through
      a small state-and-exception monad; every request is appended to a log.
    - [String.prototype.toLowerCase] is a parameter of the development: no
      theorem depends on the Unicode case tables. *)

From Stdlib Require Import List Bool Arith ZArith NArith Lia.
From Stdlib Require Ascii String.
From Stdlib Require Import Sorted Permutation.
Import ListNotations.

Set Implicit Arguments.
Local Open Scope list_scope.
Import String.StringSyntax.
Delimit Scope string_scope with string.

(* ===================================================================== *)
(** ** JavaScript strings *)
(* ===================================================================== *)

Module JS.

(** A string is a sequence of UTF-16 code units. *)
Definition str := list N.

(** Embedding of an ASCII literal. *)
Definition lit (s : String.string) : str :=
  map Ascii.N_of_ascii (String.list_ascii_of_string s).
Arguments lit s%_string.

(** The double quote character, U+0022. *)
Definition dq : str := [34%N].

(** A literal between double quotes. *)
Definition quoted (s : String.string) : str := dq ++ lit s ++ dq.
Arguments quoted s%_string.

Definition str_eqb (a b : str) : bool :=
  if list_eq_dec N.eq_dec a b then true else false.

(** Truthiness of a string: only the empty string is falsy. *)
Definition truthy (s : str) : bool :=
  match s with [] => false | _ :: _ => true end.

(** [x || d] for a string-or-undefined [x]. *)
Definition or_else (x : option str) (d : str) : str :=
  match x with
  | Some s => if truthy s then s else d
  | None => d
  end.

(** WhiteSpace and LineTerminator code units: the class [\s] of regular
    expressions and the characters removed by [trim]. *)
Definition is_space (c : N) : bool :=
  ((9 <=? c) && (c <=? 13) || (c =? 32) || (c =? 160) || (c =? 5760)
   || (8192 <=? c) && (c <=? 8202) || (c =? 8232) || (c =? 8233)
   || (c =? 8239) || (c =? 8287) || (c =? 12288) || (c =? 65279))%N.

(** The class [\d]. *)
Definition is_digit (c : N) : bool := ((48 <=? c) && (c <=? 57))%N.

Fixpoint dropWhile (f : N -> bool) (s : str) : str :=
  match s with
  | [] => []
  | c :: s' => if f c then dropWhile f s' else s
  end.

Fixpoint takeWhile (f : N -> bool) (s : str) : str :=
  match s with
  | [] => []
  | c :: s' => if f c then c :: takeWhile f s' else []
  end.

Definition trimStart (s : str) : str := dropWhile is_space s.
Definition trimEnd (s : str) : str := rev (dropWhile is_space (rev s)).

(** [s.trim()] *)
Definition trim (s : str) : str := trimEnd (trimStart s).

(** [s.split(' ')[0]]: the part of [s] before its first U+0020. *)
Definition split_space_0 (s : str) : str :=
  takeWhile (fun c => negb (c =? 32)%N) s.

(** [s.slice(0, n)] for a non-negative [n]. *)
Definition slice0 (n : nat) (s : str) : str := firstn n s.

(** If [p] is a prefix of [s], what follows it. *)
Fixpoint strip_prefix (p s : str) : option str :=
  match p, s with
  | [], _ => Some s
  | _ :: _, [] => None
  | a :: p', b :: s' => if (a =? b)%N then strip_prefix p' s' else None
  end.

Definition starts_with (p s : str) : bool :=
  match strip_prefix p s with Some _ => true | None => false end.

(** [s.includes(needle)] *)
Fixpoint includes (s needle : str) : bool :=
  starts_with needle s ||
  match s with
  | [] => false
  | _ :: s' => includes s' needle
  end.

(** [s.indexOf(needle)]: the first offset at which [needle] occurs, or -1. *)
Fixpoint indexOf_from (pos : nat) (s needle : str) : Z :=
  if starts_with needle s then Z.of_nat pos
  else match s with
       | [] => (-1)%Z
       | _ :: s' => indexOf_from (S pos) s' needle
       end.

Definition indexOf (s needle : str) : Z := indexOf_from 0 s needle.

(** Value of a digit in radix 10 or 16, if the code unit is one. *)
Definition digit_value (radix : Z) (c : N) : option Z :=
  let v :=
    if ((48 <=? c) && (c <=? 57))%N then Some (Z.of_N c - 48)%Z
    else if ((97 <=? c) && (c <=? 122))%N then Some (Z.of_N c - 87)%Z
    else if ((65 <=? c) && (c <=? 90))%N then Some (Z.of_N c - 55)%Z
    else None in
  match v with
  | Some d => if (d <? radix)%Z then Some d else None
  | None => None
  end.

(** Longest prefix of digits in the radix, read as a number; [None] when
    the prefix is empty. *)
Fixpoint read_digits (radix : Z) (acc : option Z) (s : str) : option Z :=
  match s with
  | [] => acc
  | c :: s' =>
      match digit_value radix c with
      | Some d =>
          read_digits radix
            (Some (match acc with Some a => a * radix + d | None => d end)%Z) s'
      | None => acc
      end
  end.

(** An optional sign, U+002D or U+002B. *)
Definition read_sign (s : str) : Z * str :=
  match s with
  | c :: s' =>
      if (c =? 45)%N then ((-1)%Z, s')
      else if (c =? 43)%N then (1%Z, s')
      else (1%Z, s)
  | [] => (1%Z, s)
  end.

(** The prefix 0x or 0X selects radix 16. *)
Definition read_radix (s : str) : Z * str :=
  match s with
  | c1 :: c2 :: s' =>
      if ((c1 =? 48) && ((c2 =? 120) || (c2 =? 88)))%N then (16%Z, s')
      else (10%Z, s)
  | _ => (10%Z, s)
  end.

(** [parseInt(s)] without a radix argument; [None] stands for NaN. *)
Definition parseInt (s : str) : option Z :=
  let '(sign, s1) := read_sign (trimStart s) in
  let '(radix, s2) := read_radix s1 in
  option_map (Z.mul sign) (read_digits radix None s2).

(** [Array.prototype.sort(compareFn)]: a stable sort; an element moves
    behind another one only when [compareFn] is positive on the pair. *)
Section Sort.
Variable A : Type.
Variable compareFn : A -> A -> Z.

Fixpoint sort_insert (x : A) (l : list A) : list A :=
  match l with
  | [] => [x]
  | y :: l' =>
      if (0 <? compareFn x y)%Z then y :: sort_insert x l' else x :: l
  end.

Definition sort (l : list A) : list A := fold_right sort_insert [] l.
End Sort.

(** A [Map] with string keys, as the list of its [set] calls, latest first;
    [get] returns the value of the latest [set] of the key. *)
Definition Map := list (str * str).

Definition Map_set (k v : str) (m : Map) : Map := (k, v) :: m.

Fixpoint Map_get (k : str) (m : Map) : option str :=
  match m with
  | [] => None
  | (k', v) :: m' => if str_eqb k' k then Some v else Map_get k m'
  end.

End JS.
Import JS.

(* ===================================================================== *)
(** ** Regular expressions of the scraper *)
(* ===================================================================== *)

(** One match of a regular expression: [index], the matched text (element 0
    of the JavaScript match array) and the capture groups. *)
Record Match (G : Type) : Type := mkMatch {
  index : nat;
  whole : str;
  groups : G
}.
Arguments mkMatch {G} _ _ _.
Arguments index {G} _.
Arguments whole {G} _.
Arguments groups {G} _.

Module Regex.

(** [[^c]*c]: the run of code units before the first [c], and what follows
    that [c].  The greedy star can stop nowhere else, so no backtracking. *)
Fixpoint until_char (c : N) (s : str) : option (str * str) :=
  match s with
  | [] => None
  | x :: s' =>
      if (x =? c)%N then Some ([], s')
      else match until_char c s' with
           | Some (run, rest) => Some (x :: run, rest)
           | None => None
           end
  end.

(** A greedy star over a character class: the longest run and the rest. *)
Fixpoint span (f : N -> bool) (s : str) : str * str :=
  match s with
  | [] => ([], [])
  | x :: s' =>
      if f x then let '(run, rest) := span f s' in (x :: run, rest)
      else ([], s)
  end.

(** An optional character [c?]. *)
Definition opt_char (c : N) (s : str) : str :=
  match s with
  | x :: s' => if (x =? c)%N then s' else s
  | [] => s
  end.

(** A lazy [[\s\S]*?] followed by the pattern [tail]: the shortest run after
    which [tail] matches, with the result of [tail]. *)
Fixpoint lazy_until (T : Type) (tail : str -> option T) (s : str)
  : option (str * T) :=
  match tail s with
  | Some t => Some ([], t)
  | None =>
      match s with
      | [] => None
      | x :: s' =>
          match lazy_until tail s' with
          | Some (run, t) => Some (x :: run, t)
          | None => None
          end
      end
  end.

Definition not_lt (c : N) : bool := negb (c =? 60)%N.

Section Driver.
Variable G : Type.
(** The pattern anchored at the head of its argument: capture groups and
    the text left unread after the match. *)
Variable here : str -> option (G * str).

Definition match_at (pos : nat) (s : str) : option (Match G * nat) :=
  match here s with
  | Some (g, rest) =>
      let len := length s - length rest in
      Some (mkMatch pos (firstn len s) g, len)
  | None => None
  end.

(** All matches of a global pattern, left to right, each search resuming
    where the previous match ended ([skip] code units are still covered by
    the previous match). *)
Fixpoint exec_all (skip pos : nat) (s : str) : list (Match G) :=
  match s with
  | [] => []
  | _ :: s' =>
      match skip with
      | S k => exec_all k (S pos) s'
      | O =>
          match match_at pos s with
          | Some (m, len) => m :: exec_all (pred len) (S pos) s'
          | None => exec_all 0 (S pos) s'
          end
      end
  end.

Definition matchAll (s : str) : list (Match G) := exec_all 0 0 s.

(** The leftmost match of a pattern without the global flag. *)
Fixpoint exec_from (pos : nat) (s : str) : option (Match G) :=
  match match_at pos s with
  | Some (m, _) => Some m
  | None =>
      match s with
      | [] => None
      | _ :: s' => exec_from (S pos) s'
      end
  end.

Definition exec (s : str) : option (Match G) := exec_from 0 s.
End Driver.

(** [</div>\s*<div style=\x22margin-top: 20px;\x22>] (in the comments a
    double quote of a pattern is written \x22) *)
Definition chat_close (s : str) : option str :=
  match strip_prefix (lit "</div>") s with
  | Some s1 =>
      let '(_, s2) := span is_space s1 in
      strip_prefix (lit "<div style=" ++ quoted "margin-top: 20px;" ++ lit ">") s2
  | None => None
  end.

(** [<div id=\x22chat_dv\x22[^>]*>([\s\S]*?)</div>\s*<div style=\x22margin-top: 20px;\x22>]
    with its group 1. *)
Definition chatDiv (s : str) : option (str * str) :=
  match strip_prefix (lit "<div id=" ++ quoted "chat_dv") s with
  | Some s1 =>
      match until_char 62 s1 with
      | Some (_, s2) => lazy_until chat_close s2
      | None => None
      end
  | None => None
  end.

(** [<div class=\x22td15\x22[^>]*>\s*([^<]+)\s*</div>] with its group 1.  When
    only white space stands between the tag and [</div>], the first [\s*]
    gives its last character back to the group. *)
Definition dateHeader (s : str) : option (str * str) :=
  match strip_prefix (lit "<div class=" ++ quoted "td15") s with
  | Some s1 =>
      match until_char 62 s1 with
      | Some (_, s2) =>
          let '(ws, s3) := span is_space s2 in
          let '(body, s4) := span not_lt s3 in
          match strip_prefix (lit "</div>") s4 with
          | Some s5 =>
              match body, rev ws with
              | _ :: _, _ => Some (body, s5)
              | [], c :: _ => Some ([c], s5)
              | [], [] => None
              end
          | None => None
          end
      | None => None
      end
  | None => None
  end.

(** [<script>_out_text\(\x22([^\x22]{0,})\x22,\s*\x22mail_content_(\d+)\x22\);</script>]
    with groups 1 and 2 (the star of group 1 is written {0,} here). *)
Definition outText (s : str) : option ((str * str) * str) :=
  match strip_prefix (lit "<script>_out_text(" ++ dq) s with
  | Some s1 =>
      match until_char 34 s1 with
      | Some (g1, s2) =>
          match strip_prefix (lit ",") s2 with
          | Some s3 =>
              let '(_, s4) := span is_space s3 in
              match strip_prefix (dq ++ lit "mail_content_") s4 with
              | Some s5 =>
                  let '(g2, s6) := span is_digit s5 in
                  match g2, strip_prefix (dq ++ lit ");</script>") s6 with
                  | _ :: _, Some s7 => Some ((g1, g2), s7)
                  | _, _ => None
                  end
              | None => None
              end
          | None => None
          end
      | None => None
      end
  | None => None
  end.

(** [<td class=\x22?td15\x22?[^>]*>([^<]+)</td>], the end of a message
    block, with the time cell. *)
Definition timeCell (s : str) : option (str * str) :=
  match strip_prefix (lit "<td class=") s with
  | Some s1 =>
      match strip_prefix (lit "td15") (opt_char 34 s1) with
      | Some s2 =>
          match until_char 62 (opt_char 34 s2) with
          | Some (_, s3) =>
              let '(g, s4) := span not_lt s3 in
              match g, strip_prefix (lit "</td>") s4 with
              | _ :: _, Some s5 => Some (g, s5)
              | _, _ => None
              end
          | None => None
          end
      | None => None
      end
  | None => None
  end.

(** [<a name=\x22(\d+)\x22></a>\s*<div[^>]*>([\s\S]*?)] followed by the
    time cell, with groups 1, 2 and 3. *)
Definition messageBlock (s : str) : option ((str * str * str) * str) :=
  match strip_prefix (lit "<a name=" ++ dq) s with
  | Some s1 =>
      let '(g1, s2) := span is_digit s1 in
      match g1, strip_prefix (dq ++ lit "></a>") s2 with
      | _ :: _, Some s3 =>
          let '(_, s4) := span is_space s3 in
          match strip_prefix (lit "<div") s4 with
          | Some s5 =>
              match until_char 62 s5 with
              | Some (_, s6) =>
                  match lazy_until timeCell s6 with
                  | Some (g2, (g3, s7)) => Some ((g1, g2, g3), s7)
                  | None => None
                  end
              | None => None
              end
          | None => None
          end
      | _, _ => None
      end
  | None => None
  end.

End Regex.

(* ===================================================================== *)
(** ** Results and errors *)
(* ===================================================================== *)

(** The requests [pdFetch] sends to the record store.  [PostDeal] lists the
    properties of the object literal of the request body in the order of
    the source: [title], [user_id], [person_id], then the two properties with
    computed keys; it stands for the object sent when the computed keys are
    distinct and differ from the three fixed names ([plainKeys]). *)
Inductive Request : Type :=
| GetDealFields
| SearchPersons (term : str)
| GetPersonDeals (personId : Z)
| GetNotes (dealId : Z)
| PostPerson (name : str) (owner_id : Z)
| PostDeal (title : str) (user_id : Z) (person_id : option Z)
           (custom : list (str * Z))
| PostNote (deal_id : Z) (content : str).

(** The errors the program throws, one constructor per [throw] site, with
    the message of the JavaScript [Error].  In the words of the
    specification: [SessionExpired] is its SessionExpiredError,
    [ChatDivNotFound] and [ChatDivEmpty] its ParseError, [NoMessagesFound]
    its EmptyThreadError, [PipedriveApiError] its GatewayError and
    [FieldKeysUnresolved] its ConfigurationError. *)
Inductive Error : Type :=
| NoCookiesFound           (* No cookies found. authenticate.js must run first. *)
| SessionExpired           (* SS.LV session expired - cookies are stale *)
| ChatDivNotFound          (* Could not find chat div in HTML *)
| ChatDivEmpty             (* Chat div is empty *)
| NoMessagesFound          (* No messages found in conversation *)
| FieldKeysUnresolved      (* Could not resolve custom deal field keys *)
| PipedriveApiError (req : Request)
| TypeError.               (* a property read on a missing response body *)

Inductive Res (A : Type) : Type :=
| Ok (a : A)
| Throw (e : Error).
Arguments Ok {A} _.
Arguments Throw {A} _.

(* ===================================================================== *)
(** ** The scraper: fetchAllMessages *)
(* ===================================================================== *)

Inductive Direction : Type := sent | received.

Record Message : Type := mkMessage {
  id : str;
  text : str;
  time : str;
  date : str;
  direction : Direction
}.

(** The response of the HTTP fetch: final URL and body. *)
Record HttpResponse : Type := mkHttpResponse {
  url : option str;
  body : str
}.

(** The web as seen by [fetch]: cookie header and URL to response (a fetch
    that is rejected for want of a connection is outside the model). *)
Definition Web := str -> str -> HttpResponse.

(** Lines written to the console by the scraper. *)
Inductive Console : Type :=
| LogFetching (u : str)
| LogPageLoaded (bytes : nat)
| WarnNoText (messageId : str)
| LogFound (count : nat).

Definition dateMatchesOf (chatContent : str) : list (Match str) :=
  Regex.matchAll Regex.dateHeader chatContent.

(** The [while] loop over [scriptRegex.exec], filling [messageTexts]. *)
Definition messageTextsOf (chatContent : str) : Map :=
  fold_left (fun m sm => Map_set (snd (groups sm)) (fst (groups sm)) m)
            (Regex.matchAll Regex.outText chatContent) [].

Definition messageMatchesOf (chatContent : str)
  : list (Match (str * str * str)) :=
  Regex.matchAll Regex.messageBlock chatContent.

(** The inner loop that advances the date pointer: [dates] are the date
    matches from [dateIndex] on. *)
Fixpoint advance (chatContent : str) (matchIndex : nat)
         (dates : list (Match str)) (currentDate : option str)
  : list (Match str) * option str :=
  match dates with
  | [] => ([], currentDate)
  | d :: dates' =>
      let datePos := indexOf chatContent (whole d) in
      if (datePos <? Z.of_nat matchIndex)%Z
      then advance chatContent matchIndex dates' (Some (trim (groups d)))
      else (dates, currentDate)
  end.

Definition unknown_date : str := lit "Unknown date".
Definition sent_marker : str := lit "#d3f0f8".

(** The outer loop over [messageRegex.exec]: the messages pushed, in
    document order, and the warnings written. *)
Fixpoint scanMessages (chatContent : str) (messageTexts : Map)
         (dates : list (Match str)) (currentDate : option str)
         (blocks : list (Match (str * str * str)))
  : list Message * list Console :=
  match blocks with
  | [] => ([], [])
  | m :: blocks' =>
      let '(messageId, messageBlock, time3) := groups m in
      let time := trim time3 in
      let '(dates', currentDate') :=
        advance chatContent (index m) dates currentDate in
      let text := or_else (Map_get messageId messageTexts) [] in
      let '(messages, console) :=
        scanMessages chatContent messageTexts dates' currentDate' blocks' in
      if negb (truthy text) then (messages, WarnNoText messageId :: console)
      else
        let isSent := includes messageBlock sent_marker in
        (mkMessage messageId text time
                   (or_else currentDate' unknown_date)
                   (if isSent then sent else received) :: messages,
         console)
  end.

(** [(a, b) => parseInt(a.id) - parseInt(b.id)]; a NaN difference counts
    as zero for [sort]. *)
Definition byId (a b : Message) : Z :=
  match parseInt (id a), parseInt (id b) with
  | Some x, Some y => (x - y)%Z
  | _, _ => 0%Z
  end.

Definition login_path : str := lit "/login/".

(** [response.url && response.url.includes('/login/')] *)
Definition redirectedToLogin (response : HttpResponse) : bool :=
  match url response with
  | Some ru => truthy ru && includes ru login_path
  | None => false
  end.

Definition fetchAllMessages (web : Web) (cookieString u : str)
  : Res (list Message) * list Console :=
  let response := web cookieString u in
  if redirectedToLogin response
  then (Throw SessionExpired, [LogFetching u])
  else
    let html := body response in
    let console0 := [LogFetching u; LogPageLoaded (length html)] in
    match Regex.exec Regex.chatDiv html with
    | None => (Throw ChatDivNotFound, console0)
    | Some chatDivMatch =>
        let chatContent := groups chatDivMatch in
        if length chatContent <? 50 then (Throw ChatDivEmpty, console0)
        else
          let dateMatches := dateMatchesOf chatContent in
          let messageTexts := messageTextsOf chatContent in
          let '(messages, warnings) :=
            scanMessages chatContent messageTexts dateMatches None
                         (messageMatchesOf chatContent) in
          let sorted := sort byId messages in
          (Ok sorted, console0 ++ warnings ++ [LogFound (length sorted)])
    end.

(* ===================================================================== *)
(** ** The note formatter: formatNoteHtml *)
(* ===================================================================== *)

Definition nl : str := [10%N].

(** The two string literals of the variable [emoji], code unit by code unit
    as the source file holds them: U+011F, U+0178, U+201D, U+00B5 for a sent
    message and U+011F, U+0178, U+0178, U+00A2 for a received one (the bytes
    of the circles U+1F535 and U+1F7E2 read in a single-byte code page). *)
Definition blue_circle : str := [287%N; 376%N; 8221%N; 181%N].
Definition green_circle : str := [287%N; 376%N; 376%N; 162%N].

(** The template literal of [formatNoteHtml], before [trim]. *)
Definition noteTemplate (borderColor emoji label : str) (message : Message)
  : str :=
  nl ++
  lit "<div style=" ++ dq ++ lit "border-left: 4px solid " ++ borderColor ++
    lit "; padding: 6px 12px; margin: 2px 0; font-family: Arial, sans-serif;"
    ++ dq ++ lit ">" ++ nl ++
  lit "  <div style=" ++ quoted "font-size: 11px; color: #555; margin-bottom: 4px;"
    ++ lit ">" ++ nl ++
  lit "    " ++ emoji ++ lit " <b>" ++ label ++ lit "</b> &nbsp;|&nbsp; <b>[" ++
    time message ++ lit " &nbsp; " ++ date message ++ lit "]</b>" ++ nl ++
  lit "  </div>" ++ nl ++
  lit "  <div style=" ++ quoted "font-size: 13px; color: #222;" ++ lit ">" ++ nl ++
  lit "    " ++ text message ++ nl ++
  lit "  </div>" ++ nl ++
  lit "</div>".

Definition formatNoteHtml (message : Message) : str :=
  let isSent := match direction message with sent => true | received => false end in
  let borderColor := if isSent then lit "#2196F3" else lit "#4CAF50" in
  let emoji := if isSent then blue_circle else green_circle in
  let label := if isSent then lit "Sent" else lit "Received" in
  trim (noteTemplate borderColor emoji label message).

(* ===================================================================== *)
(** ** The record store behind pdFetch *)
(* ===================================================================== *)

Record Person : Type := mkPerson {
  person_id : Z;
  person_name : option str
}.

Record Deal : Type := mkDeal {
  deal_id : Z;
  deal_title : str;
  deal_user_id : Z;
  deal_person_id : option Z;
  deal_custom : list (str * Z);
  deal_deleted : bool
}.

Record Note : Type := mkNote {
  note_id : Z;
  note_deal_id : Z;
  note_content : option str
}.

(** The JSON bodies the store answers with ([data] of the response). *)
Inductive Json : Type :=
| JFields (fields : list (Z * str))
| JItems (items : list Person)
| JDeals (data : list Deal)
| JNotes (data : list Note)
| JCreated (new_id : Z).

(** The store is a remote service, not code of the repository; it is
    modelled after the operations the program consumes (section 6 of the
    specification): its tables in listing order, the next fresh id, the
    relation of its text search (term, contact name), the log of the
    requests it received, and [quota], the number of requests it still
    answers before it starts to fail ([None]: it never fails).  As the
    program stops at the first failed request, one number describes every
    failure a run can meet.  Created records are appended to their table,
    with the content they were posted with. *)
Record Remote : Type := mkRemote {
  dealFields : list (Z * str);
  persons : list Person;
  deals : list Deal;
  notes : list Note;
  nextId : Z;
  searchHit : str -> str -> bool;
  requests : list Request;
  quota : option nat
}.

Definition with_requests (r : Remote) (l : list Request) : Remote :=
  mkRemote (dealFields r) (persons r) (deals r) (notes r) (nextId r)
           (searchHit r) l (quota r).

Definition with_quota (r : Remote) (q : option nat) : Remote :=
  mkRemote (dealFields r) (persons r) (deals r) (notes r) (nextId r)
           (searchHit r) (requests r) q.

Definition add_person (r : Remote) (p : Person) : Remote :=
  mkRemote (dealFields r) (persons r ++ [p]) (deals r) (notes r)
           (nextId r + 1) (searchHit r) (requests r) (quota r).

Definition add_deal (r : Remote) (d : Deal) : Remote :=
  mkRemote (dealFields r) (persons r) (deals r ++ [d]) (notes r)
           (nextId r + 1) (searchHit r) (requests r) (quota r).

Definition add_note (r : Remote) (n : Note) : Remote :=
  mkRemote (dealFields r) (persons r) (deals r) (notes r ++ [n])
           (nextId r + 1) (searchHit r) (requests r) (quota r).

Definition dealsOf (r : Remote) (personId : Z) : list Deal :=
  filter (fun d =>
            match deal_person_id d with
            | Some p => (p =? personId)%Z
            | None => false
            end && negb (deal_deleted d))
         (deals r).

Definition notesOf (r : Remote) (dealId : Z) : list Note :=
  filter (fun n => (note_deal_id n =? dealId)%Z) (notes r).

Definition searchOf (r : Remote) (term : str) : list Person :=
  filter (fun p => searchHit r term (or_else (person_name p) [])) (persons r).

(** What the store does with a request it answers. *)
Definition serve (req : Request) (r : Remote) : Json * Remote :=
  match req with
  | GetDealFields => (JFields (dealFields r), r)
  | SearchPersons term => (JItems (searchOf r term), r)
  | GetPersonDeals personId => (JDeals (dealsOf r personId), r)
  | GetNotes dealId => (JNotes (notesOf r dealId), r)
  | PostPerson name _ =>
      (JCreated (nextId r), add_person r (mkPerson (nextId r) (Some name)))
  | PostDeal title user person custom =>
      (JCreated (nextId r),
       add_deal r (mkDeal (nextId r) title user person custom false))
  | PostNote dealId content =>
      (JCreated (nextId r),
       add_note r (mkNote (nextId r) dealId (Some content)))
  end.

(* ===================================================================== *)
(** ** The monad of main: remote state and exceptions *)
(* ===================================================================== *)

Definition M (A : Type) : Type := Remote -> Res A * Remote.

Definition ret {A} (a : A) : M A := fun r => (Ok a, r).

Definition throw {A} (e : Error) : M A := fun r => (Throw e, r).

Definition bind {A B} (m : M A) (k : A -> M B) : M B :=
  fun r =>
    match m r with
    | (Ok a, r') => k a r'
    | (Throw e, r') => (Throw e, r')
    end.

Definition lift {A} (x : Res A) : M A := fun r => (x, r).

Declare Scope remote_scope.
Delimit Scope remote_scope with remote.
Notation "x <- m ;; k" := (bind m (fun x => k))
  (at level 61, m at next level, right associativity) : remote_scope.
Notation "m ;;; k" := (bind m (fun _ => k))
  (at level 61, right associativity) : remote_scope.
Local Open Scope remote_scope.

(** [pdFetch]: the request is sent (and logged by the store); a failed
    request throws, an answered one returns the JSON body. *)
Definition pdFetch (req : Request) : M Json :=
  fun r =>
    let r1 := with_requests r (requests r ++ [req]) in
    match quota r with
    | Some O => (Throw (PipedriveApiError req), r1)
    | Some (S k) =>
        let '(json, r2) := serve req (with_quota r1 (Some k)) in (Ok json, r2)
    | None =>
        let '(json, r2) := serve req r1 in (Ok json, r2)
    end.

Definition DEAL_OWNER_USER_ID : Z := 24734804.
Definition SOURCE_CHANNEL_FIELD_ID : Z := 36.
Definition SOURCE_COMPANY_FIELD_ID : Z := 49.

Record SenderConfig : Type := mkSenderConfig {
  sourceChannelOptionId : Z;
  sourceCompanyOptionId : Z;
  dealTitlePrefix : str
}.

(** The own properties of the object SENDER_CONFIG.  The source indexes the
    object, which also finds the properties it inherits ([constructor],
    [__proto__] and the like): for a sender of such a name the check of
    [cfg] passes and [main] runs with a [cfg] that has none of the three
    fields.  Those senders are outside the embedding: every statement about
    the constants takes a sender that names an own property. *)
Definition SENDER_CONFIG (emailSender : str) : option SenderConfig :=
  if str_eqb emailSender (lit "info@cartom.lv")
  then Some (mkSenderConfig 70 47 (lit "SS Cartom"))
  else if str_eqb emailSender (lit "autoplacis@autotev.lv")
  then Some (mkSenderConfig 68 50 (lit "SS AutoTev"))
  else if str_eqb emailSender (lit "sales@cartom.lv")
  then Some (mkSenderConfig 69 54 (lit "SS Current"))
  else None.

(** [new Map(pairs).get(k)]: the last pair with the key. *)
Fixpoint byId_get (k : Z) (fields : list (Z * str)) : option str :=
  match fields with
  | [] => None
  | (k', v) :: fields' =>
      match byId_get k fields' with
      | Some v' => Some v'
      | None => if (k' =? k)%Z then Some v else None
      end
  end.

Definition getDealFieldKeys : M (option str * option str) :=
  resp <- pdFetch GetDealFields ;;
  let data := match resp with JFields l => l | _ => [] end in
  ret (byId_get SOURCE_CHANNEL_FIELD_ID data,
       byId_get SOURCE_COMPANY_FIELD_ID data).

Definition getDealsForPerson (personId : Z) : M (list Deal) :=
  resp <- pdFetch (GetPersonDeals personId) ;;
  ret (match resp with JDeals l => l | _ => [] end).

Definition getNotesForDeal (dealId : Z) : M (list Note) :=
  resp <- pdFetch (GetNotes dealId) ;;
  ret (match resp with JNotes l => l | _ => [] end).

(** [resp.data.id] of a creating request. *)
Definition created_id (resp : Json) : M Z :=
  match resp with
  | JCreated i => ret i
  | _ => throw TypeError
  end.

Definition addNote (dealId : Z) (content : str) : M Z :=
  resp <- pdFetch (PostNote dealId content) ;;
  created_id resp.

Inductive Action : Type :=
| created_new_deal
| synced_notes_to_existing_deal.

(** What [main] prints when it is done: the final values of its variables
    [resultAction], [personId], [dealId] ([None] while a variable declared
    by [let] is still undefined) and [notesAdded]. *)
Record Report : Type := mkReport {
  resultAction : Action;
  personId : option Z;
  dealId : option Z;
  notesAdded : nat
}.

(** The module-level constants of process.js. *)
Record Globals : Type := mkGlobals {
  conversationUrl : str;
  emailSender : str;
  contactPersonName : str;
  contactPersonFirstName : str;
  cfg : SenderConfig
}.

(** The process as started: positional arguments and the API token of the
    environment. *)
Record Process : Type := mkProcess {
  argv2 : option str;
  argv3 : option str;
  argv4 : option str;
  PIPEDRIVE_API_TOKEN : option str
}.

(** [existingNotes.some(n => (n.content || '').includes(t))] *)
Definition someNoteIncludes (existingNotes : list Note) (t : str) : bool :=
  existsb (fun n => includes (or_else (note_content n) []) t) existingNotes.

(** The loop that adds the messages the matching deal does not have yet;
    returns [notesAdded]. *)
Fixpoint addMissingNotes (dealId : Z) (existingNotes : list Note)
         (messages : list Message) (notesAdded : nat) : M nat :=
  match messages with
  | [] => ret notesAdded
  | message :: messages' =>
      let alreadyAdded := someNoteIncludes existingNotes (text message) in
      if negb alreadyAdded then
        addNote dealId (formatNoteHtml message) ;;;
        addMissingNotes dealId existingNotes messages' (S notesAdded)
      else addMissingNotes dealId existingNotes messages' notesAdded
  end.

(** The loop over the deals of the person: at the first deal with a note
    that includes the first message, the missing messages are added and the
    loop is left ([break]) with [dealId] and [notesAdded]; the result is
    [None] when the loop ends with [resultAction] still empty. *)
Fixpoint scanDeals (firstMessage : Message) (messages : list Message)
         (deals : list Deal) : M (option (Z * nat)) :=
  match deals with
  | [] => ret None
  | deal :: deals' =>
      existingNotes <- getNotesForDeal (deal_id deal) ;;
      let hasFirstMessage := someNoteIncludes existingNotes (text firstMessage) in
      if hasFirstMessage then
        notesAdded <- addMissingNotes (deal_id deal) existingNotes messages 0 ;;
        ret (Some (deal_id deal, notesAdded))
      else scanDeals firstMessage messages deals'
  end.

(** The loop that adds every message to the new deal; returns [notesAdded]. *)
Fixpoint addAllNotes (dealId : Z) (messages : list Message) (notesAdded : nat)
  : M nat :=
  match messages with
  | [] => ret notesAdded
  | message :: messages' =>
      addNote dealId (formatNoteHtml message) ;;;
      addAllNotes dealId messages' (S notesAdded)
  end.

(** [cookieFile] is the [cookieString] of ./ss-lv-cookies.json when the file
    exists. *)
Definition loadCookies (cookieFile : option str) : Res str :=
  match cookieFile with
  | Some cookieString => Ok cookieString
  | None => Throw NoCookiesFound
  end.

Definition dealTitleOf (g : Globals) (firstMessage : Message) : str :=
  dealTitlePrefix (cfg g) ++ lit " - " ++ contactPersonFirstName g ++ lit " - "
  ++ dq ++ slice0 10 (text firstMessage) ++ lit "..." ++ dq.

Definition noteLinkOf (g : Globals) : str :=
  lit "<div style=" ++ quoted "font-size:11px; color:#999; margin-bottom:8px;"
  ++ lit "><b>SS thread:</b> <a href=" ++ dq ++ conversationUrl g ++ dq ++ lit ">"
  ++ conversationUrl g ++ lit "</a></div>".

Section Engine.

(** [String.prototype.toLowerCase] *)
Variable toLowerCase : str -> str.

(** Lines 11 to 57: the constants with which [main] runs for a sender that
    has a configuration of its own; [None] when the process exits with
    status 1 before [main] runs, and for the senders that name an inherited
    property (see [SENDER_CONFIG]). *)
Definition startup (p : Process) : option Globals :=
  let emailSender := toLowerCase (trim (or_else (argv3 p) [])) in
  let contactPersonName := trim (or_else (argv4 p) (lit "Unknown")) in
  let contactPersonFirstName :=
    or_else (Some (split_space_0 contactPersonName)) contactPersonName in
  match argv2 p with
  | None => None
  | Some conversationUrl =>
      if negb (truthy conversationUrl) || negb (truthy emailSender) then None
      else if negb (truthy (or_else (PIPEDRIVE_API_TOKEN p) [])) then None
      else match SENDER_CONFIG emailSender with
           | None => None
           | Some cfg =>
               Some (mkGlobals conversationUrl emailSender contactPersonName
                               contactPersonFirstName cfg)
           end
  end.

(** The test of [items.find] in [findPersonByFirstName]. *)
Definition firstNameMatches (firstName : str) (item : Person) : bool :=
  let personFirstName :=
    toLowerCase (split_space_0 (or_else (person_name item) [])) in
  str_eqb personFirstName (toLowerCase firstName).

(** The term travels through [encodeURIComponent], which the store undoes;
    the first name comes from the command line and holds no lone
    surrogate, the only input on which that function throws. *)
Definition findPersonByFirstName (firstName : str) : M (option Person) :=
  resp <- pdFetch (SearchPersons firstName) ;;
  let items := match resp with JItems l => l | _ => [] end in
  ret (find (firstNameMatches firstName) items).

Definition main (g : Globals) (cookieFile : option str) (web : Web)
  : M Report :=
  (* 1. Load cookies *)
  cookieString <- lift (loadCookies cookieFile) ;;
  (* 2. Fetch all messages from the thread *)
  messages <- lift (fst (fetchAllMessages web cookieString (conversationUrl g))) ;;
  match messages with
  | [] => throw NoMessagesFound
  | firstMessage :: _ =>
      let dealTitle := dealTitleOf g firstMessage in
      let noteLink := noteLinkOf g in
      (* 3. Get the field keys *)
      keys <- getDealFieldKeys ;;
      match keys with
      | (Some sourceChannelKey, Some sourceCompanyKey) =>
          if negb (truthy sourceChannelKey) || negb (truthy sourceCompanyKey)
          then throw FieldKeysUnresolved
          else
            (* 4. Duplicate check *)
            existingPerson <- findPersonByFirstName (contactPersonFirstName g) ;;
            found <-
              match existingPerson with
              | Some p =>
                  deals <- getDealsForPerson (person_id p) ;;
                  synced <- scanDeals firstMessage messages deals ;;
                  ret (Some (person_id p), synced)
              | None => ret (None, None)
              end ;;
            match found with
            | (personId, Some (dealId, notesAdded)) =>
                ret (mkReport synced_notes_to_existing_deal
                              personId (Some dealId) notesAdded)
            | (personId, None) =>
                (* 5. No matching deal: new person, deal and notes *)
                personId <-
                  match existingPerson with
                  | Some _ => ret personId
                  | None =>
                      created <- pdFetch (PostPerson (contactPersonName g)
                                                     DEAL_OWNER_USER_ID) ;;
                      i <- created_id created ;;
                      ret (Some i)
                  end ;;
                createdDeal <-
                  pdFetch (PostDeal dealTitle DEAL_OWNER_USER_ID personId
                             [(sourceChannelKey, sourceChannelOptionId (cfg g));
                              (sourceCompanyKey, sourceCompanyOptionId (cfg g))]) ;;
                dealId <- created_id createdDeal ;;
                addNote dealId noteLink ;;;
                notesAdded <- addAllNotes dealId messages 0 ;;
                ret (mkReport created_new_deal personId (Some dealId)
                              notesAdded)
            end
      | _ => throw FieldKeysUnresolved
      end
  end.

End Engine.

(* ===================================================================== *)
(** ** toLowerCase on the Latin ranges, for the worked examples *)
(* ===================================================================== *)

(** Lower case of one code unit below U+0180 (Basic Latin, Latin-1
    Supplement, Latin Extended-A, which hold the Latvian alphabet); code
    units from U+0180 on are returned unchanged, their case mapping is not
    part of the examples. *)
Definition lower_unit (c : N) : str :=
  (if (65 <=? c) && (c <=? 90) then [c + 32]
   else if (192 <=? c) && (c <=? 222) && negb (c =? 215) then [c + 32]
   else if c =? 304 then [105; 775]
   else if c =? 376 then [255]
   else if ((256 <=? c) && (c <=? 303) || (306 <=? c) && (c <=? 311)
            || (330 <=? c) && (c <=? 375)) && N.even c then [c + 1]
   else if ((313 <=? c) && (c <=? 328) || (377 <=? c) && (c <=? 382))
           && N.odd c then [c + 1]
   else [c])%N.

Definition toLowerCaseLatin (s : str) : str := flat_map lower_unit s.

(* ===================================================================== *)
(** ** Vocabulary of the statements *)
(* ===================================================================== *)

(** The value [parseInt] gives the id of a message. *)
Definition numericId (m : Message) : Z :=
  match parseInt (id m) with Some z => z | None => 0%Z end.

Definition blockId (b : Match (str * str * str)) : str :=
  fst (fst (groups b)).

(** Does the text lookup hold a non-empty text for the block? *)
Definition hasText (messageTexts : Map) (b : Match (str * str * str)) : bool :=
  truthy (or_else (Map_get (blockId b) messageTexts) []).

(** Group 1 of the chat container pattern on a page, when it matches. *)
Definition chatContentOf (html : str) : option str :=
  option_map groups (Regex.exec Regex.chatDiv html).

(** The message blocks of a chat region that join with a text, in document
    order. *)
Definition keptBlocks (chatContent : str) : list (Match (str * str * str)) :=
  filter (hasText (messageTextsOf chatContent)) (messageMatchesOf chatContent).

Definition skippedBlocks (chatContent : str) : list (Match (str * str * str)) :=
  filter (fun b => negb (hasText (messageTextsOf chatContent) b))
         (messageMatchesOf chatContent).

(** The messages pushed by the scan loop, before the sort. *)
Definition pushedOf (chatContent : str) : list Message :=
  fst (scanMessages chatContent (messageTextsOf chatContent)
                    (dateMatchesOf chatContent) None
                    (messageMatchesOf chatContent)).

(** [d] is the nearest date marker whose offset precedes [offset]. *)
Definition nearestMarker (dates : list (Match str)) (offset : nat)
           (d : Match str) : Prop :=
  In d dates /\ index d < offset /\
  forall d', In d' dates -> index d' < offset -> index d' <= index d.

Definition noMarkerBefore (dates : list (Match str)) (offset : nat) : Prop :=
  forall d, In d dates -> offset <= index d.

(** The date label as the specification words it: the date text of the
    nearest preceding marker; the default label when no marker precedes the
    block, and when the date text of the marker is empty (the edge case of
    its section 4.1). *)
Definition recordedDate (dates : list (Match str)) (offset : nat)
           (label : str) : Prop :=
  (exists d, nearestMarker dates offset d /\
             label = or_else (Some (trim (groups d))) unknown_date)
  \/ (noMarkerBefore dates offset /\ label = unknown_date).

(** Every date marker's markup occurs first at the marker's own offset. *)
Definition markersFirstOccur (chatContent : str) : Prop :=
  Forall (fun d => indexOf chatContent (whole d) = Z.of_nat (index d))
         (dateMatchesOf chatContent).

(** Date markers before the offset [i], and from the offset [i] on. *)
Definition before (i : nat) (d : Match str) : bool := index d <? i.
Definition from (i : nat) (d : Match str) : bool := i <=? index d.

(** The label after the date markers [l] have been passed, starting from
    [cur]. *)
Definition labelAfter (l : list (Match str)) (cur : option str) : option str :=
  fold_left (fun _ d => Some (trim (groups d))) l cur.

(** The ids are safe integers: below 2^53 the doubles of JavaScript hold
    them and their differences exactly, so that the exact [parseInt] and
    the comparison of this development are those of the program. *)
Definition safeIds (messages : list Message) : Prop :=
  Forall (fun m => (numericId m < 2 ^ 53)%Z) messages.

(** The value [parseInt] gives the id of a message block. *)
Definition blockNumber (b : Match (str * str * str)) : Z :=
  match parseInt (blockId b) with Some z => z | None => 0%Z end.

(* ===================================================================== *)
(** ** Sample pages and stores *)
(* ===================================================================== *)

Module Sample.

(** A message block with anchor [i], inner markup [inner] and time [t]. *)
Definition block (i inner t : str) : str :=
  lit "<a name=" ++ dq ++ i ++ dq ++ lit "></a>" ++ nl ++
  lit "<div class=msg>" ++ inner ++
  lit "<table><tr><td class=" ++ quoted "td15" ++ lit ">" ++ t ++
  lit "</td></tr></table></div>".

(** The inline script that carries the text of message [i]. *)
Definition script (i txt : str) : str :=
  lit "<script>_out_text(" ++ dq ++ txt ++ dq ++ lit ", " ++ dq ++
  lit "mail_content_" ++ i ++ dq ++ lit ");</script>".

(** A date header. *)
Definition dateDiv (d : str) : str :=
  lit "<div class=" ++ quoted "td15" ++ lit ">" ++ d ++ lit "</div>".

(** A page around the chat region [c]. *)
Definition page (c : str) : str :=
  lit "<html><body><div id=" ++ quoted "chat_dv" ++ lit ">" ++ c ++
  lit "</div>" ++ nl ++ lit "<div style=" ++ quoted "margin-top: 20px;" ++
  lit "></div></body></html>".

Definition threadUrl : str := lit "https://www.ss.lv/lv/msg/thread-1.html".

(** A web that answers every request with [html], without redirection. *)
Definition web (html : str) : Web :=
  fun _ _ => mkHttpResponse (Some threadUrl) html.

(** Scenario A: three messages whose blocks come in the order 5, 3, 9. *)
Definition chatA : str :=
  dateDiv (lit "01.02.2026") ++
  block (lit "5") [] (lit "10:15") ++ script (lit "5") (lit "Cik maksa?") ++
  dateDiv (lit "02.02.2026") ++
  block (lit "3") (lit "<i style=color:#d3f0f8>") (lit "09:40")
    ++ script (lit "3") (lit "Labdien") ++
  block (lit "9") [] (lit "11:05") ++ script (lit "9") (lit "Paldies").

(** Two blocks carry the same anchor 7. *)
Definition chatTwins : str :=
  dateDiv (lit "01.02.2026") ++
  block (lit "7") [] (lit "10:15") ++ script (lit "7") (lit "Labdien") ++
  block (lit "7") [] (lit "10:16").

(** A date header that holds one space only, before the only block. *)
Definition chatBlankDate : str :=
  dateDiv (lit " ") ++
  block (lit "1") [] (lit "10:15") ++ script (lit "1") (lit "Labdien").

(** The header of the first day comes back after the header of a second
    day. *)
Definition chatRepeatedDate : str :=
  dateDiv (lit "1. feb") ++
  block (lit "1") [] (lit "10:15") ++ script (lit "1") (lit "Labdien") ++
  dateDiv (lit "2. feb") ++
  block (lit "2") [] (lit "11:00") ++ script (lit "2") (lit "Cik maksa?") ++
  dateDiv (lit "1. feb") ++
  block (lit "3") [] (lit "12:00") ++ script (lit "3") (lit "Paldies").

(** Block 2 has no script, block 3 has a script with an empty text. *)
Definition chatNoText : str :=
  block (lit "1") [] (lit "10:15") ++ script (lit "1") (lit "Labdien") ++
  block (lit "2") [] (lit "10:16") ++
  block (lit "3") [] (lit "10:17") ++ script (lit "3") [].

(** A chat region of sixty characters without any message block. *)
Definition chatNoBlocks : str := repeat 46%N 60.

Definition messagesOf (chat : str) : list Message :=
  match fst (fetchAllMessages (web (page chat)) [] threadUrl) with
  | Ok l => l
  | Throw _ => []
  end.

Definition messagesA : list Message := Eval vm_compute in messagesOf chatA.
Definition consoleA : list Console :=
  Eval vm_compute in snd (fetchAllMessages (web (page chatA)) [] threadUrl).

End Sample.

(* ===================================================================== *)
(** ** Vocabulary of the statements about main *)
(* ===================================================================== *)

(** The store once it has logged a request. *)
Definition logged (req : Request) (r : Remote) : Remote :=
  with_requests r (requests r ++ [req]).

(** The answer to a request and the store after it, when the store
    answers. *)
Definition answer (req : Request) (r : Remote) : Json :=
  fst (serve req (logged req r)).

Definition after (req : Request) (r : Remote) : Remote :=
  snd (serve req (logged req r)).

Definition afterAll (reqs : list Request) (r : Remote) : Remote :=
  fold_left (fun r' req => after req r') reqs r.

(** Reading requests: they leave the tables as they are. *)
Definition reading (req : Request) : Prop :=
  match req with
  | GetDealFields | SearchPersons _ | GetPersonDeals _ | GetNotes _ => True
  | _ => False
  end.

(** The notes a list of [PostNote] requests leaves in a store whose next
    fresh id is [next]. *)
Fixpoint notesPosted (next : Z) (dealId : Z) (contents : list str)
  : list Note :=
  match contents with
  | [] => []
  | c :: contents' =>
      mkNote next dealId (Some c) :: notesPosted (next + 1) dealId contents'
  end.

(** Does the deal hold a note that includes the text? *)
Definition dealIncludes (r : Remote) (t : str) (d : Deal) : bool :=
  someNoteIncludes (notesOf r (deal_id d)) t.

(** The messages of the thread no note of the deal includes. *)
Definition missingFrom (existingNotes : list Note) (messages : list Message)
  : list Message :=
  filter (fun m => negb (someNoteIncludes existingNotes (text m))) messages.

(** Every id and every reference in the tables was issued by the store. *)
Definition idsIssued (r : Remote) : Prop :=
  Forall (fun p => (person_id p < nextId r)%Z) (persons r)
  /\ Forall (fun d => (deal_id d < nextId r)%Z
                      /\ match deal_person_id d with
                         | Some q => (q < nextId r)%Z
                         | None => True
                         end) (deals r)
  /\ Forall (fun n => (note_id n < nextId r)%Z
                      /\ (note_deal_id n < nextId r)%Z) (notes r).

(** The first white-space-delimited token of a string. *)
Definition firstWhitespaceToken (s : str) : str :=
  takeWhile (fun c => negb (is_space c)) (dropWhile is_space s).

Module Scenario.

(** A store with the two custom fields, whose text search returns every
    contact. *)
Definition store (people : list Person) (ds : list Deal) (ns : list Note)
           (next : Z) : Remote :=
  mkRemote [(36%Z, lit "channel_key"); (49%Z, lit "company_key")]
           people ds ns next (fun _ _ => true) [] None.

Definition emptyStore : Remote := store [] [] [] 1.

(** The name [janis berzins] with its Latvian letters: j, U+0101, n, i, s,
    space, b, U+0113, r, z, i, U+0146, U+0161. *)
Definition janisBerzins : str :=
  [106; 257; 110; 105; 115; 32; 98; 275; 114; 122; 105; 326; 353]%N.

(** [Janis] with a capital J and U+0101, and the shorter [Jani]. *)
Definition Janis : str := [74; 257; 110; 105; 115]%N.
Definition Jani : str := [74; 257; 110; 105]%N.

Definition process (name : str) : Process :=
  mkProcess (Some Sample.threadUrl) (Some (lit "info@cartom.lv"))
            (Some name) (Some (lit "token")).

Definition globalsOf (name : str) : Globals :=
  match startup toLowerCaseLatin (process name) with
  | Some g => g
  | None => mkGlobals [] [] [] [] (mkSenderConfig 0 0 [])
  end.

(** Scenario A: the thread 5, 3, 9 and a store without contacts. *)
Definition runA : Res Report * Remote :=
  main toLowerCaseLatin (globalsOf janisBerzins) (Some (lit "sid=1"))
       (Sample.web (Sample.page Sample.chatA)) emptyStore.

(** A contact stored under a name whose two parts are separated by a tab,
    in a store whose text search returns the contacts whose name contains
    the term, whatever the case. *)
Definition annaTab : str := lit "Anna" ++ [9%N] ++ lit "Liepa".

Definition anna : Person := mkPerson 1 (Some annaTab).

Definition annaStore : Remote :=
  mkRemote [(36%Z, lit "channel_key"); (49%Z, lit "company_key")]
           [anna] [] [] 2
           (fun term name =>
              includes (toLowerCaseLatin name) (toLowerCaseLatin term))
           [] None.

End Scenario.

(** The run gets as far as the duplicate check: the cookies load, the
    thread is fetched and parsed to [messages], not empty, and the two
    custom field keys resolve to [ck] and [sk]. *)
Definition reachesDuplicateCheck (g : Globals) (cookieFile : option str)
           (web : Web) (r : Remote) (messages : list Message) (ck sk : str)
  : Prop :=
  exists cookieString,
    cookieFile = Some cookieString
    /\ fst (fetchAllMessages web cookieString (conversationUrl g)) = Ok messages
    /\ messages <> []
    /\ byId_get SOURCE_CHANNEL_FIELD_ID (dealFields r) = Some ck
    /\ truthy ck = true
    /\ byId_get SOURCE_COMPANY_FIELD_ID (dealFields r) = Some sk
    /\ truthy sk = true.

(** The opening message of a thread. *)
Definition openingText (messages : list Message) : str :=
  match messages with
  | firstMessage :: _ => text firstMessage
  | [] => []
  end.

Definition openingMessage (messages : list Message) : Message :=
  match messages with
  | firstMessage :: _ => firstMessage
  | [] => mkMessage [] [] [] [] received
  end.

(** The request that creates the deal of a thread for a person. *)
Definition postDealOf (g : Globals) (messages : list Message) (ck sk : str)
           (personId : option Z) : Request :=
  PostDeal (dealTitleOf g (openingMessage messages)) DEAL_OWNER_USER_ID personId
           [(ck, sourceChannelOptionId (cfg g));
            (sk, sourceCompanyOptionId (cfg g))].

Definition postNotesOf (dealId : Z) (messages : list Message) : list Request :=
  map (fun m => PostNote dealId (formatNoteHtml m)) messages.

Definition getNotesOf (ds : list Deal) : list Request :=
  map (fun d => GetNotes (deal_id d)) ds.

(** Some note of the deal has a content that contains the text as a
    substring. *)
Definition holdsText (r : Remote) (t : str) (d : Deal) : Prop :=
  exists n, In n (notesOf r (deal_id d))
            /\ exists a b, or_else (note_content n) [] = a ++ t ++ b.

(** The contact the duplicate check finds. *)
Definition existingPersonOf (toLowerCase : str -> str) (g : Globals)
           (r : Remote) : option Person :=
  find (firstNameMatches toLowerCase (contactPersonFirstName g))
       (searchOf r (contactPersonFirstName g)).

(** No deal of the contact found, if any, owns the thread. *)
Definition noOwningDeal (toLowerCase : str -> str) (g : Globals) (r : Remote)
           (messages : list Message) : Prop :=
  match existingPersonOf toLowerCase g r with
  | Some p =>
      Forall (fun d => ~ holdsText r (openingText messages) d)
             (dealsOf r (person_id p))
  | None => True
  end.

(** The requests of a run that creates a deal. *)
Definition createdRequests (g : Globals) (r : Remote)
           (existingPerson : option Person) (messages : list Message)
           (ck sk : str) : list Request :=
  let personId := match existingPerson with
                  | Some p => person_id p
                  | None => nextId r
                  end in
  let dealId := match existingPerson with
                | Some _ => nextId r
                | None => (nextId r + 1)%Z
                end in
  [GetDealFields; SearchPersons (contactPersonFirstName g)]
  ++ match existingPerson with
     | Some p => GetPersonDeals (person_id p)
                   :: getNotesOf (dealsOf r (person_id p))
     | None => [PostPerson (contactPersonName g) DEAL_OWNER_USER_ID]
     end
  ++ [postDealOf g messages ck sk (Some personId);
      PostNote dealId (noteLinkOf g)]
  ++ postNotesOf dealId messages.

Module ScenarioB.

(** A store where the contact exists with three deals: the notes of deal 10
    do not hold the opening message, a note of deal 11 holds it inside
    other markup, and a note of deal 12 holds it too. *)
Definition janis : Person := mkPerson 1 (Some Scenario.Janis).

Definition deal (i : Z) : Deal :=
  mkDeal i (lit "SS Cartom - earlier") DEAL_OWNER_USER_ID (Some 1%Z) [] false.

Definition store : Remote :=
  Scenario.store [janis] [deal 10; deal 11; deal 12]
    [mkNote 20 10 (Some (lit "<p>Sveiki</p>"));
     mkNote 21 11 (Some (lit "<p>Labdien</p>"));
     mkNote 22 12 (Some (lit "Labdien"))]
    30.

Definition globals : Globals := Scenario.globalsOf Scenario.janisBerzins.

Definition run : Res Report * Remote :=
  main toLowerCaseLatin globals (Some (lit "sid=1"))
       (Sample.web (Sample.page Sample.chatA)) store.

End ScenarioB.

(** The property names the object literal of the new deal spells out. *)
Definition fixedDealProperties : list str :=
  [lit "title"; lit "user_id"; lit "person_id"].

(** The two computed keys of that literal are distinct and none of the fixed
    names: the object sent has the five properties the source lists, each
    with the value it lists for it. *)
Definition plainKeys (ck sk : str) : Prop :=
  ck <> sk /\ ~ In ck fixedDealProperties /\ ~ In sk fixedDealProperties.

(** The anchor element that links to [u]: \x3ca href=\x22u\x22\x3eu\x3c/a\x3e. *)
Definition anchorTo (u : str) : str :=
  lit "<a href=" ++ dq ++ u ++ dq ++ lit ">" ++ u ++ lit "</a>".

(* ===================================================================== *)
(** ** Further vocabulary: the scraper *)
(* ===================================================================== *)

(** Group 2 of a message block match: the markup between the opening tag of
    the block and its time cell. *)
Definition blockMarkup (b : Match (str * str * str)) : str :=
  snd (fst (groups b)).

(** Group 3 of a message block match: the content of the time cell. *)
Definition blockTime (b : Match (str * str * str)) : str :=
  snd (groups b).

(** The matches of [scriptRegex] in the chat region, in document order. *)
Definition scriptMatchesOf (chatContent : str) : list (Match (str * str)) :=
  Regex.matchAll Regex.outText chatContent.

(** The opening of the chat container. *)
Definition chat_open : str := lit "<div id=" ++ quoted "chat_dv".

Module SampleMore.

(** Two scripts carry the id 1; the second text is the one kept. *)
Definition chatTwoScripts : str :=
  Sample.dateDiv (lit "01.02.2026") ++
  Sample.block (lit "1") [] (lit " 10:15 ")
  ++ Sample.script (lit "1") (lit "Labdien")
  ++ Sample.script (lit "1") (lit "Labdien, vai auto ir pieejams?").

Definition messagesTwoScripts : list Message :=
  Eval vm_compute in Sample.messagesOf chatTwoScripts.

(** The ids 05 and 5 have the same number; 3 comes last in the page. *)
Definition chatSameNumber : str :=
  Sample.block (lit "05") [] (lit "10:15")
  ++ Sample.script (lit "05") (lit "Labdien") ++
  Sample.block (lit "5") [] (lit "10:16")
  ++ Sample.script (lit "5") (lit "Cik maksa?") ++
  Sample.block (lit "3") [] (lit "10:17")
  ++ Sample.script (lit "3") (lit "Paldies").

Definition messagesSameNumber : list Message :=
  Eval vm_compute in Sample.messagesOf chatSameNumber.

(** A page without the chat container. *)
Definition pageNoChat : str :=
  lit "<html><body><div id=" ++ quoted "login" ++ lit "></div></body></html>".

Definition messagesRepeatedDate : list Message :=
  Eval vm_compute in Sample.messagesOf Sample.chatRepeatedDate.

End SampleMore.

Module SampleDates.

(** The third date header of the page with a repeated header: the header of
    1 February that comes back. *)
Definition repeatedHeader : Match str :=
  Eval vm_compute in
    nth 2 (dateMatchesOf Sample.chatRepeatedDate) (mkMatch 0 [] []).

End SampleDates.

(** The offset the date pointer computes for a date marker. *)
Definition datePosOf (chatContent : str) (d : Match str) : Z :=
  indexOf chatContent (whole d).

(** The date markers the pointer passes for a block at offset [i], from the
    head of [dates], and those it leaves. *)
Fixpoint passed (chatContent : str) (i : nat) (dates : list (Match str))
  : list (Match str) :=
  match dates with
  | [] => []
  | d :: dates' =>
      if (datePosOf chatContent d <? Z.of_nat i)%Z
      then d :: passed chatContent i dates'
      else []
  end.

Fixpoint remaining (chatContent : str) (i : nat) (dates : list (Match str))
  : list (Match str) :=
  match dates with
  | [] => []
  | d :: dates' =>
      if (datePosOf chatContent d <? Z.of_nat i)%Z
      then remaining chatContent i dates'
      else dates
  end.

(* ===================================================================== *)
(** ** Further vocabulary: runs of main *)
(* ===================================================================== *)

(** Steps 1 and 2 of [main]: the cookies are loaded and the thread is
    fetched and parsed. *)
Definition scrapeOf (g : Globals) (cookieFile : option str) (web : Web)
  : Res (list Message) :=
  match loadCookies cookieFile with
  | Ok cookieString =>
      fst (fetchAllMessages web cookieString (conversationUrl g))
  | Throw e => Throw e
  end.

(** A custom field key that [main] accepts: defined and not empty. *)
Definition resolvedKey (key : option str) : bool :=
  match key with
  | Some k => truthy k
  | None => false
  end.

(** The error is the failure of a request to the store. *)
Definition gatewayFailure (A : Type) (res : Res A) : Prop :=
  match res with
  | Throw (PipedriveApiError _) => True
  | _ => False
  end.

(** What any computation on the store does to it, from [r] to the outcome
    [out]: the tables, the request log and the counter of ids only grow, the
    field table and the search are left alone; a store that never fails
    keeps answering and the outcome is no gateway failure; a store that
    answers [n] more requests either received at most [n] requests, all
    answered, or received one more, which failed, and then the outcome is
    the failure of that last request. *)
Definition runsOn (A : Type) (r : Remote) (out : Res A * Remote) : Prop :=
  exists ps ds ns qs,
    persons (snd out) = persons r ++ ps
    /\ deals (snd out) = deals r ++ ds
    /\ notes (snd out) = notes r ++ ns
    /\ requests (snd out) = requests r ++ qs
    /\ dealFields (snd out) = dealFields r
    /\ searchHit (snd out) = searchHit r
    /\ (nextId r <= nextId (snd out))%Z
    /\ length ps + length ds + length ns <= length qs
    /\ match quota r with
       | None => quota (snd out) = None /\ ~ gatewayFailure (fst out)
       | Some n =>
           (length qs <= n /\ quota (snd out) = Some (n - length qs)
            /\ ~ gatewayFailure (fst out))
           \/ (length qs = S n /\ quota (snd out) = Some 0
               /\ exists qs' q, qs = qs' ++ [q]
                                /\ fst out = Throw (PipedriveApiError q)
                                /\ length ps + length ds + length ns
                                   <= length qs')
       end.

(* ===================================================================== *)
(** ** The first version of the program: src/process.js *)
(* ===================================================================== *)

(** The first version reads one message, the first block of the thread,
    and adds one note per run.  It shares with the current version the
    cookies, the regular expressions, [pdFetch], [getDealFieldKeys],
    [findPersonByFirstName], [getDealsForPerson] and [addNote]. *)
Module V1.

(** Its errors: those of the current version, and the two of
    [fetchFirstMessage]. *)
Inductive Error1 : Type :=
| Shared (e : Error)
| NoMessagesParsed          (* Could not parse any messages *)
| FirstMessageEmpty.        (* First message text is empty *)

Inductive Res1 (A : Type) : Type :=
| Ok1 (a : A)
| Throw1 (e : Error1).
Arguments Ok1 {A} _.
Arguments Throw1 {A} _.

(** Its console lines: those of the current scraper, and the line that
    shows the first 60 code units of the first message. *)
Inductive Console1 : Type :=
| Logged (c : Console)
| LogFirstMessage (shown : str).

Definition fetchFirstMessage (web : Web) (cookieString u : str)
  : Res1 str * list Console1 :=
  let response := web cookieString u in
  if redirectedToLogin response
  then (Throw1 (Shared SessionExpired), [Logged (LogFetching u)])
  else
    let html := body response in
    let console0 :=
      [Logged (LogFetching u); Logged (LogPageLoaded (length html))] in
    match Regex.exec Regex.chatDiv html with
    | None => (Throw1 (Shared ChatDivNotFound), console0)
    | Some chatDivMatch =>
        let chatContent := groups chatDivMatch in
        if length chatContent <? 50
        then (Throw1 (Shared ChatDivEmpty), console0)
        else
          let messageTexts := messageTextsOf chatContent in
          match Regex.exec Regex.messageBlock chatContent with
          | None => (Throw1 NoMessagesParsed, console0)
          | Some match_ =>
              let firstMessage :=
                or_else (Map_get (fst (fst (groups match_))) messageTexts) [] in
              if negb (truthy firstMessage)
              then (Throw1 FirstMessageEmpty, console0)
              else (Ok1 firstMessage,
                    console0 ++ [LogFirstMessage (firstn 60 firstMessage)])
          end
    end.

(** [notes.some(n => (n.content || '').includes(firstMessage.slice(0, 50)))] *)
Definition someNoteIncludesStart (notes : list Note) (firstMessage : str)
  : bool :=
  existsb (fun n => includes (or_else (note_content n) [])
                             (slice0 50 firstMessage)) notes.

Definition dealHasFirstMessageNote (dealId : Z) (firstMessage : str)
  : M bool :=
  resp <- pdFetch (GetNotes dealId) ;;
  let notes := match resp with JNotes l => l | _ => [] end in
  ret (someNoteIncludesStart notes firstMessage).

Inductive Action1 : Type :=
| added_note_to_existing_deal
| created_new_deal1.

(** What [main] prints when it is done. *)
Record Report1 : Type := mkReport1 {
  resultAction1 : Action1;
  personId1 : option Z;
  dealId1 : option Z;
  noteId1 : option Z
}.

Definition dealTitleOf1 (g : Globals) (firstMessage : str) : str :=
  dealTitlePrefix (cfg g) ++ lit " - " ++ contactPersonFirstName g ++ lit " - "
  ++ dq ++ slice0 10 firstMessage ++ lit "..." ++ dq.

Definition noteLinkOf1 (g : Globals) : str :=
  lit "<div><b>SS message link:</b> <a href=" ++ dq ++ conversationUrl g ++ dq
  ++ lit ">" ++ conversationUrl g ++ lit "</a></div>".

Definition firstMessageNoteOf (g : Globals) (firstMessage : str) : str :=
  noteLinkOf1 g ++ lit "<div><b>First SS message:</b> " ++ firstMessage
  ++ lit "</div>".

Definition latestNoteOf (g : Globals) (firstMessage : str) : str :=
  noteLinkOf1 g ++ lit "<div><b>Latest SS message:</b> " ++ firstMessage
  ++ lit "</div>".

(** The loop over the deals of the person: at the first deal with a note
    that includes the start of the first message, one note is added and the
    loop is left with [dealId] and [noteId]. *)
Fixpoint scanDeals1 (g : Globals) (firstMessage : str) (deals : list Deal)
  : M (option (Z * Z)) :=
  match deals with
  | [] => ret None
  | deal :: deals' =>
      has <- dealHasFirstMessageNote (deal_id deal) firstMessage ;;
      if has then
        noteId <- addNote (deal_id deal) (latestNoteOf g firstMessage) ;;
        ret (Some (deal_id deal, noteId))
      else scanDeals1 g firstMessage deals'
  end.

Section Engine1.

Variable toLowerCase : str -> str.

(** Steps 4 and 5 of [main], on the record store. *)
Definition store1 (g : Globals) (firstMessage : str) : M Report1 :=
  keys <- getDealFieldKeys ;;
  match keys with
  | (Some sourceChannelKey, Some sourceCompanyKey) =>
      if negb (truthy sourceChannelKey) || negb (truthy sourceCompanyKey)
      then throw FieldKeysUnresolved
      else
        existingPerson <-
          findPersonByFirstName toLowerCase (contactPersonFirstName g) ;;
        found <-
          match existingPerson with
          | Some p =>
              deals <- getDealsForPerson (person_id p) ;;
              added <- scanDeals1 g firstMessage deals ;;
              ret (Some (person_id p), added)
          | None => ret (None, None)
          end ;;
        match found with
        | (personId, Some (dealId, noteId)) =>
            ret (mkReport1 added_note_to_existing_deal
                           personId (Some dealId) (Some noteId))
        | (personId, None) =>
            personId <-
              match existingPerson with
              | Some _ => ret personId
              | None =>
                  created <- pdFetch (PostPerson (contactPersonName g)
                                                 DEAL_OWNER_USER_ID) ;;
                  i <- created_id created ;;
                  ret (Some i)
              end ;;
            createdDeal <-
              pdFetch (PostDeal (dealTitleOf1 g firstMessage)
                         DEAL_OWNER_USER_ID personId
                         [(sourceChannelKey, sourceChannelOptionId (cfg g));
                          (sourceCompanyKey, sourceCompanyOptionId (cfg g))]) ;;
            dealId <- created_id createdDeal ;;
            noteId <- addNote dealId (firstMessageNoteOf g firstMessage) ;;
            ret (mkReport1 created_new_deal1 personId (Some dealId)
                           (Some noteId))
        end
  | _ => throw FieldKeysUnresolved
  end.

(** [main] of the first version; the contact names, which it computes from
    the fourth argument after the scrape, are those of [g]. *)
Definition main (g : Globals) (cookieFile : option str) (web : Web)
           (r : Remote) : Res1 Report1 * Remote :=
  match loadCookies cookieFile with
  | Throw e => (Throw1 (Shared e), r)
  | Ok cookieString =>
      match fst (fetchFirstMessage web cookieString (conversationUrl g)) with
      | Throw1 e => (Throw1 e, r)
      | Ok1 firstMessage =>
          match store1 g firstMessage r with
          | (Ok report, r') => (Ok1 report, r')
          | (Throw e, r') => (Throw1 (Shared e), r')
          end
      end
  end.

End Engine1.

End V1.

(* ===================================================================== *)
(** ** Further vocabulary: the ids a computation handles *)
(* ===================================================================== *)

(** The ids are below the counter of the store: the store issued them. *)
Definition issued (xs : list Z) (r : Remote) : Prop :=
  Forall (fun x => (x < nextId r)%Z) xs.

(** The ids a request refers to. *)
Definition reqIds (req : Request) : list Z :=
  match req with
  | PostDeal _ _ (Some personId) _ => [personId]
  | PostNote dealId _ => [dealId]
  | _ => []
  end.

(** The ids an answer carries. *)
Definition idsOf (resp : Json) : list Z :=
  match resp with
  | JCreated i => [i]
  | JItems l => map person_id l
  | JDeals l => map deal_id l
  | _ => []
  end.

(** The computation [m], started with the issued ids [xs] in a store where
    every id was issued, leaves such a store, whatever its outcome, and the
    ids [f a] of its result [a] are issued too. *)
Definition keepsIds (A : Type) (xs : list Z) (m : M A) (f : A -> list Z)
  : Prop :=
  forall r,
    idsIssued r -> issued xs r ->
    idsIssued (snd (m r))
    /\ (nextId r <= nextId (snd (m r)))%Z
    /\ match fst (m r) with
       | Ok a => issued (f a) (snd (m r))
       | Throw _ => True
       end.

(* ===================================================================== *)
(** * Properties *)
(* ===================================================================== *)

(** ** Strings *)

Lemma str_eqb_eq (a b : str) : str_eqb a b = true <-> a = b.
Proof.
  unfold str_eqb. destruct (list_eq_dec N.eq_dec a b); split; congruence.
Qed.

Lemma str_eqb_refl (a : str) : str_eqb a a = true.
Proof. now apply str_eqb_eq. Qed.

Lemma strip_prefix_spec (p s rest : str) :
  strip_prefix p s = Some rest <-> s = p ++ rest.
Proof.
  revert s. induction p as [|a p IH]; intros s; simpl.
  - split; congruence.
  - destruct s as [|b s].
    + split; discriminate.
    + destruct (N.eqb_spec a b) as [->|Hne].
      * rewrite IH. split; congruence.
      * split; [discriminate | congruence].
Qed.

Lemma strip_prefix_app (p s : str) : strip_prefix p (p ++ s) = Some s.
Proof. now apply strip_prefix_spec. Qed.

Lemma starts_with_spec (p s : str) :
  starts_with p s = true <-> exists rest, s = p ++ rest.
Proof.
  unfold starts_with. split.
  - destruct (strip_prefix p s) eqn:E; [|discriminate].
    intros _. exists s0. now apply strip_prefix_spec.
  - intros [rest ->]. now rewrite strip_prefix_app.
Qed.

(** [includes] is substring containment. *)
Lemma includes_spec (s needle : str) :
  includes s needle = true <-> exists pre suf, s = pre ++ needle ++ suf.
Proof.
  induction s as [|c s IH]; simpl.
  - rewrite orb_false_r, starts_with_spec. split.
    + intros [rest E]. now exists [], rest.
    + intros (pre & suf & E). destruct pre; [now exists suf|discriminate].
  - rewrite orb_true_iff, starts_with_spec, IH. split.
    + intros [[rest E]|(pre & suf & E)].
      * now exists [], rest.
      * exists (c :: pre), suf. now rewrite E.
    + intros (pre & suf & E). destruct pre as [|x pre].
      * left. now exists suf.
      * right. exists pre, suf. simpl in E. congruence.
Qed.

Lemma includes_app (pre needle suf : str) :
  includes (pre ++ needle ++ suf) needle = true.
Proof. apply includes_spec. now exists pre, suf. Qed.

Lemma dropWhile_head (f : N -> bool) (c : N) (s : str) :
  f c = false -> dropWhile f (c :: s) = c :: s.
Proof. intros H. simpl. now rewrite H. Qed.

Lemma trimEnd_last (s : str) (c : N) :
  is_space c = false -> trimEnd (s ++ [c]) = s ++ [c].
Proof.
  intros H. unfold trimEnd. rewrite rev_app_distr. simpl.
  rewrite H. simpl. now rewrite rev_involutive.
Qed.

(** [trim] removes a leading line feed and nothing else from a text that
    begins and ends with characters that are not white space. *)
Lemma trim_framed (c1 c2 : N) (s : str) :
  is_space c1 = false -> is_space c2 = false ->
  trim (nl ++ (c1 :: s) ++ [c2]) = (c1 :: s) ++ [c2].
Proof.
  intros H1 H2. unfold trim, trimStart. simpl. rewrite H1.
  change (c1 :: s ++ [c2]) with ((c1 :: s) ++ [c2]).
  now apply trimEnd_last.
Qed.

(** The head of a trimmed string is not white space. *)
Lemma dropWhile_not_head (f : N -> bool) (s : str) (c : N) (s' : str) :
  dropWhile f s = c :: s' -> f c = false.
Proof.
  induction s as [|x s IH]; simpl; [discriminate|].
  destruct (f x) eqn:E; [exact IH|]. intros [= <- _]. exact E.
Qed.

Lemma dropWhile_suffix (f : N -> bool) (s : str) :
  exists pre, s = pre ++ dropWhile f s.
Proof.
  induction s as [|x s [pre IH]]; simpl.
  - now exists [].
  - destruct (f x).
    + exists (x :: pre). simpl. now f_equal.
    + now exists [].
Qed.

Lemma trimEnd_prefix (s : str) : exists suf, s = trimEnd s ++ suf.
Proof.
  unfold trimEnd. destruct (dropWhile_suffix is_space (rev s)) as [pre E].
  exists (rev pre). rewrite <- rev_app_distr, <- E. now rewrite rev_involutive.
Qed.

Lemma trim_head_not_space (s : str) (c : N) (s' : str) :
  trim s = c :: s' -> is_space c = false.
Proof.
  unfold trim, trimStart. intros H.
  destruct (trimEnd_prefix (dropWhile is_space s)) as [suf E].
  rewrite H in E. simpl in E.
  apply dropWhile_not_head with (s := s) (s' := s' ++ suf). exact E.
Qed.

(** The first space-delimited token of a trimmed, non-empty name is not
    empty. *)
Lemma split_space_0_trim (s : str) :
  trim s <> [] -> split_space_0 (trim s) <> [].
Proof.
  intros Hne. destruct (trim s) as [|c s'] eqn:E; [congruence|].
  apply trim_head_not_space in E. unfold split_space_0. simpl.
  destruct (N.eqb_spec c 32) as [->|_]; [discriminate E|]. simpl. discriminate.
Qed.

(** ** The note formatter *)

(** The rendered fragment is a prefix, the text of the message, and a
    suffix. *)
Lemma formatNoteHtml_split (m : Message) :
  exists pre suf, formatNoteHtml m = pre ++ text m ++ suf.
Proof.
  { unfold formatNoteHtml.
    set (bc := if match direction m with sent => true | received => false end
               then lit "#2196F3" else lit "#4CAF50").
    set (em := if match direction m with sent => true | received => false end
               then blue_circle else green_circle).
    set (lb := if match direction m with sent => true | received => false end
               then lit "Sent" else lit "Received").
    pose (pre := lit "div style=" ++ dq ++ lit "border-left: 4px solid " ++ bc ++
      lit "; padding: 6px 12px; margin: 2px 0; font-family: Arial, sans-serif;"
      ++ dq ++ lit ">" ++ nl ++
      lit "  <div style=" ++ quoted "font-size: 11px; color: #555; margin-bottom: 4px;"
      ++ lit ">" ++ nl ++
      lit "    " ++ em ++ lit " <b>" ++ lb ++ lit "</b> &nbsp;|&nbsp; <b>[" ++
      time m ++ lit " &nbsp; " ++ date m ++ lit "]</b>" ++ nl ++
      lit "  </div>" ++ nl ++
      lit "  <div style=" ++ quoted "font-size: 13px; color: #222;" ++ lit ">" ++ nl ++
      lit "    ").
    pose (suf := nl ++ lit "  </div>" ++ nl ++ lit "</div").
    assert (E : noteTemplate bc em lb m
                = nl ++ (60%N :: pre ++ text m ++ suf) ++ [62%N]).
    { unfold noteTemplate, pre, suf, quoted.
      rewrite <- app_comm_cons. repeat rewrite <- app_assoc. reflexivity. }
    rewrite E, trim_framed by reflexivity.
    exists (60%N :: pre), (suf ++ [62%N]).
    simpl. now repeat rewrite <- app_assoc. }
Qed.

Lemma formatNoteHtml_includes (m : Message) :
  includes (formatNoteHtml m) (text m) = true.
Proof.
  destruct (formatNoteHtml_split m) as (pre & suf & ->). apply includes_app.
Qed.

(** C4: [formatNoteHtml] is a total function of the message (a Rocq
    function: it returns for every message, reads nothing else and throws
    nothing), and the fragment it renders contains the text of the message
    verbatim: the fragment is some prefix, then the text, then some suffix,
    and [includes] finds the text in it. *)
Theorem formatNoteHtml_contains_text (m : Message) :
  (exists pre suf, formatNoteHtml m = pre ++ text m ++ suf)
  /\ includes (formatNoteHtml m) (text m) = true.
Proof.
  split; [apply formatNoteHtml_split | apply formatNoteHtml_includes].
Qed.

(** ** The sort *)

Section SortFacts.
Variable A : Type.
Variable compareFn : A -> A -> Z.

Lemma sort_insert_perm (x : A) (l : list A) :
  Permutation (sort_insert compareFn x l) (x :: l).
Proof.
  induction l as [|y l IH]; simpl; [reflexivity|].
  destruct (0 <? compareFn x y)%Z; [|reflexivity].
  rewrite IH. apply perm_swap.
Qed.

Lemma sort_perm (l : list A) : Permutation (sort compareFn l) l.
Proof.
  induction l as [|x l IH]; simpl; [reflexivity|].
  rewrite sort_insert_perm. now constructor.
Qed.

(** On a domain [P] where the comparison is the difference of a numeric
    key, the sort orders by that key. *)
Variable key : A -> Z.
Variable P : A -> Prop.
Hypothesis compareFn_key :
  forall a b, P a -> P b -> compareFn a b = (key a - key b)%Z.

Let le_key (a b : A) : Prop := (key a <= key b)%Z.

Lemma sort_insert_sorted (x : A) (l : list A) :
  P x -> Forall P l -> StronglySorted le_key l ->
  StronglySorted le_key (sort_insert compareFn x l).
Proof.
  intros Px Pl Hs. induction Hs as [|y l Hs IH Hy]; simpl.
  - repeat constructor.
  - inversion Pl as [|? ? Py Pl']; subst.
    rewrite (compareFn_key Px Py).
    destruct (Z.ltb_spec 0 (key x - key y)) as [Hlt|Hge].
    + constructor; [now apply IH|].
      rewrite (sort_insert_perm x l). constructor; [unfold le_key; lia|exact Hy].
    + constructor; [now constructor|].
      constructor; [unfold le_key; lia|].
      eapply Forall_impl; [|exact Hy]. unfold le_key. intros; lia.
Qed.

Lemma sort_sorted (l : list A) :
  Forall P l -> StronglySorted le_key (sort compareFn l).
Proof.
  induction 1 as [|x l Px Pl IH]; simpl; [constructor|].
  apply sort_insert_sorted; auto.
  rewrite (sort_perm l). exact Pl.
Qed.
End SortFacts.

(** A sequence ordered by [<=] whose keys are pairwise distinct is ordered
    by [<]. *)
Lemma StronglySorted_strict (A : Type) (key : A -> Z) (l : list A) :
  StronglySorted (fun a b => (key a <= key b)%Z) l ->
  NoDup (map key l) ->
  StronglySorted (fun a b => (key a < key b)%Z) l.
Proof.
  induction 1 as [|x l Hs IH Hx]; intros Hnd; [constructor|].
  simpl in Hnd. inversion Hnd as [|? ? Hnin Hnd']; subst.
  constructor; [now apply IH|].
  rewrite Forall_forall in *. intros y Hy.
  assert (key x <> key y) by (intros E; apply Hnin; rewrite E; now apply in_map).
  specialize (Hx y Hy). simpl in Hx. lia.
Qed.

(** ** parseInt on the ids of the message pattern *)

Lemma is_digit_not_space (c : N) : is_digit c = true -> is_space c = false.
Proof.
  unfold is_digit, is_space. intros H.
  apply andb_true_iff in H as [H1 H2].
  apply N.leb_le in H1. apply N.leb_le in H2.
  repeat match goal with
         | |- context [(?a <=? ?b)%N] => destruct (N.leb_spec a b); try lia
         | |- context [(?a =? ?b)%N] => destruct (N.eqb_spec a b); try lia
         end; reflexivity.
Qed.

Lemma digit_value_10 (c : N) :
  is_digit c = true -> exists d, digit_value 10 c = Some d.
Proof.
  unfold is_digit, digit_value. intros H. rewrite H.
  apply andb_true_iff in H as [H1 H2].
  apply N.leb_le in H1. apply N.leb_le in H2.
  destruct (Z.ltb_spec (Z.of_N c - 48) 10); [eauto|lia].
Qed.

Lemma read_digits_some (s : str) (a : Z) :
  Forall (fun c => is_digit c = true) s ->
  exists v, read_digits 10 (Some a) s = Some v.
Proof.
  induction 1 as [|c s Hc Hs IH] in a |- *; simpl; [eauto|].
  destruct (digit_value_10 c Hc) as [d ->]. apply IH.
Qed.

(** A non-empty string of decimal digits is read as a number. *)
Lemma parseInt_digits (s : str) :
  s <> [] -> Forall (fun c => is_digit c = true) s ->
  exists v, parseInt s = Some v.
Proof.
  intros Hne Hd. destruct s as [|c s]; [congruence|].
  inversion Hd as [|? ? Hc Hs]; subst.
  unfold parseInt, trimStart.
  rewrite (dropWhile_head _ _ _ (is_digit_not_space _ Hc)).
  assert (Hc' := Hc). unfold is_digit in Hc'.
  apply andb_true_iff in Hc' as [H1 H2].
  apply N.leb_le in H1. apply N.leb_le in H2.
  assert (E1 : read_sign (c :: s) = (1%Z, c :: s)).
  { unfold read_sign.
    destruct (N.eqb_spec c 45); [lia|]. destruct (N.eqb_spec c 43); [lia|].
    reflexivity. }
  rewrite E1.
  assert (E2 : read_radix (c :: s) = (10%Z, c :: s)).
  { unfold read_radix. destruct s as [|c2 s']; [reflexivity|].
    inversion Hs as [|? ? Hc2 _]; subst. unfold is_digit in Hc2.
    apply andb_true_iff in Hc2 as [H3 H4].
    apply N.leb_le in H3. apply N.leb_le in H4.
    destruct (N.eqb_spec c2 120); [lia|]. destruct (N.eqb_spec c2 88); [lia|].
    simpl. now rewrite andb_false_r. }
  rewrite E2. simpl read_digits.
  destruct (digit_value_10 c Hc) as [d ->].
  destruct (read_digits_some d Hs) as [v ->]. simpl. eauto.
Qed.

(** ** The patterns and their matches *)

Lemma span_run (f : N -> bool) (s run rest : str) :
  Regex.span f s = (run, rest) -> Forall (fun c => f c = true) run.
Proof.
  revert run rest. induction s as [|x s IH]; simpl; intros run rest.
  - intros [= <- _]. constructor.
  - destruct (f x) eqn:E.
    + destruct (Regex.span f s) as [run' rest'] eqn:E'.
      intros [= <- _]. constructor; [exact E|]. eapply IH; reflexivity.
    + intros [= <- _]. constructor.
Qed.

(** Group 1 of a match of the message pattern is a non-empty string of
    digits. *)
Lemma messageBlock_id (s g1 g2 g3 rest : str) :
  Regex.messageBlock s = Some ((g1, g2, g3), rest) ->
  g1 <> [] /\ Forall (fun c => is_digit c = true) g1.
Proof.
  unfold Regex.messageBlock.
  destruct (strip_prefix _ s) as [s1|]; [|discriminate].
  destruct (Regex.span is_digit s1) as [d s2] eqn:Ed.
  destruct d as [|c d]; [discriminate|].
  destruct (strip_prefix _ s2) as [s3|]; [|discriminate].
  destruct (Regex.span is_space s3) as [w s4].
  destruct (strip_prefix _ s4) as [s5|]; [|discriminate].
  destruct (Regex.until_char 62 s5) as [[t s6]|]; [|discriminate].
  destruct (Regex.lazy_until Regex.timeCell s6) as [[b [tm s7]]|]; [|discriminate].
  intros [= <- _ _ _]. split; [discriminate|]. eapply span_run; eassumption.
Qed.

Section DriverFacts.
Variable G : Type.
Variable here : str -> option (G * str).

Lemma match_at_index (pos : nat) (s : str) (m : Match G) (len : nat) :
  Regex.match_at here pos s = Some (m, len) ->
  index m = pos /\ exists rest, here s = Some (groups m, rest).
Proof.
  unfold Regex.match_at. destruct (here s) as [[g rest]|]; [|discriminate].
  intros [= <- _]. simpl. eauto.
Qed.

(** The matches of a global pattern come at increasing offsets. *)
Lemma exec_all_index (skip pos : nat) (s : str) :
  Forall (fun m => pos <= index m) (Regex.exec_all here skip pos s)
  /\ StronglySorted (fun a b => index a < index b)
                    (Regex.exec_all here skip pos s).
Proof.
  revert skip pos. induction s as [|c s IH]; intros skip pos; simpl.
  - split; constructor.
  - destruct skip as [|k].
    + destruct (Regex.match_at here pos (c :: s)) as [[m len]|] eqn:E.
      * destruct (IH (pred len) (S pos)) as [Hlo Hs].
        apply match_at_index in E as [Ei _].
        split.
        -- constructor; [lia|]. eapply Forall_impl; [|exact Hlo].
           simpl. intros; lia.
        -- constructor; [exact Hs|]. eapply Forall_impl; [|exact Hlo].
           simpl. intros; lia.
      * destruct (IH 0 (S pos)) as [Hlo Hs]. split; [|exact Hs].
        eapply Forall_impl; [|exact Hlo]. simpl. intros; lia.
    + destruct (IH k (S pos)) as [Hlo Hs]. split; [|exact Hs].
      eapply Forall_impl; [|exact Hlo]. simpl. intros; lia.
Qed.

(** What holds of every anchored match holds of every match found. *)
Lemma exec_all_groups (P : G -> Prop) :
  (forall s g rest, here s = Some (g, rest) -> P g) ->
  forall skip pos s,
    Forall (fun m => P (groups m)) (Regex.exec_all here skip pos s).
Proof.
  intros HP skip pos s. revert skip pos.
  induction s as [|c s IH]; intros skip pos; simpl; [constructor|].
  destruct skip as [|k]; [|apply IH].
  destruct (Regex.match_at here pos (c :: s)) as [[m len]|] eqn:E; [|apply IH].
  constructor; [|apply IH].
  apply match_at_index in E as [_ [rest E]]. eapply HP; eassumption.
Qed.
End DriverFacts.

Lemma messageMatchesOf_sorted (chatContent : str) :
  StronglySorted (fun a b => index a < index b) (messageMatchesOf chatContent).
Proof. apply exec_all_index. Qed.

Lemma dateMatchesOf_sorted (chatContent : str) :
  StronglySorted (fun a b => index a < index b) (dateMatchesOf chatContent).
Proof. apply exec_all_index. Qed.

Lemma messageMatchesOf_ids (chatContent : str) :
  Forall (fun b => exists v, parseInt (blockId b) = Some v)
         (messageMatchesOf chatContent).
Proof.
  unfold messageMatchesOf, Regex.matchAll.
  apply (exec_all_groups Regex.messageBlock
           (fun g => exists v, parseInt (fst (fst g)) = Some v)).
  intros s [[g1 g2] g3] rest E. simpl.
  apply messageBlock_id in E as [Hne Hd]. now apply parseInt_digits.
Qed.

(** ** The scan loop of fetchAllMessages *)

(** One turn of the loop over the message blocks. *)
Lemma scanMessages_cons (cc : str) (texts : Map) (dates : list (Match str))
      (cur : option str) (m : Match (str * str * str))
      (blocks : list (Match (str * str * str))) :
  scanMessages cc texts dates cur (m :: blocks) =
  let adv := advance cc (index m) dates cur in
  let rest := scanMessages cc texts (fst adv) (snd adv) blocks in
  if hasText texts m
  then (mkMessage (blockId m) (or_else (Map_get (blockId m) texts) [])
                  (trim (snd (groups m)))
                  (or_else (snd adv) unknown_date)
                  (if includes (snd (fst (groups m))) sent_marker
                   then sent else received) :: fst rest,
        snd rest)
  else (fst rest, WarnNoText (blockId m) :: snd rest).
Proof.
  simpl. unfold hasText, blockId.
  destruct (groups m) as [[i b] t]. simpl.
  destruct (advance cc (index m) dates cur) as [dates' cur']. simpl.
  destruct (scanMessages cc texts dates' cur' blocks) as [ms cs]. simpl.
  destruct (truthy (or_else (Map_get i texts) [])); reflexivity.
Qed.

(** The messages pushed are those of the blocks that join with a text, in
    document order; the other blocks leave a warning each. *)
Lemma scanMessages_ids (cc : str) (texts : Map)
      (blocks : list (Match (str * str * str))) :
  forall dates cur,
    map id (fst (scanMessages cc texts dates cur blocks))
    = map blockId (filter (hasText texts) blocks)
    /\ snd (scanMessages cc texts dates cur blocks)
       = map (fun b => WarnNoText (blockId b))
             (filter (fun b => negb (hasText texts b)) blocks).
Proof.
  induction blocks as [|m blocks IH]; intros dates cur; [now split|].
  rewrite scanMessages_cons. cbv zeta.
  destruct (IH (fst (advance cc (index m) dates cur))
               (snd (advance cc (index m) dates cur))) as [IH1 IH2].
  simpl filter. destruct (hasText texts m); simpl; split; congruence.
Qed.

Lemma pushedOf_ids (cc : str) :
  map id (pushedOf cc) = map blockId (keptBlocks cc).
Proof. apply scanMessages_ids. Qed.

(** What a successful call of [fetchAllMessages] went through. *)
Lemma fetchAllMessages_Ok (web : Web) (cookieString u : str)
      (messages : list Message) (console : list Console) :
  fetchAllMessages web cookieString u = (Ok messages, console) ->
  exists cc,
    chatContentOf (body (web cookieString u)) = Some cc
    /\ 50 <= length cc
    /\ messages = sort byId (pushedOf cc)
    /\ console = [LogFetching u; LogPageLoaded (length (body (web cookieString u)))]
                 ++ map (fun b => WarnNoText (blockId b)) (skippedBlocks cc)
                 ++ [LogFound (length messages)].
Proof.
  unfold fetchAllMessages, chatContentOf.
  destruct (redirectedToLogin (web cookieString u)); [discriminate|].
  destruct (Regex.exec Regex.chatDiv (body (web cookieString u)))
    as [cd|]; [|discriminate].
  destruct (Nat.ltb_spec (length (groups cd)) 50) as [|Hlen]; [discriminate|].
  destruct (scanMessages (groups cd) (messageTextsOf (groups cd))
              (dateMatchesOf (groups cd)) None (messageMatchesOf (groups cd)))
    as [ms ws] eqn:E.
  intros [= <- <-]. exists (groups cd). simpl. repeat split; trivial.
  - unfold pushedOf. now rewrite E.
  - unfold skippedBlocks.
    destruct (scanMessages_ids (groups cd) (messageTextsOf (groups cd))
                (messageMatchesOf (groups cd)) (dateMatchesOf (groups cd)) None)
      as [_ H2].
    rewrite E in H2. simpl in H2. now rewrite H2.
Qed.

(** ** Order of the returned messages *)

Lemma byId_numericId (a b : Message) :
  (exists v, parseInt (id a) = Some v) ->
  (exists v, parseInt (id b) = Some v) ->
  byId a b = (numericId a - numericId b)%Z.
Proof.
  intros [va Ea] [vb Eb]. unfold byId, numericId. now rewrite Ea, Eb.
Qed.

Lemma Forall_map_iff (A B : Type) (f : A -> B) (P : B -> Prop) (l : list A) :
  Forall P (map f l) <-> Forall (fun a => P (f a)) l.
Proof. apply Forall_map. Qed.

Lemma pushedOf_numeric (cc : str) :
  Forall (fun m => exists v, parseInt (id m) = Some v) (pushedOf cc).
Proof.
  apply (Forall_map_iff id (fun i => exists v, parseInt i = Some v)).
  rewrite pushedOf_ids. apply Forall_map_iff.
  unfold keptBlocks. apply Forall_forall. intros b Hb.
  apply filter_In in Hb as [Hb _].
  pose proof (messageMatchesOf_ids cc) as H.
  rewrite Forall_forall in H. now apply H.
Qed.

(** The returned messages are in ascending order of their numeric id. *)
Lemma fetchAllMessages_sorted (web : Web) (cookieString u : str)
      (messages : list Message) :
  fst (fetchAllMessages web cookieString u) = Ok messages ->
  StronglySorted (fun a b => (numericId a <= numericId b)%Z) messages.
Proof.
  destruct (fetchAllMessages web cookieString u) as [res console] eqn:E.
  simpl. intros ->. apply fetchAllMessages_Ok in E as (cc & _ & _ & -> & _).
  apply sort_sorted with (P := fun m => exists v, parseInt (id m) = Some v);
    [apply byId_numericId | apply pushedOf_numeric].
Qed.

(** C2, as amended: the messages [fetchAllMessages] returns (with ids that
    are safe integers) carry ids that [parseInt] reads as numbers and are
    in ascending order of that number, whatever the order of the blocks in
    the markup; they are the messages of the blocks that join with a text.
    The order is strictly ascending, and the ids are unique, when the
    numbers of those blocks are pairwise distinct (the scraper itself
    removes no duplicate). *)
Theorem fetchAllMessages_ascending (web : Web) (cookieString u : str)
        (messages : list Message) (console : list Console) (cc : str) :
  fetchAllMessages web cookieString u = (Ok messages, console) ->
  chatContentOf (body (web cookieString u)) = Some cc ->
  safeIds messages ->
  Forall (fun m => parseInt (id m) = Some (numericId m)) messages
  /\ StronglySorted (fun a b => (numericId a <= numericId b)%Z) messages
  /\ Permutation (map id messages) (map blockId (keptBlocks cc))
  /\ (NoDup (map blockNumber (keptBlocks cc)) ->
      StronglySorted (fun a b => (numericId a < numericId b)%Z) messages
      /\ NoDup (map id messages)).
Proof.
  intros Hf Hcc _.
  destruct (fetchAllMessages_Ok _ _ _ Hf) as (cc' & Hcc' & _ & Hm & _).
  assert (cc' = cc) as -> by congruence. clear Hcc'. subst messages.
  pose proof (pushedOf_numeric cc) as Hnum.
  pose proof (sort_perm byId (pushedOf cc)) as Hperm.
  assert (Hsorted : StronglySorted (fun a b => (numericId a <= numericId b)%Z)
                                   (sort byId (pushedOf cc))).
  { apply (@fetchAllMessages_sorted web cookieString u). now rewrite Hf. }
  assert (Hids : Permutation (map id (sort byId (pushedOf cc)))
                             (map blockId (keptBlocks cc))).
  { rewrite <- pushedOf_ids. now apply Permutation_map. }
  repeat split.
  - rewrite Hperm. eapply Forall_impl; [|exact Hnum].
    intros m [v E]. unfold numericId. now rewrite E.
  - exact Hsorted.
  - exact Hids.
  - apply StronglySorted_strict; [exact Hsorted|].
    eapply Permutation_NoDup; [|exact H].
    replace (map blockNumber (keptBlocks cc))
      with (map (fun i => match parseInt i with Some z => z | None => 0%Z end)
                (map blockId (keptBlocks cc))) by now rewrite map_map.
    replace (map numericId (sort byId (pushedOf cc)))
      with (map (fun i => match parseInt i with Some z => z | None => 0%Z end)
                (map id (sort byId (pushedOf cc)))) by now rewrite map_map.
    apply Permutation_map. now symmetry.
  - assert (Hnd : NoDup (map (fun i => match parseInt i with
                                       | Some z => z | None => 0%Z end)
                             (map id (sort byId (pushedOf cc))))).
    { eapply Permutation_NoDup.
      - apply Permutation_map. symmetry. exact Hids.
      - rewrite map_map. exact H. }
    eapply NoDup_map_inv. exact Hnd.
Qed.

(** The theorem at scenario A: blocks 5, 3, 9 come back as 3, 5, 9. *)
Lemma fetchAllMessages_ascending_witness :
  fetchAllMessages (Sample.web (Sample.page Sample.chatA)) [] Sample.threadUrl
  = (Ok Sample.messagesA, Sample.consoleA)
  /\ chatContentOf (body (Sample.web (Sample.page Sample.chatA) [] Sample.threadUrl))
     = Some Sample.chatA
  /\ safeIds Sample.messagesA
  /\ map id Sample.messagesA = [lit "3"; lit "5"; lit "9"]
  /\ StronglySorted (fun a b => (numericId a <= numericId b)%Z) Sample.messagesA.
Proof.
  assert (H1 : fetchAllMessages (Sample.web (Sample.page Sample.chatA)) []
                 Sample.threadUrl = (Ok Sample.messagesA, Sample.consoleA))
    by (vm_compute; reflexivity).
  assert (H2 : chatContentOf
                 (body (Sample.web (Sample.page Sample.chatA) [] Sample.threadUrl))
               = Some Sample.chatA) by (vm_compute; reflexivity).
  assert (H3 : safeIds Sample.messagesA)
    by (repeat constructor; vm_compute; reflexivity).
  split; [exact H1|]. split; [exact H2|]. split; [exact H3|].
  split; [vm_compute; reflexivity|].
  exact (proj1 (proj2 (fetchAllMessages_ascending _ _ _ H1 H2 H3))).
Defined.

(** C2 as stated fails: on a page where two blocks carry the anchor 7, the
    call succeeds and returns two messages with the id 7, so the result is
    neither strictly ascending nor free of duplicate ids. *)
Lemma fetchAllMessages_not_strictly_ascending :
  exists messages console,
    fetchAllMessages (Sample.web (Sample.page Sample.chatTwins)) []
                     Sample.threadUrl = (Ok messages, console)
    /\ map id messages = [lit "7"; lit "7"]
    /\ safeIds messages
    /\ ~ StronglySorted (fun a b => (numericId a < numericId b)%Z) messages
    /\ ~ NoDup (map id messages).
Proof.
  eexists. eexists. split; [vm_compute; reflexivity|].
  split; [reflexivity|].
  split; [repeat constructor; vm_compute; reflexivity|]. split.
  - intros H. inversion H as [|? ? _ Hall]; subst.
    inversion Hall as [|? ? Hlt _]; subst. vm_compute in Hlt. discriminate.
  - intros H. inversion H as [|? ? Hnin _]; subst. apply Hnin. now left.
Qed.

(** ** The date pointer *)

Lemma labelAfter_app (l1 l2 : list (Match str)) (cur : option str) :
  labelAfter (l1 ++ l2) cur = labelAfter l2 (labelAfter l1 cur).
Proof. apply fold_left_app. Qed.

Lemma filter_none (A : Type) (f : A -> bool) (l : list A) :
  Forall (fun a => f a = false) l -> filter f l = [].
Proof.
  induction 1 as [|a l Ha _ IH]; simpl; [reflexivity|]. now rewrite Ha.
Qed.

Lemma filter_all (A : Type) (f : A -> bool) (l : list A) :
  Forall (fun a => f a = true) l -> filter f l = l.
Proof.
  induction 1 as [|a l Ha _ IH]; simpl; [reflexivity|]. now rewrite Ha, IH.
Qed.

Lemma StronglySorted_filter (A : Type) (R : A -> A -> Prop) (f : A -> bool)
      (l : list A) :
  StronglySorted R l -> StronglySorted R (filter f l).
Proof.
  induction 1 as [|a l Hs IH Ha]; simpl; [constructor|].
  destruct (f a); [|exact IH]. constructor; [exact IH|].
  rewrite Forall_forall in *. intros x Hx. apply Ha.
  now apply filter_In in Hx.
Qed.

Lemma StronglySorted_last (A : Type) (R : A -> A -> Prop) (l : list A) (x : A) :
  StronglySorted R (l ++ [x]) -> Forall (fun y => R y x) l.
Proof.
  induction l as [|a l IH]; simpl; intros H; [constructor|].
  inversion H as [|? ? Hs Ha]; subst. constructor; [|now apply IH].
  rewrite Forall_forall in Ha. apply Ha, in_or_app. right. now left.
Qed.

Section DatePointer.
Variable cc : str.

Let placed (d : Match str) : Prop :=
  indexOf cc (whole d) = Z.of_nat (index d).

(** On date markers in document order whose markup occurs first at their
    own offset, the inner loop passes exactly the markers before the
    block. *)
Lemma advance_filter (i : nat) (dates : list (Match str))
      (cur : option str) :
  StronglySorted (fun a b => index a < index b) dates ->
  Forall placed dates ->
  advance cc i dates cur
  = (filter (from i) dates, labelAfter (filter (before i) dates) cur).
Proof.
  intros Hs. revert cur.
  induction Hs as [|d dates Hs IH Hd]; intros cur Hp; [reflexivity|].
  inversion Hp as [|? ? Hpd Hp']; subst. cbn [advance filter].
  unfold placed in Hpd. rewrite Hpd.
  destruct (Z.ltb_spec (Z.of_nat (index d)) (Z.of_nat i)) as [Hlt|Hge].
  - rewrite IH by assumption.
    assert (Eb : before i d = true) by (apply Nat.ltb_lt; lia).
    assert (Ef : from i d = false) by (apply Nat.leb_gt; lia).
    rewrite Eb, Ef. reflexivity.
  - assert (Eb : before i d = false) by (apply Nat.ltb_ge; lia).
    assert (Ef : from i d = true) by (apply Nat.leb_le; lia).
    rewrite Eb, Ef.
    rewrite filter_all, filter_none; [reflexivity| |].
    + eapply Forall_impl; [|exact Hd]. cbv beta. intros a Ha.
      apply Nat.ltb_ge. lia.
    + eapply Forall_impl; [|exact Hd]. cbv beta. intros a Ha.
      apply Nat.leb_le. lia.
Qed.

Lemma before_split (all : list (Match str)) (j i : nat) :
  StronglySorted (fun a b => index a < index b) all -> j <= i ->
  filter (before i) all
  = filter (before j) all ++ filter (before i) (filter (from j) all).
Proof.
  intros Hs Hji. induction Hs as [|d all Hs IH Hd]; [reflexivity|].
  cbn [filter].
  change (before j d) with (index d <? j).
  change (from j d) with (j <=? index d).
  destruct (Nat.ltb_spec (index d) j) as [Ej|Ej];
    destruct (Nat.leb_spec j (index d)) as [Ef|Ef]; try lia.
  - assert (Ei : before i d = true) by (apply Nat.ltb_lt; lia).
    rewrite Ei, IH. reflexivity.
  - assert (E : filter (before j) all = []).
    { apply filter_none. eapply Forall_impl; [|exact Hd]. cbv beta.
      intros a Ha. apply Nat.ltb_ge. lia. }
    cbn [filter]. rewrite IH, E.
    destruct (before i d); reflexivity.
Qed.

Lemma from_from (all : list (Match str)) (j i : nat) :
  j <= i -> filter (from i) (filter (from j) all) = filter (from i) all.
Proof.
  intros Hji. induction all as [|d all IH]; [reflexivity|]. cbn [filter].
  destruct (from j d) eqn:Ej; cbn [filter]; rewrite IH; [reflexivity|].
  assert (Ei : from i d = false).
  { unfold from in *. apply Nat.leb_gt. apply Nat.leb_gt in Ej. lia. }
  now rewrite Ei.
Qed.

(** The label the loop holds for each message is the label after all the
    markers before its block. *)
Lemma scanMessages_dates (texts : Map) (all : list (Match str))
      (blocks : list (Match (str * str * str))) :
  StronglySorted (fun a b => index a < index b) all ->
  Forall placed all ->
  StronglySorted (fun a b => index a < index b) blocks ->
  forall j,
    Forall (fun b => j <= index b) blocks ->
    Forall2 (fun b m =>
               id m = blockId b /\
               date m = or_else (labelAfter (filter (before (index b)) all) None)
                                unknown_date)
            (filter (hasText texts) blocks)
            (fst (scanMessages cc texts (filter (from j) all)
                               (labelAfter (filter (before j) all) None)
                               blocks)).
Proof.
  intros Hall Hplaced Hblocks.
  induction Hblocks as [|b blocks Hs IH Hb]; intros j Hj; [constructor|].
  inversion Hj as [|? ? Hjb Hj']; subst.
  rewrite scanMessages_cons. cbv zeta.
  rewrite advance_filter.
  2: now apply StronglySorted_filter.
  2: { apply Forall_forall. intros d Hd. apply filter_In in Hd as [Hd _].
       rewrite Forall_forall in Hplaced. now apply Hplaced. }
  cbn [fst snd].
  rewrite from_from by exact Hjb.
  rewrite <- labelAfter_app, <- before_split by assumption.
  assert (Hnext : Forall2 (fun b0 m =>
             id m = blockId b0 /\
             date m = or_else (labelAfter (filter (before (index b0)) all) None)
                              unknown_date)
            (filter (hasText texts) blocks)
            (fst (scanMessages cc texts (filter (from (index b)) all)
                    (labelAfter (filter (before (index b)) all) None) blocks))).
  { apply IH. eapply Forall_impl; [|exact Hb]. simpl. intros; lia. }
  simpl filter. destruct (hasText texts b); [|exact Hnext].
  constructor; [|exact Hnext]. now split.
Qed.

(** The label after the markers before an offset is the text of the
    nearest marker before that offset. *)
Lemma labelAfter_nearest (all : list (Match str)) (i : nat) :
  StronglySorted (fun a b => index a < index b) all ->
  match labelAfter (filter (before i) all) None with
  | Some label => exists d, nearestMarker all i d /\ label = trim (groups d)
  | None => noMarkerBefore all i
  end.
Proof.
  intros Hs.
  pose proof (StronglySorted_filter (before i) Hs) as Hsf.
  assert (Hin : forall d, In d (filter (before i) all)
                          <-> In d all /\ index d < i).
  { intros d. rewrite filter_In. unfold before.
    now rewrite Nat.ltb_lt. }
  revert Hsf Hin. generalize (filter (before i) all). intros F.
  destruct F as [|x l _] using rev_ind; intros Hsf Hin.
  - simpl. intros d Hd. destruct (Nat.le_gt_cases i (index d)); [assumption|].
    exfalso. apply (proj2 (Hin d)). now split.
  - rewrite labelAfter_app. simpl.
    exists x. split; [|reflexivity].
    destruct (proj1 (Hin x)) as [Hx1 Hx2]; [apply in_or_app; right; now left|].
    repeat split; trivial.
    intros d' Hd' Hlt.
    assert (Hd'' : In d' (l ++ [x])) by (apply Hin; now split).
    apply in_app_or in Hd'' as [Hl|[->|[]]]; [|lia].
    apply StronglySorted_last in Hsf. rewrite Forall_forall in Hsf.
    specialize (Hsf d' Hl). simpl in Hsf. lia.
Qed.
End DatePointer.

(** Where the markup of every date marker occurs first at the marker's own
    offset in the chat region, the dates are those of the specification:
    on such a page where [fetchAllMessages] succeeds, each returned message
    comes from a block that joins with a text, and carries the trimmed date
    text of the nearest date marker whose offset precedes the offset of its
    block; the default label Unknown date is recorded when no marker
    precedes the block, and when the nearest preceding marker has a blank
    text.  The returned messages are the messages pushed for those blocks,
    reordered. *)
Theorem fetchAllMessages_dates (web : Web) (cookieString u : str)
        (messages : list Message) (console : list Console) (cc : str) :
  fetchAllMessages web cookieString u = (Ok messages, console) ->
  chatContentOf (body (web cookieString u)) = Some cc ->
  markersFirstOccur cc ->
  Permutation messages (pushedOf cc)
  /\ Forall2 (fun b m =>
                id m = blockId b /\
                recordedDate (dateMatchesOf cc) (index b) (date m))
             (keptBlocks cc) (pushedOf cc).
Proof.
  intros Hf Hcc Hplaced.
  apply fetchAllMessages_Ok in Hf as (cc' & Hcc' & _ & -> & _).
  assert (cc' = cc) as -> by congruence. split; [apply sort_perm|].
  pose proof (dateMatchesOf_sorted cc) as Hds.
  pose proof (@scanMessages_dates cc (messageTextsOf cc) _ _ Hds Hplaced
                (messageMatchesOf_sorted cc) 0) as H.
  rewrite (@filter_all _ (from 0)) in H by (apply Forall_forall; reflexivity).
  rewrite (@filter_none _ (before 0)) in H by (apply Forall_forall; reflexivity).
  specialize (H ltac:(apply Forall_forall; intros; lia)).
  unfold keptBlocks, pushedOf.
  eapply Forall2_impl; [|exact H].
  intros b m [Hid Hdate]. split; [exact Hid|]. rewrite Hdate.
  pose proof (labelAfter_nearest (index b) Hds) as Hn.
  destruct (labelAfter (filter (before (index b)) (dateMatchesOf cc)) None)
    as [label|].
  - destruct Hn as (d & Hd & ->). left. now exists d.
  - right. now split.
Qed.

Ltac evaluate_in t H :=
  let v := eval vm_compute in t in
  replace t with v in H by (vm_compute; reflexivity).

(** The theorem at scenario A. *)
Lemma fetchAllMessages_dates_witness :
  fetchAllMessages (Sample.web (Sample.page Sample.chatA)) [] Sample.threadUrl
  = (Ok Sample.messagesA, Sample.consoleA)
  /\ chatContentOf (body (Sample.web (Sample.page Sample.chatA) [] Sample.threadUrl))
     = Some Sample.chatA
  /\ markersFirstOccur Sample.chatA
  /\ map date (pushedOf Sample.chatA)
     = [lit "01.02.2026"; lit "02.02.2026"; lit "02.02.2026"]
  /\ Forall2 (fun b m =>
                id m = blockId b /\
                recordedDate (dateMatchesOf Sample.chatA) (index b) (date m))
             (keptBlocks Sample.chatA) (pushedOf Sample.chatA).
Proof.
  assert (H1 : fetchAllMessages (Sample.web (Sample.page Sample.chatA)) []
                 Sample.threadUrl = (Ok Sample.messagesA, Sample.consoleA))
    by (vm_compute; reflexivity).
  assert (H2 : chatContentOf
                 (body (Sample.web (Sample.page Sample.chatA) [] Sample.threadUrl))
               = Some Sample.chatA) by (vm_compute; reflexivity).
  assert (H3 : markersFirstOccur Sample.chatA).
  { unfold markersFirstOccur. vm_compute. repeat constructor. }
  split; [exact H1|]. split; [exact H2|]. split; [exact H3|].
  split; [vm_compute; reflexivity|].
  exact (proj2 (fetchAllMessages_dates _ _ _ H1 H2 H3)).
Defined.

(** The edge case of the blank date marker: on a page whose only date
    header holds one space, the header precedes the block of message 1, its
    date text is empty, and the message is given the label Unknown date. *)
Lemma fetchAllMessages_blank_date_marker :
  exists messages console,
    fetchAllMessages (Sample.web (Sample.page Sample.chatBlankDate)) []
                     Sample.threadUrl = (Ok messages, console)
    /\ chatContentOf (body (Sample.web (Sample.page Sample.chatBlankDate) []
                                       Sample.threadUrl))
       = Some Sample.chatBlankDate
    /\ markersFirstOccur Sample.chatBlankDate
    /\ map (fun d => trim (groups d)) (dateMatchesOf Sample.chatBlankDate)
       = [[]]
    /\ map date messages = [unknown_date].
Proof.
  eexists. eexists. split; [vm_compute; reflexivity|].
  split; [vm_compute; reflexivity|].
  split; [unfold markersFirstOccur; vm_compute; repeat constructor|].
  split; reflexivity.
Qed.

(** C3: the claim fails on the code, by a slip of the date pointer.  The
    pointer locates a date marker with [indexOf] on its markup (line 126)
    and not with the offset of its match, so a header whose markup already
    occurred counts as passed too early.  On the page with the header of
    1 February (offset 0), block 1 (offset 30), the header of 2 February
    (offset 175), block 2 (offset 205), the header of 1 February again
    (offset 353) and block 3 (offset 383), [fetchAllMessages] succeeds; the
    nearest marker before block 2 is the header of 2 February, and the
    message of block 2 is dated 1 February: the dates are not those of the
    claim. *)
Theorem fetchAllMessages_repeated_date_header :
  let cc := Sample.chatRepeatedDate in
  let web := Sample.web (Sample.page cc) in
  exists messages console,
    fetchAllMessages web [] Sample.threadUrl = (Ok messages, console)
    /\ chatContentOf (body (web [] Sample.threadUrl)) = Some cc
    /\ map (fun d => (index d, trim (groups d))) (dateMatchesOf cc)
       = [(0, lit "1. feb"); (175, lit "2. feb"); (353, lit "1. feb")]
    /\ map (fun d => indexOf cc (whole d)) (dateMatchesOf cc)
       = [0%Z; 175%Z; 0%Z]
    /\ map (fun b => (blockId b, index b)) (keptBlocks cc)
       = [(lit "1", 30); (lit "2", 205); (lit "3", 383)]
    /\ map (fun m => (id m, date m)) messages
       = [(lit "1", lit "1. feb"); (lit "2", lit "1. feb");
          (lit "3", lit "1. feb")]
    /\ (exists b d,
          In b (keptBlocks cc) /\ blockId b = lit "2"
          /\ nearestMarker (dateMatchesOf cc) (index b) d
          /\ trim (groups d) = lit "2. feb")
    /\ ~ Forall2 (fun b m =>
                    id m = blockId b
                    /\ recordedDate (dateMatchesOf cc) (index b) (date m))
                 (keptBlocks cc) (pushedOf cc)
    /\ ~ markersFirstOccur cc.
Proof.
  intros cc web. eexists. eexists.
  split; [vm_compute; reflexivity|]. split; [vm_compute; reflexivity|].
  split; [vm_compute; reflexivity|]. split; [vm_compute; reflexivity|].
  split; [vm_compute; reflexivity|]. split; [vm_compute; reflexivity|].
  split; [|split].
  - exists (nth 1 (keptBlocks cc) (mkMatch 0 [] ([], [], []))),
           (nth 1 (dateMatchesOf cc) (mkMatch 0 [] [])).
    split; [vm_compute; right; left; reflexivity|].
    split; [vm_compute; reflexivity|].
    split; [|vm_compute; reflexivity].
    split; [vm_compute; right; left; reflexivity|].
    split; [vm_compute; lia|].
    intros d' Hin Hlt.
    evaluate_in (dateMatchesOf cc) Hin.
    destruct Hin as [<-|[<-|[<-|[]]]]; vm_compute in Hlt |- *; lia.
  - intros H.
    evaluate_in (keptBlocks cc) H. evaluate_in (pushedOf cc) H.
    inversion H as [|b1 m1 ? ? _ H1]; subst.
    inversion H1 as [|b2 m2 ? ? [_ Hd] _]; subst. cbn [index date] in Hd.
    destruct Hd as [(d & (Hin & Hlt & Hmax) & Hlabel)|[Hnone _]].
    + evaluate_in (dateMatchesOf cc) Hin.
      evaluate_in (dateMatchesOf cc) Hmax.
      destruct Hin as [<-|[<-|[<-|[]]]].
      * specialize (Hmax _ (or_intror (or_introl eq_refl))).
        cbn [index] in Hmax. lia.
      * vm_compute in Hlabel. discriminate.
      * cbn [index] in Hlt. lia.
    + evaluate_in (dateMatchesOf cc) Hnone.
      specialize (Hnone _ (or_introl eq_refl)). cbn [index] in Hnone. lia.
  - unfold markersFirstOccur. intros H.
    evaluate_in (dateMatchesOf cc) H.
    inversion H as [|? ? _ H1]; subst. inversion H1 as [|? ? _ H2]; subst.
    inversion H2 as [|? ? H3 _]; subst. vm_compute in H3. discriminate.
Qed.

(** ** Blocks without a text *)

Lemma hasText_false (texts : Map) (b : Match (str * str * str)) :
  hasText texts b = false <->
  Map_get (blockId b) texts = None \/ Map_get (blockId b) texts = Some [].
Proof.
  unfold hasText. destruct (Map_get (blockId b) texts) as [[|c t]|]; simpl;
    split; auto; try discriminate; intros [H|H]; discriminate.
Qed.

(** C9: once the chat region is found and long enough, [fetchAllMessages]
    returns (it has no failure left): every block whose id has no entry in
    the text lookup, or an empty one, is passed over with one warning on
    the console, in document order, and no returned message carries the id
    of such a block; the returned messages are those of the other blocks. *)
Theorem fetchAllMessages_skips_blocks_without_text
        (web : Web) (cookieString u : str) (cc : str) :
  redirectedToLogin (web cookieString u) = false ->
  chatContentOf (body (web cookieString u)) = Some cc ->
  50 <= length cc ->
  exists messages,
    fetchAllMessages web cookieString u
    = (Ok messages,
       [LogFetching u; LogPageLoaded (length (body (web cookieString u)))]
       ++ map (fun b => WarnNoText (blockId b)) (skippedBlocks cc)
       ++ [LogFound (length messages)])
    /\ Permutation (map id messages) (map blockId (keptBlocks cc))
    /\ forall b,
         In b (messageMatchesOf cc) ->
         Map_get (blockId b) (messageTextsOf cc) = None
         \/ Map_get (blockId b) (messageTextsOf cc) = Some [] ->
         In b (skippedBlocks cc) /\ ~ In (blockId b) (map id messages).
Proof.
  intros Hurl Hcc Hlen.
  unfold chatContentOf in Hcc.
  destruct (Regex.exec Regex.chatDiv (body (web cookieString u)))
    as [cd|] eqn:Ecd; [|discriminate].
  injection Hcc as Hcc.
  destruct (scanMessages cc (messageTextsOf cc) (dateMatchesOf cc) None
              (messageMatchesOf cc)) as [ms ws] eqn:E.
  destruct (scanMessages_ids cc (messageTextsOf cc) (messageMatchesOf cc)
              (dateMatchesOf cc) None) as [Hids Hws].
  rewrite E in Hids, Hws. cbn [fst snd] in Hids, Hws.
  assert (Hperm : Permutation (map id (sort byId ms))
                              (map blockId (keptBlocks cc))).
  { unfold keptBlocks. rewrite <- Hids. apply Permutation_map, sort_perm. }
  exists (sort byId ms). split; [|split].
  - unfold fetchAllMessages. rewrite Hurl, Ecd, Hcc.
    destruct (Nat.ltb_spec (length cc) 50); [lia|].
    rewrite E. unfold skippedBlocks. now rewrite Hws.
  - exact Hperm.
  - intros b Hb Hno. apply hasText_false in Hno. split.
    + unfold skippedBlocks. apply filter_In. split; [exact Hb|].
      now rewrite Hno.
    + intros Hin. eapply Permutation_in in Hin; [|exact Hperm].
      apply in_map_iff in Hin as (b' & Hid & Hb').
      apply filter_In in Hb' as [_ Hb'].
      unfold hasText in Hb', Hno. rewrite Hid, Hno in Hb'. discriminate.
Qed.

(** The theorem on a page where block 2 has no script and block 3 has a
    script with an empty text: message 1 alone is returned, with a warning
    for 2 and a warning for 3. *)
Lemma fetchAllMessages_skips_blocks_without_text_witness :
  redirectedToLogin (Sample.web (Sample.page Sample.chatNoText) [] Sample.threadUrl)
  = false
  /\ chatContentOf (body (Sample.web (Sample.page Sample.chatNoText) []
                                     Sample.threadUrl))
     = Some Sample.chatNoText
  /\ 50 <= length Sample.chatNoText
  /\ map blockId (skippedBlocks Sample.chatNoText) = [lit "2"; lit "3"]
  /\ exists messages,
       fetchAllMessages (Sample.web (Sample.page Sample.chatNoText)) []
                        Sample.threadUrl
       = (Ok messages,
          [LogFetching Sample.threadUrl;
           LogPageLoaded (length (Sample.page Sample.chatNoText))]
          ++ map (fun b => WarnNoText (blockId b))
                 (skippedBlocks Sample.chatNoText)
          ++ [LogFound (length messages)])
       /\ Permutation (map id messages)
                      (map blockId (keptBlocks Sample.chatNoText)).
Proof.
  assert (H1 : redirectedToLogin
                 (Sample.web (Sample.page Sample.chatNoText) [] Sample.threadUrl)
               = false) by (vm_compute; reflexivity).
  assert (H2 : chatContentOf
                 (body (Sample.web (Sample.page Sample.chatNoText) []
                                   Sample.threadUrl))
               = Some Sample.chatNoText) by (vm_compute; reflexivity).
  assert (H3 : 50 <= length Sample.chatNoText)
    by (apply Nat.leb_le; vm_compute; reflexivity).
  split; [exact H1|]. split; [exact H2|]. split; [exact H3|].
  split; [vm_compute; reflexivity|].
  destruct (fetchAllMessages_skips_blocks_without_text _ _ _ H1 H2 H3)
    as (messages & Hrun & Hperm & _).
  exists messages. split; [exact Hrun|exact Hperm].
Defined.

(** ** The record store *)

Lemma pdFetch_answered (req : Request) (r : Remote) :
  quota r = None -> pdFetch req r = (Ok (answer req r), after req r).
Proof.
  intros Hq. unfold pdFetch, answer, after, logged. rewrite Hq.
  now destruct (serve req _).
Qed.

Lemma after_quota (req : Request) (r : Remote) : quota (after req r) = quota r.
Proof. now destruct req. Qed.

Lemma after_searchHit (req : Request) (r : Remote) :
  searchHit (after req r) = searchHit r.
Proof. now destruct req. Qed.

Lemma after_dealFields (req : Request) (r : Remote) :
  dealFields (after req r) = dealFields r.
Proof. now destruct req. Qed.

Lemma after_requests (req : Request) (r : Remote) :
  requests (after req r) = requests r ++ [req].
Proof. now destruct req. Qed.

Lemma afterAll_quota (reqs : list Request) (r : Remote) :
  quota (afterAll reqs r) = quota r.
Proof.
  revert r. induction reqs as [|q reqs IH]; intros r; simpl; [reflexivity|].
  now rewrite IH, after_quota.
Qed.

Lemma afterAll_dealFields (reqs : list Request) (r : Remote) :
  dealFields (afterAll reqs r) = dealFields r.
Proof.
  revert r. induction reqs as [|q reqs IH]; intros r; simpl; [reflexivity|].
  now rewrite IH, after_dealFields.
Qed.

Lemma afterAll_searchHit (reqs : list Request) (r : Remote) :
  searchHit (afterAll reqs r) = searchHit r.
Proof.
  revert r. induction reqs as [|q reqs IH]; intros r; simpl; [reflexivity|].
  now rewrite IH, after_searchHit.
Qed.

Lemma afterAll_requests (reqs : list Request) (r : Remote) :
  requests (afterAll reqs r) = requests r ++ reqs.
Proof.
  revert r. induction reqs as [|q reqs IH]; intros r; simpl.
  - now rewrite app_nil_r.
  - now rewrite IH, after_requests, <- app_assoc.
Qed.

Lemma afterAll_app (l1 l2 : list Request) (r : Remote) :
  afterAll (l1 ++ l2) r = afterAll l2 (afterAll l1 r).
Proof. apply fold_left_app. Qed.

Lemma after_reading (req : Request) (r : Remote) :
  reading req ->
  persons (after req r) = persons r /\ deals (after req r) = deals r
  /\ notes (after req r) = notes r /\ nextId (after req r) = nextId r.
Proof. destruct req; simpl; intros []; repeat split. Qed.

Lemma afterAll_reading (reqs : list Request) (r : Remote) :
  Forall reading reqs ->
  persons (afterAll reqs r) = persons r /\ deals (afterAll reqs r) = deals r
  /\ notes (afterAll reqs r) = notes r /\ nextId (afterAll reqs r) = nextId r.
Proof.
  intros H. revert r. induction H as [|q reqs Hq _ IH]; intros r; simpl.
  - repeat split.
  - destruct (IH (after q r)) as (E1 & E2 & E3 & E4).
    destruct (@after_reading q r Hq) as (F1 & F2 & F3 & F4).
    repeat split; congruence.
Qed.

(** Posting notes appends them, numbered from the next fresh id on. *)
Lemma afterAll_PostNote (dealId : Z) (contents : list str) (r : Remote) :
  let r' := afterAll (map (PostNote dealId) contents) r in
  persons r' = persons r /\ deals r' = deals r
  /\ notes r' = notes r ++ notesPosted (nextId r) dealId contents
  /\ nextId r' = (nextId r + Z.of_nat (length contents))%Z.
Proof.
  revert r. induction contents as [|c contents IH]; intros r; simpl.
  - rewrite app_nil_r, Z.add_0_r. repeat split.
  - destruct (IH (after (PostNote dealId c) r)) as (E1 & E2 & E3 & E4).
    simpl in *. rewrite E1, E2, E3, E4. repeat split.
    + now rewrite <- app_assoc.
    + lia.
Qed.

Lemma notesOf_same_notes (r r' : Remote) (dealId : Z) :
  notes r' = notes r -> notesOf r' dealId = notesOf r dealId.
Proof. unfold notesOf. now intros ->. Qed.

Lemma dealsOf_same_deals (r r' : Remote) (personId : Z) :
  deals r' = deals r -> dealsOf r' personId = dealsOf r personId.
Proof. unfold dealsOf. now intros ->. Qed.

Lemma searchOf_same_persons (r r' : Remote) (term : str) :
  persons r' = persons r -> searchHit r' = searchHit r ->
  searchOf r' term = searchOf r term.
Proof. unfold searchOf. now intros -> ->. Qed.

Lemma notesPosted_filter_same (next dealId : Z) (contents : list str) :
  filter (fun n => (note_deal_id n =? dealId)%Z)
         (notesPosted next dealId contents)
  = notesPosted next dealId contents.
Proof.
  revert next. induction contents as [|c contents IH]; intros next; simpl;
    [reflexivity|]. now rewrite Z.eqb_refl, IH.
Qed.

Lemma notesPosted_filter_other (next dealId other : Z) (contents : list str) :
  other <> dealId ->
  filter (fun n => (note_deal_id n =? other)%Z)
         (notesPosted next dealId contents) = [].
Proof.
  intros Hne. revert next.
  induction contents as [|c contents IH]; intros next; simpl; [reflexivity|].
  destruct (Z.eqb_spec dealId other); [congruence|]. apply IH.
Qed.

(** ** The loops of main *)

Lemma bind_Ok (A B : Type) (m : M A) (k : A -> M B) (r r' : Remote) (a : A) :
  m r = (Ok a, r') -> bind m k r = k a r'.
Proof. unfold bind. now intros ->. Qed.

Ltac answered :=
  repeat rewrite ?after_quota, ?afterAll_quota; assumption.

Ltac run_with lemma :=
  erewrite bind_Ok by (apply lemma; answered); cbv beta.

Lemma addNote_answered (dealId : Z) (content : str) (r : Remote) :
  quota r = None ->
  addNote dealId content r
  = (Ok (nextId r), after (PostNote dealId content) r).
Proof. intros Hq. unfold addNote. run_with pdFetch_answered. reflexivity. Qed.

Lemma addAllNotes_answered (dealId : Z) (messages : list Message) :
  forall (n : nat) (r : Remote),
    quota r = None ->
    addAllNotes dealId messages n r
    = (Ok (n + length messages),
       afterAll (map (fun m => PostNote dealId (formatNoteHtml m)) messages) r).
Proof.
  induction messages as [|m messages IH]; intros n r Hq; simpl.
  - now rewrite Nat.add_0_r.
  - run_with addNote_answered.
    rewrite IH by answered. f_equal. f_equal. lia.
Qed.

Lemma addMissingNotes_answered (dealId : Z) (existingNotes : list Note)
      (messages : list Message) :
  forall (n : nat) (r : Remote),
    quota r = None ->
    addMissingNotes dealId existingNotes messages n r
    = (Ok (n + length (missingFrom existingNotes messages)),
       afterAll (map (fun m => PostNote dealId (formatNoteHtml m))
                     (missingFrom existingNotes messages)) r).
Proof.
  induction messages as [|m messages IH]; intros n r Hq; simpl.
  - now rewrite Nat.add_0_r.
  - destruct (someNoteIncludes existingNotes (text m)); simpl.
    + now apply IH.
    + run_with addNote_answered.
      rewrite IH by answered. f_equal. f_equal. lia.
Qed.

Lemma getNotesForDeal_answered (dealId : Z) (r : Remote) :
  quota r = None ->
  getNotesForDeal dealId r = (Ok (notesOf r dealId), after (GetNotes dealId) r).
Proof.
  intros Hq. unfold getNotesForDeal. run_with pdFetch_answered. reflexivity.
Qed.

Lemma getDealsForPerson_answered (personId : Z) (r : Remote) :
  quota r = None ->
  getDealsForPerson personId r
  = (Ok (dealsOf r personId), after (GetPersonDeals personId) r).
Proof.
  intros Hq. unfold getDealsForPerson. run_with pdFetch_answered. reflexivity.
Qed.

Lemma getDealFieldKeys_answered (r : Remote) :
  quota r = None ->
  getDealFieldKeys r
  = (Ok (byId_get SOURCE_CHANNEL_FIELD_ID (dealFields r),
         byId_get SOURCE_COMPANY_FIELD_ID (dealFields r)),
     after GetDealFields r).
Proof.
  intros Hq. unfold getDealFieldKeys. run_with pdFetch_answered. reflexivity.
Qed.

(** The deals either hold no owner of the text, or split at the first
    one. *)
Lemma first_owner (r : Remote) (t : str) (ds : list Deal) :
  Forall (fun d => dealIncludes r t d = false) ds
  \/ exists pre d post,
       ds = pre ++ d :: post
       /\ Forall (fun d' => dealIncludes r t d' = false) pre
       /\ dealIncludes r t d = true.
Proof.
  induction ds as [|d ds IH]; [left; constructor|].
  destruct (dealIncludes r t d) eqn:E.
  - right. exists [], d, ds. repeat split; [constructor|exact E].
  - destruct IH as [IH|(pre & d' & post & -> & Hpre & Hd')].
    + left. now constructor.
    + right. exists (d :: pre), d', post. repeat split; trivial.
      now constructor.
Qed.

(** The loop over the deals when none of them owns the thread: the notes
    of every deal are fetched, in listing order. *)
Lemma scanDeals_none (first : Message) (messages : list Message)
      (ds : list Deal) :
  forall (r0 r : Remote),
    quota r = None -> notes r = notes r0 ->
    Forall (fun d => dealIncludes r0 (text first) d = false) ds ->
    scanDeals first messages ds r
    = (Ok None, afterAll (map (fun d => GetNotes (deal_id d)) ds) r).
Proof.
  induction ds as [|d ds IH]; intros r0 r Hq Hn Hall; simpl; [reflexivity|].
  inversion Hall as [|? ? Hd Hds]; subst.
  run_with getNotesForDeal_answered.
  unfold dealIncludes in Hd. rewrite (@notesOf_same_notes r0 r _ Hn), Hd.
  apply (IH r0); [answered|exact Hn|exact Hds].
Qed.

(** The loop over the deals when one of them owns the thread: the notes of
    the deals up to the first owner are fetched, the messages its notes do
    not include are posted to it, and the loop is left. *)
Lemma scanDeals_found (first : Message) (messages : list Message)
      (pre : list Deal) (d : Deal) (post : list Deal) :
  forall (r0 r : Remote),
    quota r = None -> notes r = notes r0 ->
    Forall (fun d' => dealIncludes r0 (text first) d' = false) pre ->
    dealIncludes r0 (text first) d = true ->
    let missing := missingFrom (notesOf r0 (deal_id d)) messages in
    scanDeals first messages (pre ++ d :: post) r
    = (Ok (Some (deal_id d, length missing)),
       afterAll (map (fun d' => GetNotes (deal_id d')) (pre ++ [d])
                 ++ map (fun m => PostNote (deal_id d) (formatNoteHtml m))
                        missing) r).
Proof.
  induction pre as [|d' pre IH]; intros r0 r Hq Hn Hpre Hd; simpl.
  - run_with getNotesForDeal_answered.
    unfold dealIncludes in Hd. rewrite (@notesOf_same_notes r0 r _ Hn), Hd.
    run_with addMissingNotes_answered.
    reflexivity.
  - inversion Hpre as [|? ? Hd' Hpre']; subst.
    run_with getNotesForDeal_answered.
    unfold dealIncludes in Hd'. rewrite (@notesOf_same_notes r0 r _ Hn), Hd'.
    apply (IH r0); [answered|exact Hn|exact Hpre'|exact Hd].
Qed.

(** ** Runs of main against a store that answers *)

Section MainRuns.
Variable toLowerCase : str -> str.
Variable g : Globals.
Variable cookieFile : option str.
Variable web : Web.

Lemma findPersonByFirstName_answered (firstName : str) (r : Remote) :
  quota r = None ->
  findPersonByFirstName toLowerCase firstName r
  = (Ok (find (firstNameMatches toLowerCase firstName)
              (searchOf r firstName)),
     after (SearchPersons firstName) r).
Proof.
  intros Hq. unfold findPersonByFirstName.
  run_with pdFetch_answered. reflexivity.
Qed.

Let firstName := contactPersonFirstName g.

(** The run that finds an owning deal. *)
Lemma main_synced (r : Remote) (messages : list Message) (ck sk : str)
      (p : Person) (pre : list Deal) (d : Deal) (post : list Deal) :
  reachesDuplicateCheck g cookieFile web r messages ck sk ->
  quota r = None ->
  find (firstNameMatches toLowerCase firstName) (searchOf r firstName)
  = Some p ->
  dealsOf r (person_id p) = pre ++ d :: post ->
  Forall (fun d' => dealIncludes r (openingText messages) d' = false) pre ->
  dealIncludes r (openingText messages) d = true ->
  let missing := missingFrom (notesOf r (deal_id d)) messages in
  main toLowerCase g cookieFile web r
  = (Ok (mkReport synced_notes_to_existing_deal (Some (person_id p))
                  (Some (deal_id d)) (length missing)),
     afterAll ([GetDealFields; SearchPersons firstName;
                GetPersonDeals (person_id p)]
               ++ getNotesOf (pre ++ [d])
               ++ postNotesOf (deal_id d) missing) r).
Proof.
  intros (c & -> & Hfetch & Hne & Hck & Tck & Hsk & Tsk) Hq Hfind Hdeals
         Hpre Hd missing.
  destruct messages as [|firstMessage rest]; [congruence|].
  unfold main. cbn [loadCookies].
  erewrite bind_Ok by reflexivity.
  erewrite bind_Ok by (unfold lift; rewrite Hfetch; reflexivity).
  cbv beta iota.
  run_with getDealFieldKeys_answered.
  cbv beta iota. rewrite Hck, Hsk, Tck, Tsk. cbn [negb orb].
  run_with findPersonByFirstName_answered.
  change (searchOf (after GetDealFields r) (contactPersonFirstName g))
    with (searchOf r firstName).
  fold firstName. rewrite Hfind.
  erewrite bind_Ok.
  2: { run_with getDealsForPerson_answered.
       change (dealsOf (after (SearchPersons firstName)
                              (after GetDealFields r)) (person_id p))
         with (dealsOf r (person_id p)).
       rewrite Hdeals.
       erewrite bind_Ok by (apply (@scanDeals_found firstMessage
                                     (firstMessage :: rest) pre d post r);
                            [answered|reflexivity|exact Hpre|exact Hd]).
       reflexivity. }
  cbv beta iota. unfold ret. f_equal.
Qed.

(** The run that finds no owning deal. *)
Lemma main_created (r : Remote) (messages : list Message) (ck sk : str) :
  reachesDuplicateCheck g cookieFile web r messages ck sk ->
  quota r = None ->
  let existingPerson :=
    find (firstNameMatches toLowerCase firstName) (searchOf r firstName) in
  match existingPerson with
  | Some p =>
      Forall (fun d => dealIncludes r (openingText messages) d = false)
             (dealsOf r (person_id p))
  | None => True
  end ->
  let personId :=
    match existingPerson with
    | Some p => person_id p
    | None => nextId r
    end in
  let dealId :=
    match existingPerson with
    | Some _ => nextId r
    | None => (nextId r + 1)%Z
    end in
  main toLowerCase g cookieFile web r
  = (Ok (mkReport created_new_deal (Some personId) (Some dealId)
                  (length messages)),
     afterAll ([GetDealFields; SearchPersons firstName]
               ++ match existingPerson with
                  | Some p => GetPersonDeals (person_id p)
                                :: getNotesOf (dealsOf r (person_id p))
                  | None => [PostPerson (contactPersonName g)
                                        DEAL_OWNER_USER_ID]
                  end
               ++ [postDealOf g messages ck sk (Some personId);
                   PostNote dealId (noteLinkOf g)]
               ++ postNotesOf dealId messages) r).
Proof.
  intros (c & -> & Hfetch & Hne & Hck & Tck & Hsk & Tsk) Hq existingPerson
         Hnone personId dealId.
  destruct messages as [|firstMessage rest]; [congruence|].
  unfold main. cbn [loadCookies].
  erewrite bind_Ok by reflexivity.
  erewrite bind_Ok by (unfold lift; rewrite Hfetch; reflexivity).
  cbv beta iota.
  run_with getDealFieldKeys_answered.
  cbv beta iota. rewrite Hck, Hsk, Tck, Tsk. cbn [negb orb].
  run_with findPersonByFirstName_answered.
  change (searchOf (after GetDealFields r) (contactPersonFirstName g))
    with (searchOf r firstName).
  fold firstName. fold existingPerson.
  subst personId dealId. destruct existingPerson as [p|].
  - erewrite bind_Ok.
    2: { run_with getDealsForPerson_answered.
         change (dealsOf (after (SearchPersons firstName)
                                (after GetDealFields r)) (person_id p))
           with (dealsOf r (person_id p)).
         erewrite bind_Ok by (apply (@scanDeals_none firstMessage
                                       (firstMessage :: rest)
                                       (dealsOf r (person_id p)) r);
                              [answered|reflexivity|exact Hnone]).
         reflexivity. }
    cbv beta iota.
    erewrite bind_Ok by reflexivity.
    run_with pdFetch_answered.
    match goal with
    | |- context [created_id (answer ?q ?R)] =>
        change (created_id (answer q R)) with (@ret Z (nextId R));
        assert (E : nextId R = nextId r)
    end.
    { destruct (@afterAll_reading
                  (getNotesOf (dealsOf r (person_id p)))
                  (after (GetPersonDeals (person_id p))
                     (after (SearchPersons firstName) (after GetDealFields r))))
        as (_ & _ & _ & E).
      - unfold getNotesOf. apply Forall_forall. intros q Hin.
        apply in_map_iff in Hin as (d & <- & _). exact I.
      - exact E. }
    erewrite bind_Ok by reflexivity. cbv beta. rewrite E.
    run_with addNote_answered.
    run_with addAllNotes_answered.
    unfold ret. f_equal.
    cbn [app afterAll fold_left]. rewrite afterAll_app. reflexivity.
  - erewrite bind_Ok by reflexivity. cbv beta iota.
    erewrite bind_Ok.
    2: { run_with pdFetch_answered. erewrite bind_Ok by reflexivity.
         reflexivity. }
    cbv beta.
    run_with pdFetch_answered.
    erewrite bind_Ok by reflexivity. cbv beta.
    run_with addNote_answered.
    run_with addAllNotes_answered.
    unfold ret. f_equal.
Qed.
End MainRuns.

(** ** Tables after a run *)

Lemma dealIncludes_spec (r : Remote) (t : str) (d : Deal) :
  dealIncludes r t d = true <-> holdsText r t d.
Proof.
  unfold dealIncludes, someNoteIncludes, holdsText. rewrite existsb_exists.
  split; intros (n & Hn & H); exists n; (split; [exact Hn|]);
    now apply includes_spec.
Qed.

Lemma dealIncludes_false (r : Remote) (t : str) (d : Deal) :
  dealIncludes r t d = false <-> ~ holdsText r t d.
Proof.
  rewrite <- dealIncludes_spec. destruct (dealIncludes r t d); split;
    congruence.
Qed.

Lemma Forall_not_holdsText (r : Remote) (t : str) (ds : list Deal) :
  Forall (fun d => ~ holdsText r t d) ds <->
  Forall (fun d => dealIncludes r t d = false) ds.
Proof.
  split; intros H; eapply Forall_impl; try exact H; intros d;
    apply dealIncludes_false.
Qed.

Lemma getNotesOf_reading (ds : list Deal) : Forall reading (getNotesOf ds).
Proof.
  unfold getNotesOf. apply Forall_forall. intros q Hin.
  apply in_map_iff in Hin as (d & <- & _). exact I.
Qed.

Lemma postNotesOf_map (dealId : Z) (messages : list Message) :
  postNotesOf dealId messages
  = map (PostNote dealId) (map formatNoteHtml messages).
Proof. unfold postNotesOf. now rewrite map_map. Qed.

(** The store after a run that synchronises with an existing deal. *)
Lemma synced_tables (r : Remote) (reads : list Request) (dealId : Z)
      (missing : list Message) :
  Forall reading reads ->
  let r' := afterAll (reads ++ postNotesOf dealId missing) r in
  persons r' = persons r /\ deals r' = deals r
  /\ notes r' = notes r ++ notesPosted (nextId r) dealId
                                       (map formatNoteHtml missing)
  /\ nextId r' = (nextId r + Z.of_nat (length missing))%Z.
Proof.
  intros Hreads r'. subst r'. rewrite afterAll_app, postNotesOf_map.
  destruct (afterAll_reading r Hreads) as (E1 & E2 & E3 & E4).
  destruct (afterAll_PostNote dealId (map formatNoteHtml missing)
                              (afterAll reads r)) as (F1 & F2 & F3 & F4).
  rewrite length_map in F4.
  repeat split; congruence.
Qed.

(** The store after a deal is posted to it, then a first note and further
    notes to that deal. *)
Lemma deal_and_notes_tables (R : Remote) (title : str) (user : Z)
      (person : option Z) (custom : list (str * Z)) (dealId : Z)
      (link : str) (contents : list str) :
  dealId = nextId R ->
  let r' := afterAll (PostDeal title user person custom
                        :: PostNote dealId link
                        :: map (PostNote dealId) contents) R in
  persons r' = persons R
  /\ deals r' = deals R ++ [mkDeal dealId title user person custom false]
  /\ notes r' = notes R ++ notesPosted (dealId + 1) dealId (link :: contents).
Proof.
  intros -> r'. subst r'.
  change (afterAll (PostDeal title user person custom
                      :: PostNote (nextId R) link
                      :: map (PostNote (nextId R)) contents) R)
    with (afterAll (map (PostNote (nextId R)) contents)
            (after (PostNote (nextId R) link)
               (after (PostDeal title user person custom) R))).
  destruct (afterAll_PostNote (nextId R) contents
              (after (PostNote (nextId R) link)
                 (after (PostDeal title user person custom) R)))
    as (F1 & F2 & F3 & _).
  rewrite F1, F2, F3. cbn. rewrite <- app_assoc. repeat split.
Qed.

(** The store after a run that creates a deal. *)
Lemma created_tables (g : Globals) (r : Remote) (existingPerson : option Person)
      (messages : list Message) (ck sk : str) :
  let personId := match existingPerson with
                  | Some p => person_id p
                  | None => nextId r
                  end in
  let dealId := match existingPerson with
                | Some _ => nextId r
                | None => (nextId r + 1)%Z
                end in
  let r' := afterAll (createdRequests g r existingPerson messages ck sk) r in
  persons r' = persons r
               ++ match existingPerson with
                  | Some _ => []
                  | None => [mkPerson personId (Some (contactPersonName g))]
                  end
  /\ deals r' = deals r
                ++ [mkDeal dealId (dealTitleOf g (openingMessage messages))
                           DEAL_OWNER_USER_ID (Some personId)
                           [(ck, sourceChannelOptionId (cfg g));
                            (sk, sourceCompanyOptionId (cfg g))] false]
  /\ notes r' = notes r
                ++ notesPosted (dealId + 1) dealId
                               (noteLinkOf g :: map formatNoteHtml messages).
Proof.
  intros personId dealId r'. subst r' personId dealId.
  unfold createdRequests. rewrite postNotesOf_map.
  destruct existingPerson as [p|].
  - change ([GetDealFields; SearchPersons (contactPersonFirstName g)]
            ++ (GetPersonDeals (person_id p)
                  :: getNotesOf (dealsOf r (person_id p)))
            ++ [postDealOf g messages ck sk (Some (person_id p));
                PostNote (nextId r) (noteLinkOf g)]
            ++ map (PostNote (nextId r)) (map formatNoteHtml messages))
      with ((GetDealFields :: SearchPersons (contactPersonFirstName g)
               :: GetPersonDeals (person_id p)
               :: getNotesOf (dealsOf r (person_id p)))
            ++ (postDealOf g messages ck sk (Some (person_id p))
                  :: PostNote (nextId r) (noteLinkOf g)
                  :: map (PostNote (nextId r)) (map formatNoteHtml messages))).
    rewrite afterAll_app.
    destruct (@afterAll_reading
                (GetDealFields :: SearchPersons (contactPersonFirstName g)
                   :: GetPersonDeals (person_id p)
                   :: getNotesOf (dealsOf r (person_id p))) r)
      as (E1 & E2 & E3 & E4).
    { repeat (constructor; [exact I|]). apply getNotesOf_reading. }
    unfold postDealOf.
    destruct (@deal_and_notes_tables
                (afterAll (GetDealFields
                             :: SearchPersons (contactPersonFirstName g)
                             :: GetPersonDeals (person_id p)
                             :: getNotesOf (dealsOf r (person_id p))) r)
                (dealTitleOf g (openingMessage messages)) DEAL_OWNER_USER_ID
                (Some (person_id p))
                [(ck, sourceChannelOptionId (cfg g));
                 (sk, sourceCompanyOptionId (cfg g))]
                (nextId r) (noteLinkOf g) (map formatNoteHtml messages)
                (eq_sym E4)) as (F1 & F2 & F3).
    rewrite F1, F2, F3, E1, E2, E3, app_nil_r. repeat split.
  - change ([GetDealFields; SearchPersons (contactPersonFirstName g)]
            ++ [PostPerson (contactPersonName g) DEAL_OWNER_USER_ID]
            ++ [postDealOf g messages ck sk (Some (nextId r));
                PostNote (nextId r + 1) (noteLinkOf g)]
            ++ map (PostNote (nextId r + 1)) (map formatNoteHtml messages))
      with ([GetDealFields; SearchPersons (contactPersonFirstName g);
             PostPerson (contactPersonName g) DEAL_OWNER_USER_ID]
            ++ (postDealOf g messages ck sk (Some (nextId r))
                  :: PostNote (nextId r + 1)%Z (noteLinkOf g)
                  :: map (PostNote (nextId r + 1)%Z)
                         (map formatNoteHtml messages))).
    rewrite afterAll_app. unfold postDealOf.
    destruct (@deal_and_notes_tables
                (afterAll [GetDealFields;
                           SearchPersons (contactPersonFirstName g);
                           PostPerson (contactPersonName g) DEAL_OWNER_USER_ID]
                          r)
                (dealTitleOf g (openingMessage messages)) DEAL_OWNER_USER_ID
                (Some (nextId r))
                [(ck, sourceChannelOptionId (cfg g));
                 (sk, sourceCompanyOptionId (cfg g))]
                (nextId r + 1)%Z (noteLinkOf g) (map formatNoteHtml messages)
                eq_refl) as (F1 & F2 & F3).
    rewrite F1, F2, F3. repeat split.
Qed.

(** ** The empty thread *)

(** C8: when the parsed thread has no message, [main] throws the error
    No messages found in conversation (the EmptyThreadError of the
    specification) and the record store is left exactly as it was: its
    request log is unchanged, so no request was sent to it, whatever the
    store and whether or not it would have answered. *)
Theorem main_empty_thread (toLowerCase : str -> str) (g : Globals)
        (cookieString : str) (web : Web) (r : Remote) :
  fst (fetchAllMessages web cookieString (conversationUrl g)) = Ok [] ->
  main toLowerCase g (Some cookieString) web r = (Throw NoMessagesFound, r).
Proof.
  intros Hfetch. unfold main. cbn [loadCookies].
  erewrite bind_Ok by reflexivity.
  erewrite bind_Ok by (unfold lift; rewrite Hfetch; reflexivity).
  reflexivity.
Qed.

(** The theorem on a page whose chat region holds no message block, against
    a store that would reject every request. *)
Lemma main_empty_thread_witness :
  fst (fetchAllMessages (Sample.web (Sample.page Sample.chatNoBlocks))
                        (lit "sid=1")
                        (conversationUrl ScenarioB.globals)) = Ok []
  /\ main toLowerCaseLatin ScenarioB.globals (Some (lit "sid=1"))
          (Sample.web (Sample.page Sample.chatNoBlocks))
          (with_quota ScenarioB.store (Some 0))
     = (Throw NoMessagesFound, with_quota ScenarioB.store (Some 0)).
Proof.
  assert (H : fst (fetchAllMessages
                     (Sample.web (Sample.page Sample.chatNoBlocks))
                     (lit "sid=1") (conversationUrl ScenarioB.globals)) = Ok [])
    by (vm_compute; reflexivity).
  split; [exact H|].
  exact (main_empty_thread toLowerCaseLatin ScenarioB.globals _ _ _ H).
Defined.

(** ** The owning deal *)

(** C5: when the duplicate check finds a contact and the gateway lists its
    deals as [pre ++ d :: post], where no note of the deals in [pre]
    contains the text of the opening message and some note of [d] contains
    it as a substring, [main] reports the deal [d] with the action
    synced_notes_to_existing_deal; the requests it sent show that the notes
    of the deals of [pre] and of [d] were fetched, in that order, and the
    notes of no deal of [post]. *)
Theorem main_syncs_first_owning_deal (toLowerCase : str -> str) (g : Globals)
        (cookieFile : option str) (web : Web) (r : Remote)
        (messages : list Message) (ck sk : str)
        (p : Person) (pre : list Deal) (d : Deal) (post : list Deal) :
  reachesDuplicateCheck g cookieFile web r messages ck sk ->
  quota r = None ->
  existingPersonOf toLowerCase g r = Some p ->
  dealsOf r (person_id p) = pre ++ d :: post ->
  Forall (fun d' => ~ holdsText r (openingText messages) d') pre ->
  holdsText r (openingText messages) d ->
  exists report r',
    main toLowerCase g cookieFile web r = (Ok report, r')
    /\ resultAction report = synced_notes_to_existing_deal
    /\ personId report = Some (person_id p)
    /\ dealId report = Some (deal_id d)
    /\ requests r'
       = requests r
         ++ [GetDealFields; SearchPersons (contactPersonFirstName g);
             GetPersonDeals (person_id p)]
         ++ getNotesOf (pre ++ [d])
         ++ postNotesOf (deal_id d)
                        (missingFrom (notesOf r (deal_id d)) messages).
Proof.
  intros Hready Hq Hp Hdeals Hpre Hd.
  apply Forall_not_holdsText in Hpre. apply dealIncludes_spec in Hd.
  pose proof (@main_synced toLowerCase g cookieFile web r messages ck sk
                p pre d post Hready Hq Hp Hdeals Hpre Hd) as Hrun.
  cbv zeta in Hrun. eexists. eexists. split; [exact Hrun|].
  repeat split. now rewrite afterAll_requests.
Qed.

(** The theorem on scenario B: the contact has the deals 10, 11, 12; deal
    11 is the first whose notes contain the opening message; the notes of
    deals 10 and 11 are fetched and the notes of deal 12 are not. *)
Lemma main_syncs_first_owning_deal_witness :
  exists report r',
    ScenarioB.run = (Ok report, r')
    /\ resultAction report = synced_notes_to_existing_deal
    /\ dealId report = Some 11%Z
    /\ filter (fun q => match q with GetNotes _ => true | _ => false end)
              (requests r') = [GetNotes 10; GetNotes 11].
Proof.
  assert (Hready : reachesDuplicateCheck ScenarioB.globals (Some (lit "sid=1"))
                     (Sample.web (Sample.page Sample.chatA)) ScenarioB.store
                     Sample.messagesA (lit "channel_key") (lit "company_key")).
  { exists (lit "sid=1"). split; [reflexivity|].
    split; [vm_compute; reflexivity|]. split; [discriminate|].
    repeat split; vm_compute; reflexivity. }
  assert (Hpre : Forall (fun d' => ~ holdsText ScenarioB.store
                                      (openingText Sample.messagesA) d')
                        [ScenarioB.deal 10]).
  { constructor; [|constructor]. apply dealIncludes_false.
    vm_compute. reflexivity. }
  assert (Hd : holdsText ScenarioB.store (openingText Sample.messagesA)
                         (ScenarioB.deal 11)).
  { apply dealIncludes_spec. vm_compute. reflexivity. }
  destruct (@main_syncs_first_owning_deal toLowerCaseLatin ScenarioB.globals
              (Some (lit "sid=1")) (Sample.web (Sample.page Sample.chatA))
              ScenarioB.store Sample.messagesA
              (lit "channel_key") (lit "company_key")
              ScenarioB.janis [ScenarioB.deal 10] (ScenarioB.deal 11)
              [ScenarioB.deal 12]
              Hready eq_refl ltac:(vm_compute; reflexivity)
              ltac:(vm_compute; reflexivity) Hpre Hd)
    as (report & r' & Hrun & Hact & _ & Hdeal & Hreqs).
  exists report, r'. split; [exact Hrun|]. split; [exact Hact|].
  split; [exact Hdeal|]. rewrite Hreqs. vm_compute. reflexivity.
Defined.

(** ** The new deal *)

Lemma noOwningDeal_created (toLowerCase : str -> str) (g : Globals)
      (cookieFile : option str) (web : Web) (r : Remote)
      (messages : list Message) (ck sk : str) :
  reachesDuplicateCheck g cookieFile web r messages ck sk ->
  quota r = None ->
  noOwningDeal toLowerCase g r messages ->
  let existingPerson := existingPersonOf toLowerCase g r in
  main toLowerCase g cookieFile web r
  = (Ok (mkReport created_new_deal
                  (Some match existingPerson with
                        | Some p => person_id p
                        | None => nextId r
                        end)
                  (Some match existingPerson with
                        | Some _ => nextId r
                        | None => (nextId r + 1)%Z
                        end)
                  (length messages)),
     afterAll (createdRequests g r existingPerson messages ck sk) r).
Proof.
  intros Hready Hq Hnone existingPerson.
  apply (@main_created toLowerCase g cookieFile web r messages ck sk Hready Hq).
  unfold noOwningDeal in Hnone. fold existingPerson in Hnone.
  change (find (firstNameMatches toLowerCase (contactPersonFirstName g))
               (searchOf r (contactPersonFirstName g))) with existingPerson.
  destruct existingPerson as [p|]; [|exact I].
  now apply Forall_not_holdsText.
Qed.




Lemma notesPosted_length (next dealId : Z) (contents : list str) :
  length (notesPosted next dealId contents) = length contents.
Proof.
  revert next. induction contents as [|c contents IH]; intros next; simpl;
    [reflexivity|]. now rewrite IH.
Qed.

Lemma notesOf_app (r r' : Remote) (extra : list Note) (dealId : Z) :
  notes r' = notes r ++ extra ->
  notesOf r' dealId
  = notesOf r dealId ++ filter (fun n => (note_deal_id n =? dealId)%Z) extra.
Proof. unfold notesOf. intros ->. apply filter_app. Qed.

Lemma notesOf_not_issued (r : Remote) (dealId : Z) :
  idsIssued r -> (nextId r <= dealId)%Z -> notesOf r dealId = [].
Proof.
  intros (_ & _ & Hn) Hle. unfold notesOf. apply filter_none.
  eapply Forall_impl; [|exact Hn]. cbv beta. intros n [_ Hlt].
  apply Z.eqb_neq. lia.
Qed.

(** C10: in a run that creates a deal (the store answers, its ids were
    issued by it), the count [notesAdded] that [main] reports is the number
    of messages of the thread, while the new deal holds one note more: the
    link note is added but not counted. *)
Theorem created_deal_counts_messages_only
        (toLowerCase : str -> str) (g : Globals) (cookieFile : option str)
        (web : Web) (r : Remote) (messages : list Message) (ck sk : str) :
  reachesDuplicateCheck g cookieFile web r messages ck sk ->
  quota r = None ->
  idsIssued r ->
  noOwningDeal toLowerCase g r messages ->
  exists report r' newDeal,
    main toLowerCase g cookieFile web r = (Ok report, r')
    /\ resultAction report = created_new_deal
    /\ dealId report = Some newDeal
    /\ notesAdded report = length messages
    /\ length (notesOf r' newDeal) = S (length messages)
    /\ length (notes r') = length (notes r) + S (length messages).
Proof.
  intros Hready Hq Hids Hnone.
  pose proof (@noOwningDeal_created toLowerCase g cookieFile web r messages
                ck sk Hready Hq Hnone) as Hrun.
  cbv zeta in Hrun.
  destruct (created_tables g r (existingPersonOf toLowerCase g r) messages
                           ck sk) as (_ & _ & E3).
  cbv zeta in E3.
  set (newDeal := match existingPersonOf toLowerCase g r with
                  | Some _ => nextId r
                  | None => (nextId r + 1)%Z
                  end) in *.
  assert (Hfresh : (nextId r <= newDeal)%Z).
  { subst newDeal. destruct (existingPersonOf toLowerCase g r); lia. }
  eexists. eexists. exists newDeal. split; [exact Hrun|].
  repeat split.
  - rewrite (@notesOf_app _ _ _ newDeal E3),
      (@notesOf_not_issued r newDeal Hids Hfresh).
    rewrite notesPosted_filter_same. cbn [app].
    rewrite notesPosted_length. simpl. now rewrite length_map.
  - rewrite E3, length_app, notesPosted_length. simpl.
    now rewrite length_map.
Qed.

(** The theorem at scenario A: three messages, [notesAdded] is 3 and the
    deal holds 4 notes. *)
Lemma created_deal_counts_messages_only_witness :
  idsIssued Scenario.emptyStore
  /\ exists report r' newDeal,
       main toLowerCaseLatin (Scenario.globalsOf Scenario.janisBerzins)
            (Some (lit "sid=1")) (Sample.web (Sample.page Sample.chatA))
            Scenario.emptyStore = (Ok report, r')
       /\ dealId report = Some newDeal
       /\ notesAdded report = 3
       /\ length (notesOf r' newDeal) = 4.
Proof.
  assert (Hready : reachesDuplicateCheck
                     (Scenario.globalsOf Scenario.janisBerzins)
                     (Some (lit "sid=1")) (Sample.web (Sample.page Sample.chatA))
                     Scenario.emptyStore Sample.messagesA
                     (lit "channel_key") (lit "company_key")).
  { exists (lit "sid=1"). split; [reflexivity|].
    split; [vm_compute; reflexivity|]. split; [discriminate|].
    repeat split; vm_compute; reflexivity. }
  assert (Hids : idsIssued Scenario.emptyStore)
    by (repeat split; constructor).
  split; [exact Hids|].
  destruct (@created_deal_counts_messages_only toLowerCaseLatin
              (Scenario.globalsOf Scenario.janisBerzins) (Some (lit "sid=1"))
              (Sample.web (Sample.page Sample.chatA)) Scenario.emptyStore
              Sample.messagesA (lit "channel_key") (lit "company_key")
              Hready eq_refl Hids I)
    as (report & r' & newDeal & Hrun & _ & Hdeal & Hcount & Hnotes & _).
  exists report, r', newDeal. repeat split; assumption.
Defined.

(** ** Contact matching *)

Lemma or_else_Some_nil (s : str) : or_else (Some s) [] = s.
Proof. now destruct s. Qed.

(** The constants [startup] derives from the arguments. *)
Lemma startup_names (toLowerCase : str -> str) (p : Process) (g : Globals) :
  startup toLowerCase p = Some g ->
  contactPersonName g = trim (or_else (argv4 p) (lit "Unknown"))
  /\ contactPersonFirstName g = split_space_0 (contactPersonName g).
Proof.
  unfold startup. destruct (argv2 p) as [u|]; [|discriminate].
  destruct (negb (truthy u) || negb (truthy _)); [discriminate|].
  destruct (negb (truthy (or_else (PIPEDRIVE_API_TOKEN p) [])));
    [discriminate|].
  destruct (SENDER_CONFIG _) as [c|]; [|discriminate].
  intros [= <-]. cbn [contactPersonName contactPersonFirstName].
  split; [reflexivity|].
  set (name := trim (or_else (argv4 p) (lit "Unknown"))).
  destruct (split_space_0 name) as [|x t] eqn:E; [|reflexivity].
  cbn [or_else truthy].
  destruct name as [|y name'] eqn:En; [reflexivity|].
  exfalso. apply (@split_space_0_trim (or_else (argv4 p) (lit "Unknown"))).
  - fold name. rewrite En. discriminate.
  - fold name. rewrite En. exact E.
Qed.

Lemma find_first (A : Type) (f : A -> bool) (l : list A) :
  match find f l with
  | Some x => exists pre post,
                l = pre ++ x :: post /\ f x = true
                /\ Forall (fun y => f y = false) pre
  | None => Forall (fun y => f y = false) l
  end.
Proof.
  induction l as [|a l IH]; simpl; [constructor|].
  destruct (f a) eqn:E.
  - exists [], l. repeat split; [exact E|constructor].
  - destruct (find f l) as [x|].
    + destruct IH as (pre & post & -> & Hx & Hpre).
      exists (a :: pre), post. repeat split; [exact Hx|now constructor].
    + now constructor.
Qed.

Lemma firstNameMatches_spec (toLowerCase : str -> str) (firstName : str)
      (item : Person) :
  firstNameMatches toLowerCase firstName item = true <->
  toLowerCase (split_space_0 (or_else (person_name item) []))
  = toLowerCase firstName.
Proof. unfold firstNameMatches. apply str_eqb_eq. Qed.

(** C6, as amended: the contact name is compared through the part before
    its first space character U+0020 (no other white space delimits a
    token), lowered by toLowerCase, with the part before the first space of
    the full name of each candidate, lowered likewise; the two must be
    equal; the candidate returned is the first one, in the order of the
    search result of the gateway, for which they are, and none is returned
    when there is no such candidate.  Second part: the contact name
    [janis berzins] (written with its Latvian letters) matches the
    candidate [Janis] and not the candidate [Jani], also when [Jani] comes
    first in the result. *)
Theorem contact_matching_first_token :
  (forall (toLowerCase : str -> str) (p : Process) (g : Globals) (r : Remote),
      startup toLowerCase p = Some g ->
      quota r = None ->
      let items := searchOf r (contactPersonFirstName g) in
      let qualifies item :=
        toLowerCase (split_space_0 (or_else (person_name item) []))
        = toLowerCase (split_space_0 (contactPersonName g)) in
      exists found,
        findPersonByFirstName toLowerCase (contactPersonFirstName g) r
        = (Ok found, after (SearchPersons (contactPersonFirstName g)) r)
        /\ match found with
           | Some item =>
               exists pre post,
                 items = pre ++ item :: post /\ qualifies item
                 /\ Forall (fun x => ~ qualifies x) pre
           | None => Forall (fun x => ~ qualifies x) items
           end)
  /\ (let g := Scenario.globalsOf Scenario.janisBerzins in
      contactPersonName g = Scenario.janisBerzins
      /\ firstNameMatches toLowerCaseLatin (contactPersonFirstName g)
                          (mkPerson 1 (Some Scenario.Janis)) = true
      /\ firstNameMatches toLowerCaseLatin (contactPersonFirstName g)
                          (mkPerson 2 (Some Scenario.Jani)) = false
      /\ fst (findPersonByFirstName toLowerCaseLatin (contactPersonFirstName g)
                (Scenario.store [mkPerson 2 (Some Scenario.Jani);
                                 mkPerson 1 (Some Scenario.Janis)] [] [] 3))
         = Ok (Some (mkPerson 1 (Some Scenario.Janis)))).
Proof.
  split.
  - intros toLowerCase p g r Hstart Hq items qualifies.
    destruct (startup_names _ _ Hstart) as [_ Hfirst].
    eexists. split; [now apply findPersonByFirstName_answered|].
    fold items.
    pose proof (find_first (firstNameMatches toLowerCase
                              (contactPersonFirstName g)) items) as H.
    assert (Hq' : forall x,
               firstNameMatches toLowerCase (contactPersonFirstName g) x = false
               -> ~ qualifies x).
    { intros x Hx Hqual. unfold qualifies in Hqual. rewrite <- Hfirst in Hqual.
      apply firstNameMatches_spec in Hqual. congruence. }
    destruct (find _ items) as [item|].
    + destruct H as (pre & post & E & Hitem & Hpre).
      exists pre, post. split; [exact E|]. split.
      * unfold qualifies. rewrite <- Hfirst.
        now apply firstNameMatches_spec.
      * eapply Forall_impl; [|exact Hpre]. exact Hq'.
    + eapply Forall_impl; [|exact H]. exact Hq'.
  - repeat split; vm_compute; reflexivity.
Qed.

(** The first part of the theorem on the store of scenario B, where the
    search returns the contact [Janis]. *)
Lemma contact_matching_first_token_witness :
  startup toLowerCaseLatin (Scenario.process Scenario.janisBerzins)
  = Some ScenarioB.globals
  /\ quota ScenarioB.store = None
  /\ exists found,
       findPersonByFirstName toLowerCaseLatin
         (contactPersonFirstName ScenarioB.globals) ScenarioB.store
       = (Ok found,
          after (SearchPersons (contactPersonFirstName ScenarioB.globals))
                ScenarioB.store)
       /\ found = Some ScenarioB.janis.
Proof.
  assert (H : startup toLowerCaseLatin (Scenario.process Scenario.janisBerzins)
              = Some ScenarioB.globals) by (vm_compute; reflexivity).
  split; [exact H|]. split; [reflexivity|].
  destruct (proj1 contact_matching_first_token toLowerCaseLatin
              (Scenario.process Scenario.janisBerzins) ScenarioB.globals
              ScenarioB.store H eq_refl) as (found & Hrun & _).
  exists found. split; [exact Hrun|].
  assert (E : fst (findPersonByFirstName toLowerCaseLatin
                     (contactPersonFirstName ScenarioB.globals) ScenarioB.store)
              = Ok (Some ScenarioB.janis)) by (vm_compute; reflexivity).
  rewrite Hrun in E. simpl in E. congruence.
Defined.

(** C6 as stated fails for white space other than the space character: for
    the contact name Anna Liepa the search returns the candidate stored as
    Anna, tab, Liepa; the first white-space-delimited token of both names
    is Anna, yet the candidate is not matched, because its name holds no
    space and is compared as a whole. *)
Lemma contact_matching_tab_separated_name :
  let g := Scenario.globalsOf (lit "Anna Liepa") in
  startup toLowerCaseLatin (Scenario.process (lit "Anna Liepa")) = Some g
  /\ contactPersonName g = lit "Anna Liepa"
  /\ searchOf Scenario.annaStore (contactPersonFirstName g) = [Scenario.anna]
  /\ firstWhitespaceToken (contactPersonName g) = lit "Anna"
  /\ firstWhitespaceToken (or_else (person_name Scenario.anna) []) = lit "Anna"
  /\ fst (findPersonByFirstName toLowerCaseLatin (contactPersonFirstName g)
                                Scenario.annaStore)
     = Ok None.
Proof. repeat split; vm_compute; reflexivity. Qed.

(** ** Running main twice *)

Lemma someNoteIncludes_app (a b : list Note) (t : str) :
  someNoteIncludes (a ++ b) t = someNoteIncludes a t || someNoteIncludes b t.
Proof. apply existsb_app. Qed.

Lemma someNoteIncludes_spec (existingNotes : list Note) (t : str) :
  someNoteIncludes existingNotes t = true <->
  exists n, In n existingNotes
            /\ exists a b, or_else (note_content n) [] = a ++ t ++ b.
Proof.
  unfold someNoteIncludes. rewrite existsb_exists.
  split; intros (n & Hn & H); exists n; (split; [exact Hn|]);
    now apply includes_spec.
Qed.

(** The notes posted for a list of messages include the text of each. *)
Lemma posted_includes (next dealId : Z) (messages : list Message)
      (m : Message) :
  In m messages ->
  someNoteIncludes (notesPosted next dealId (map formatNoteHtml messages))
                   (text m) = true.
Proof.
  revert next. induction messages as [|x messages IH]; intros next; [intros []|].
  unfold someNoteIncludes in *.
  intros [->|Hin]; cbn [map notesPosted existsb note_content].
  - rewrite or_else_Some_nil, formatNoteHtml_includes. reflexivity.
  - rewrite (IH _ Hin). apply orb_true_r.
Qed.

Section SecondRun.
Variable toLowerCase : str -> str.
Variable g : Globals.
Variable cookieFile : option str.
Variable web : Web.

(** A run that returns got as far as the duplicate check. *)
Lemma main_Ok_reaches (r r' : Remote) (report : Report) :
  quota r = None ->
  main toLowerCase g cookieFile web r = (Ok report, r') ->
  exists messages ck sk,
    reachesDuplicateCheck g cookieFile web r messages ck sk.
Proof.
  intros Hq. unfold main.
  destruct cookieFile as [c|]; [|discriminate]. cbn [loadCookies].
  erewrite bind_Ok by reflexivity.
  destruct (fst (fetchAllMessages web c (conversationUrl g)))
    as [messages|e] eqn:Hfetch; [|discriminate].
  erewrite bind_Ok by reflexivity. cbv beta.
  destruct messages as [|firstMessage rest]; [discriminate|].
  run_with getDealFieldKeys_answered. cbv beta iota.
  destruct (byId_get SOURCE_CHANNEL_FIELD_ID (dealFields r)) as [ck|] eqn:Hck;
    [|discriminate].
  destruct (byId_get SOURCE_COMPANY_FIELD_ID (dealFields r)) as [sk|] eqn:Hsk;
    [|discriminate].
  destruct (truthy ck) eqn:Tck; [|discriminate].
  destruct (truthy sk) eqn:Tsk; [|discriminate].
  intros _. exists (firstMessage :: rest), ck, sk, c.
  repeat split; trivial. discriminate.
Qed.

(** A run against a store whose owning deal already includes every
    message adds nothing. *)
Lemma main_nothing_to_add (r : Remote) (messages : list Message)
      (ck sk : str) (p : Person) (pre : list Deal) (d : Deal)
      (post : list Deal) :
  reachesDuplicateCheck g cookieFile web r messages ck sk ->
  quota r = None ->
  existingPersonOf toLowerCase g r = Some p ->
  dealsOf r (person_id p) = pre ++ d :: post ->
  Forall (fun d' => dealIncludes r (openingText messages) d' = false) pre ->
  Forall (fun m => someNoteIncludes (notesOf r (deal_id d)) (text m) = true)
         messages ->
  exists r',
    main toLowerCase g cookieFile web r
    = (Ok (mkReport synced_notes_to_existing_deal (Some (person_id p))
                    (Some (deal_id d)) 0), r')
    /\ persons r' = persons r /\ deals r' = deals r /\ notes r' = notes r.
Proof.
  intros Hready Hq Hp Hdeals Hpre Hall.
  assert (Hd : dealIncludes r (openingText messages) d = true).
  { destruct Hready as (c & _ & _ & Hne & _).
    destruct messages as [|firstMessage rest]; [congruence|].
    inversion Hall; subst. assumption. }
  pose proof (@main_synced toLowerCase g cookieFile web r messages ck sk
                p pre d post Hready Hq Hp Hdeals Hpre Hd) as Hrun.
  cbv zeta in Hrun.
  assert (E : missingFrom (notesOf r (deal_id d)) messages = []).
  { unfold missingFrom. apply filter_none.
    eapply Forall_impl; [|exact Hall]. cbv beta. now intros m ->. }
  rewrite E in Hrun. eexists. split; [exact Hrun|].
  change (postNotesOf (deal_id d) []) with (@nil Request).
  rewrite app_nil_r.
  destruct (@afterAll_reading
              ([GetDealFields; SearchPersons (contactPersonFirstName g);
                GetPersonDeals (person_id p)] ++ getNotesOf (pre ++ [d])) r)
    as (E1 & E2 & E3 & _); [|now repeat split].
  apply Forall_app. split; [repeat constructor|apply getNotesOf_reading].
Qed.

(** The duplicate check is reached again in a store that a run left. *)
Lemma reaches_again (r r' : Remote) (messages : list Message) (ck sk : str) :
  reachesDuplicateCheck g cookieFile web r messages ck sk ->
  dealFields r' = dealFields r ->
  reachesDuplicateCheck g cookieFile web r' messages ck sk.
Proof.
  intros (c & H1 & H2 & H3 & H4 & H5 & H6 & H7) E.
  exists c. rewrite E. repeat split; assumption.
Qed.

Lemma find_app_none (A : Type) (f : A -> bool) (l l' : list A) :
  find f l = None -> find f (l ++ l') = find f l'.
Proof.
  induction l as [|a l IH]; simpl; [reflexivity|].
  destruct (f a); [discriminate|exact IH].
Qed.

Lemma dealsOf_not_issued (r : Remote) (pid : Z) :
  idsIssued r -> (nextId r <= pid)%Z -> dealsOf r pid = [].
Proof.
  intros (_ & Hd & _) Hle. unfold dealsOf. apply filter_none.
  eapply Forall_impl; [|exact Hd]. cbv beta. intros d [_ Hlink].
  destruct (deal_person_id d) as [q|]; [|reflexivity].
  destruct (Z.eqb_spec q pid); [lia|reflexivity].
Qed.

Lemma dealsOf_issued (r : Remote) (pid : Z) (d : Deal) :
  idsIssued r -> In d (dealsOf r pid) -> (deal_id d < nextId r)%Z.
Proof.
  intros (_ & Hd & _) Hin. unfold dealsOf in Hin.
  apply filter_In in Hin as [Hin _].
  rewrite Forall_forall in Hd. now apply Hd.
Qed.

(** After a run that synchronised with a deal, a second run finds the
    same contact and the same deal and adds nothing. *)
Lemma synced_then_again (r0 : Remote) (messages : list Message)
      (ck sk : str) (p : Person) (pre : list Deal) (d : Deal)
      (post : list Deal) (reads : list Request) :
  reachesDuplicateCheck g cookieFile web r0 messages ck sk ->
  quota r0 = None ->
  existingPersonOf toLowerCase g r0 = Some p ->
  dealsOf r0 (person_id p) = pre ++ d :: post ->
  Forall (fun d' => dealIncludes r0 (openingText messages) d' = false) pre ->
  dealIncludes r0 (openingText messages) d = true ->
  Forall reading reads ->
  let r1 := afterAll (reads
                      ++ postNotesOf (deal_id d)
                           (missingFrom (notesOf r0 (deal_id d)) messages))
                     r0 in
  exists r2,
    main toLowerCase g cookieFile web r1
    = (Ok (mkReport synced_notes_to_existing_deal (Some (person_id p))
                    (Some (deal_id d)) 0), r2)
    /\ persons r2 = persons r1 /\ deals r2 = deals r1
    /\ notes r2 = notes r1.
Proof.
  intros Hready Hq Hp Hdeals Hpre Hd Hreads r1.
  destruct (@synced_tables r0 reads (deal_id d)
              (missingFrom (notesOf r0 (deal_id d)) messages) Hreads)
    as (E1 & E2 & E3 & _).
  fold r1 in E1, E2, E3.
  assert (Hq1 : quota r1 = None) by (unfold r1; now rewrite afterAll_quota).
  assert (Hf1 : dealFields r1 = dealFields r0)
    by (unfold r1; apply afterAll_dealFields).
  assert (Hs1 : searchHit r1 = searchHit r0)
    by (unfold r1; apply afterAll_searchHit).
  apply (@main_nothing_to_add r1 messages ck sk p pre d post).
  - exact (@reaches_again r0 r1 _ _ _ Hready Hf1).
  - exact Hq1.
  - unfold existingPersonOf.
    rewrite (@searchOf_same_persons r0 r1 _ E1 Hs1). exact Hp.
  - now rewrite (@dealsOf_same_deals r0 r1 _ E2).
  - rewrite Forall_forall in *. intros d' Hin. specialize (Hpre d' Hin).
    unfold dealIncludes in *.
    rewrite (@notesOf_app r0 r1 _ (deal_id d') E3), someNoteIncludes_app, Hpre.
    destruct (Z.eq_dec (deal_id d') (deal_id d)) as [E|Hne];
      [rewrite E in Hpre; congruence|].
    now rewrite notesPosted_filter_other.
  - apply Forall_forall. intros m Hm.
    rewrite (@notesOf_app r0 r1 _ (deal_id d) E3), someNoteIncludes_app.
    destruct (someNoteIncludes (notesOf r0 (deal_id d)) (text m)) eqn:Em;
      [reflexivity|].
    rewrite notesPosted_filter_same. cbn [orb].
    apply posted_includes. unfold missingFrom. apply filter_In.
    split; [exact Hm|]. now rewrite Em.
Qed.

(** After a run that created a deal, a second run finds the contact and
    the deal of the first run and adds nothing. *)
Lemma created_then_again (r0 : Remote) (messages : list Message)
      (ck sk : str) (existingPerson : option Person) :
  reachesDuplicateCheck g cookieFile web r0 messages ck sk ->
  quota r0 = None ->
  idsIssued r0 ->
  contactPersonFirstName g = split_space_0 (contactPersonName g) ->
  searchHit r0 (contactPersonFirstName g) (contactPersonName g) = true ->
  existingPersonOf toLowerCase g r0 = existingPerson ->
  match existingPerson with
  | Some p =>
      Forall (fun d => dealIncludes r0 (openingText messages) d = false)
             (dealsOf r0 (person_id p))
  | None => True
  end ->
  let newPerson := match existingPerson with
                   | Some p => person_id p
                   | None => nextId r0
                   end in
  let newDeal := match existingPerson with
                 | Some _ => nextId r0
                 | None => (nextId r0 + 1)%Z
                 end in
  let r1 := afterAll (createdRequests g r0 existingPerson messages ck sk) r0 in
  exists r2,
    main toLowerCase g cookieFile web r1
    = (Ok (mkReport synced_notes_to_existing_deal (Some newPerson)
                    (Some newDeal) 0), r2)
    /\ persons r2 = persons r1 /\ deals r2 = deals r1
    /\ notes r2 = notes r1.
Proof.
  intros Hready Hq Hids Hfirst Hhit Hex Hnone newPerson newDeal r1.
  destruct (created_tables g r0 existingPerson messages ck sk)
    as (E1 & E2 & E3).
  fold newPerson newDeal r1 in E1, E2, E3.
  set (D := mkDeal newDeal (dealTitleOf g (openingMessage messages))
                   DEAL_OWNER_USER_ID (Some newPerson)
                   [(ck, sourceChannelOptionId (cfg g));
                    (sk, sourceCompanyOptionId (cfg g))] false) in *.
  set (p1 := match existingPerson with
             | Some p => p
             | None => mkPerson newPerson (Some (contactPersonName g))
             end).
  assert (Hp1 : person_id p1 = newPerson)
    by (unfold p1, newPerson; now destruct existingPerson).
  assert (Hq1 : quota r1 = None) by (unfold r1; now rewrite afterAll_quota).
  assert (Hf1 : dealFields r1 = dealFields r0)
    by (unfold r1; apply afterAll_dealFields).
  assert (Hs1 : searchHit r1 = searchHit r0)
    by (unfold r1; apply afterAll_searchHit).
  assert (Hfresh : (nextId r0 <= newDeal)%Z)
    by (unfold newDeal; destruct existingPerson; lia).
  assert (Hnotes : forall x,
             notesOf r1 x
             = notesOf r0 x
               ++ filter (fun n => (note_deal_id n =? x)%Z)
                    (notesPosted (newDeal + 1) newDeal
                       (noteLinkOf g :: map formatNoteHtml messages)))
    by (intros x; now apply notesOf_app).
  assert (Hfound : existingPersonOf toLowerCase g r1 = Some p1).
  { unfold existingPersonOf, searchOf in *. rewrite Hs1, E1, filter_app.
    unfold p1. destruct existingPerson as [p|].
    - cbn [filter]. rewrite app_nil_r. exact Hex.
    - cbn [filter person_name]. rewrite or_else_Some_nil, Hhit.
      erewrite find_app_none by exact Hex. cbn [find].
      unfold firstNameMatches. cbn [person_name].
      rewrite or_else_Some_nil, <- Hfirst, str_eqb_refl. reflexivity. }
  assert (Hdeals : dealsOf r1 (person_id p1)
                   = dealsOf r0 (person_id p1) ++ [D] ++ []).
  { unfold dealsOf. rewrite E2, filter_app. f_equal.
    cbn [filter app]. unfold D at 1. cbn [deal_person_id deal_deleted].
    now rewrite Hp1, Z.eqb_refl. }
  apply (@main_nothing_to_add r1 messages ck sk p1
           (dealsOf r0 (person_id p1)) D []) in Hdeals.
  - destruct Hdeals as (r2 & Hrun & Htabs). exists r2.
    rewrite Hp1 in Hrun. split; [exact Hrun|exact Htabs].
  - exact (@reaches_again r0 r1 _ _ _ Hready Hf1).
  - exact Hq1.
  - exact Hfound.
  - apply Forall_forall. intros d' Hin.
    pose proof (@dealsOf_issued r0 _ d' Hids Hin) as Hlt.
    unfold dealIncludes. rewrite Hnotes.
    rewrite notesPosted_filter_other by lia. rewrite app_nil_r.
    unfold p1 in Hin.
    destruct existingPerson as [p|].
    + rewrite Forall_forall in Hnone. now apply Hnone.
    + cbn [person_id] in Hin.
      rewrite (@dealsOf_not_issued r0 newPerson Hids) in Hin by
          (unfold newPerson; lia).
      destruct Hin.
  - apply Forall_forall. intros m Hm.
    change (deal_id D) with newDeal. rewrite Hnotes, someNoteIncludes_app.
    rewrite notesPosted_filter_same.
    cbn [notesPosted]. unfold someNoteIncludes at 2. cbn [existsb].
    fold (someNoteIncludes
            (notesPosted (newDeal + 1 + 1) newDeal
                         (map formatNoteHtml messages)) (text m)).
    rewrite (@posted_includes _ _ messages m Hm). now rewrite !orb_true_r.
Qed.
End SecondRun.

Lemma missingFrom_spec (existingNotes : list Note) (messages : list Message)
      (m : Message) :
  In m (missingFrom existingNotes messages) <->
  In m messages
  /\ ~ exists n, In n existingNotes
                 /\ exists a b, or_else (note_content n) [] = a ++ text m ++ b.
Proof.
  unfold missingFrom. rewrite filter_In, <- someNoteIncludes_spec.
  destruct (someNoteIncludes existingNotes (text m)); simpl;
    split; intros [H1 H2]; split; trivial; congruence.
Qed.

(** C1.  First part, idempotence: when a run of [main] returned against a
    store that answers, whose ids were issued by it and whose text search
    returns a contact stored under the display name when asked for its
    first name, then a second run on the same thread against the store the
    first run left returns as well, with [notesAdded] equal to 0 and the
    [personId] and [dealId] of the first run, and leaves the tables as they
    are.  Second part, the test: a run that synchronises with the owning
    deal [d] counts and posts exactly the messages that [missingFrom]
    keeps, which are the messages whose text is contained, as a substring,
    in the content of no note of the deal.  Third part, containment is not
    equality: in scenario B the only note of deal 11 is the opening text
    Labdien inside a paragraph tag, so it is not equal to the text, and the
    run adds the two other messages only. *)
Theorem main_twice_adds_nothing :
  (forall (toLowerCase : str -> str) (p : Process) (g : Globals)
          (cookieFile : option str) (web : Web) (r0 r1 : Remote)
          (report1 : Report),
      startup toLowerCase p = Some g ->
      quota r0 = None ->
      idsIssued r0 ->
      searchHit r0 (contactPersonFirstName g) (contactPersonName g) = true ->
      main toLowerCase g cookieFile web r0 = (Ok report1, r1) ->
      exists r2,
        main toLowerCase g cookieFile web r1
        = (Ok (mkReport synced_notes_to_existing_deal (personId report1)
                        (dealId report1) 0), r2)
        /\ persons r2 = persons r1 /\ deals r2 = deals r1
        /\ notes r2 = notes r1)
  /\ ((forall (toLowerCase : str -> str) (g : Globals)
              (cookieFile : option str) (web : Web) (r : Remote)
              (messages : list Message) (ck sk : str) (p : Person)
              (pre : list Deal) (d : Deal) (post : list Deal),
          reachesDuplicateCheck g cookieFile web r messages ck sk ->
          quota r = None ->
          existingPersonOf toLowerCase g r = Some p ->
          dealsOf r (person_id p) = pre ++ d :: post ->
          Forall (fun d' => ~ holdsText r (openingText messages) d') pre ->
          holdsText r (openingText messages) d ->
          let missing := missingFrom (notesOf r (deal_id d)) messages in
          exists r',
            main toLowerCase g cookieFile web r
            = (Ok (mkReport synced_notes_to_existing_deal
                            (Some (person_id p)) (Some (deal_id d))
                            (length missing)), r')
            /\ notes r'
               = notes r ++ notesPosted (nextId r) (deal_id d)
                                        (map formatNoteHtml missing))
      /\ (forall (existingNotes : list Note) (messages : list Message)
                 (m : Message),
             In m (missingFrom existingNotes messages) <->
             In m messages
             /\ ~ exists n,
                  In n existingNotes
                  /\ exists a b,
                       or_else (note_content n) [] = a ++ text m ++ b))
  /\ (exists report r',
        ScenarioB.run = (Ok report, r')
        /\ notesAdded report = 2
        /\ openingText Sample.messagesA = lit "Labdien"
        /\ notesOf ScenarioB.store 11
           = [mkNote 21 11 (Some (lit "<p>Labdien</p>"))]
        /\ map id (missingFrom (notesOf ScenarioB.store 11) Sample.messagesA)
           = [lit "5"; lit "9"]).
Proof.
  split; [|split; [split|]].
  - intros toLowerCase p g cookieFile web r0 r1 report1 Hstart Hq Hids Hhit
           Hrun.
    destruct (@main_Ok_reaches toLowerCase g cookieFile web r0 r1 report1
                Hq Hrun) as (messages & ck & sk & Hready).
    destruct (startup_names _ _ Hstart) as [_ Hfirst].
    destruct (existingPersonOf toLowerCase g r0) as [p0|] eqn:Hex.
    + destruct (first_owner r0 (openingText messages)
                            (dealsOf r0 (person_id p0)))
        as [Hnone|(pre & d & post & Hdeals & Hpre & Hd)].
      * pose proof (@main_created toLowerCase g cookieFile web r0 messages
                      ck sk Hready Hq) as Hc.
        cbv zeta in Hc. unfold existingPersonOf in Hex. rewrite Hex in Hc.
        specialize (Hc Hnone). rewrite Hrun in Hc.
        injection Hc as -> ->.
        exact (@created_then_again toLowerCase g cookieFile web r0 messages
                 ck sk (Some p0) Hready Hq Hids Hfirst Hhit Hex Hnone).
      * pose proof (@main_synced toLowerCase g cookieFile web r0 messages
                      ck sk p0 pre d post Hready Hq Hex Hdeals Hpre Hd) as Hc.
        cbv zeta in Hc. rewrite Hrun in Hc. injection Hc as -> ->.
        refine (@synced_then_again toLowerCase g cookieFile web r0 messages
                  ck sk p0 pre d post
                  ([GetDealFields; SearchPersons (contactPersonFirstName g);
                    GetPersonDeals (person_id p0)] ++ getNotesOf (pre ++ [d]))
                  Hready Hq Hex Hdeals Hpre Hd _).
        apply Forall_app. split; [repeat constructor|apply getNotesOf_reading].
    + pose proof (@main_created toLowerCase g cookieFile web r0 messages
                    ck sk Hready Hq) as Hc.
      cbv zeta in Hc. unfold existingPersonOf in Hex. rewrite Hex in Hc.
      specialize (Hc I). rewrite Hrun in Hc. injection Hc as -> ->.
      exact (@created_then_again toLowerCase g cookieFile web r0 messages
               ck sk None Hready Hq Hids Hfirst Hhit Hex I).
  - intros toLowerCase g cookieFile web r messages ck sk p pre d post
           Hready Hq Hex Hdeals Hpre Hd missing.
    apply Forall_not_holdsText in Hpre. apply dealIncludes_spec in Hd.
    pose proof (@main_synced toLowerCase g cookieFile web r messages ck sk
                  p pre d post Hready Hq Hex Hdeals Hpre Hd) as Hc.
    cbv zeta in Hc. fold missing in Hc. eexists. split; [exact Hc|].
    change ([GetDealFields; SearchPersons (contactPersonFirstName g);
             GetPersonDeals (person_id p)]
            ++ getNotesOf (pre ++ [d]) ++ postNotesOf (deal_id d) missing)
      with (([GetDealFields; SearchPersons (contactPersonFirstName g);
              GetPersonDeals (person_id p)] ++ getNotesOf (pre ++ [d]))
            ++ postNotesOf (deal_id d) missing).
    apply synced_tables.
    apply Forall_app. split; [repeat constructor|apply getNotesOf_reading].
  - apply missingFrom_spec.
  - eexists. eexists. split; [vm_compute; reflexivity|].
    repeat split; vm_compute; reflexivity.
Qed.

(** The first part of the theorem at scenario A: the second run against the
    store the first run left reports the contact 1 and the deal 2 of the
    first run and adds no note. *)
Lemma main_twice_adds_nothing_witness :
  startup toLowerCaseLatin (Scenario.process Scenario.janisBerzins)
  = Some (Scenario.globalsOf Scenario.janisBerzins)
  /\ idsIssued Scenario.emptyStore
  /\ fst Scenario.runA
     = Ok (mkReport created_new_deal (Some 1%Z) (Some 2%Z) 3)
  /\ exists r2,
       main toLowerCaseLatin (Scenario.globalsOf Scenario.janisBerzins)
            (Some (lit "sid=1")) (Sample.web (Sample.page Sample.chatA))
            (snd Scenario.runA)
       = (Ok (mkReport synced_notes_to_existing_deal (Some 1%Z) (Some 2%Z) 0),
          r2)
       /\ notes r2 = notes (snd Scenario.runA).
Proof.
  assert (Hstart : startup toLowerCaseLatin
                     (Scenario.process Scenario.janisBerzins)
                   = Some (Scenario.globalsOf Scenario.janisBerzins))
    by (vm_compute; reflexivity).
  assert (Hids : idsIssued Scenario.emptyStore) by (repeat split; constructor).
  assert (Hrun : main toLowerCaseLatin
                   (Scenario.globalsOf Scenario.janisBerzins)
                   (Some (lit "sid=1")) (Sample.web (Sample.page Sample.chatA))
                   Scenario.emptyStore
                 = (Ok (mkReport created_new_deal (Some 1%Z) (Some 2%Z) 3),
                    snd Scenario.runA)) by (vm_compute; reflexivity).
  split; [exact Hstart|]. split; [exact Hids|].
  split; [vm_compute; reflexivity|].
  destruct (proj1 main_twice_adds_nothing toLowerCaseLatin
              (Scenario.process Scenario.janisBerzins)
              (Scenario.globalsOf Scenario.janisBerzins)
              (Some (lit "sid=1")) (Sample.web (Sample.page Sample.chatA))
              Scenario.emptyStore (snd Scenario.runA) _
              Hstart eq_refl Hids eq_refl Hrun)
    as (r2 & Hrun2 & _ & _ & Hnotes).
  exists r2. split; [exact Hrun2|exact Hnotes].
Defined.

(* ===================================================================== *)
(** * Further properties of the scraper *)
(* ===================================================================== *)

(** ** The chat container *)

Lemma chatDiv_starts (s : str) :
  starts_with chat_open s = false -> Regex.chatDiv s = None.
Proof.
  unfold starts_with, Regex.chatDiv, chat_open.
  now destruct (strip_prefix _ s).
Qed.

Lemma exec_from_chatDiv_none (s : str) (pos : nat) :
  includes s chat_open = false ->
  Regex.exec_from Regex.chatDiv pos s = None.
Proof.
  revert pos. induction s as [|c s IH]; intros pos; [reflexivity|].
  cbn [includes]. intros H. apply orb_false_iff in H as [H1 H2].
  cbn [Regex.exec_from]. unfold Regex.match_at.
  rewrite (chatDiv_starts _ H1). now apply IH.
Qed.

(** X1: a page that is not a redirection to the login and does not contain
    the opening of the chat container makes [fetchAllMessages] throw
    Could not find chat div in HTML, after the two console lines. *)
Theorem fetchAllMessages_no_container (web : Web) (cookieString u : str) :
  redirectedToLogin (web cookieString u) = false ->
  includes (body (web cookieString u)) chat_open = false ->
  fetchAllMessages web cookieString u
  = (Throw ChatDivNotFound,
     [LogFetching u; LogPageLoaded (length (body (web cookieString u)))]).
Proof.
  intros Hurl Hno. unfold fetchAllMessages. rewrite Hurl.
  unfold Regex.exec. now rewrite (@exec_from_chatDiv_none _ 0 Hno).
Qed.

Lemma fetchAllMessages_no_container_witness :
  redirectedToLogin (Sample.web SampleMore.pageNoChat [] Sample.threadUrl)
  = false
  /\ includes (body (Sample.web SampleMore.pageNoChat [] Sample.threadUrl))
              chat_open = false
  /\ fetchAllMessages (Sample.web SampleMore.pageNoChat) [] Sample.threadUrl
     = (Throw ChatDivNotFound,
        [LogFetching Sample.threadUrl;
         LogPageLoaded (length SampleMore.pageNoChat)]).
Proof.
  assert (H1 : redirectedToLogin
                 (Sample.web SampleMore.pageNoChat [] Sample.threadUrl) = false)
    by (vm_compute; reflexivity).
  assert (H2 : includes
                 (body (Sample.web SampleMore.pageNoChat [] Sample.threadUrl))
                 chat_open = false) by (vm_compute; reflexivity).
  split; [exact H1|]. split; [exact H2|].
  exact (fetchAllMessages_no_container _ _ _ H1 H2).
Defined.

(** ** The fields of the returned messages *)

Lemma messageMatchesOf_digits (chatContent : str) :
  Forall (fun b => blockId b <> [] /\
                   Forall (fun c => is_digit c = true) (blockId b))
         (messageMatchesOf chatContent).
Proof.
  unfold messageMatchesOf, Regex.matchAll.
  apply (exec_all_groups Regex.messageBlock
           (fun g => fst (fst g) <> [] /\
                     Forall (fun c => is_digit c = true) (fst (fst g)))).
  intros s [[g1 g2] g3] rest E. simpl. now apply messageBlock_id in E.
Qed.

(** Each message pushed comes from a block of the list, with the fields the
    loop gives it. *)
Lemma scanMessages_fields (cc : str) (texts : Map)
      (blocks : list (Match (str * str * str))) :
  forall dates cur,
    Forall (fun m =>
              exists b, In b blocks
                        /\ id m = blockId b
                        /\ Map_get (id m) texts = Some (text m)
                        /\ text m <> []
                        /\ time m = trim (blockTime b)
                        /\ direction m
                           = if includes (blockMarkup b) sent_marker
                             then sent else received)
           (fst (scanMessages cc texts dates cur blocks)).
Proof.
  induction blocks as [|b blocks IH]; intros dates cur; [constructor|].
  rewrite scanMessages_cons. cbv zeta.
  assert (Hrest : Forall (fun m =>
              exists b0, In b0 (b :: blocks)
                        /\ id m = blockId b0
                        /\ Map_get (id m) texts = Some (text m)
                        /\ text m <> []
                        /\ time m = trim (blockTime b0)
                        /\ direction m
                           = if includes (blockMarkup b0) sent_marker
                             then sent else received)
           (fst (scanMessages cc texts (fst (advance cc (index b) dates cur))
                              (snd (advance cc (index b) dates cur)) blocks))).
  { eapply Forall_impl; [|apply IH]. cbv beta.
    intros m (b0 & Hin & H). exists b0. split; [now right|exact H]. }
  unfold hasText. destruct (Map_get (blockId b) texts) as [[|c t]|] eqn:E;
    cbn [or_else truthy]; cbn [fst]; try exact Hrest.
  constructor; [|exact Hrest].
  exists b. cbn [id text time direction]. rewrite E.
  repeat split; [now left|discriminate].
Qed.

(** X2: every message [fetchAllMessages] returns comes from a message block
    of the chat region: its id is the anchor of the block, a non-empty
    string of decimal digits; its text is the entry of the text lookup for
    that id and is not empty; its time is the trimmed content of the time
    cell; and its direction is sent exactly when the markup of the block
    contains the colour #d3f0f8. *)
Theorem fetchAllMessages_fields (web : Web) (cookieString u : str)
        (messages : list Message) (console : list Console) (cc : str) :
  fetchAllMessages web cookieString u = (Ok messages, console) ->
  chatContentOf (body (web cookieString u)) = Some cc ->
  Forall (fun m =>
            exists b, In b (messageMatchesOf cc)
                      /\ id m = blockId b
                      /\ id m <> []
                      /\ Forall (fun c => is_digit c = true) (id m)
                      /\ Map_get (id m) (messageTextsOf cc) = Some (text m)
                      /\ text m <> []
                      /\ time m = trim (blockTime b)
                      /\ (direction m = sent <->
                          includes (blockMarkup b) sent_marker = true))
         messages.
Proof.
  intros Hf Hcc.
  destruct (fetchAllMessages_Ok _ _ _ Hf) as (cc' & Hcc' & _ & Hm & _).
  assert (cc' = cc) as -> by congruence. subst messages.
  rewrite (sort_perm byId (pushedOf cc)).
  pose proof (messageMatchesOf_digits cc) as Hd. rewrite Forall_forall in Hd.
  eapply Forall_impl;
    [|apply (scanMessages_fields cc (messageTextsOf cc) (messageMatchesOf cc)
               (dateMatchesOf cc) None)].
  cbv beta. intros m (b & Hin & Hid & Htext & Hne & Htime & Hdir).
  exists b. destruct (Hd b Hin) as [Hd1 Hd2]. rewrite Hid.
  repeat split; trivial; try (now rewrite <- Hid).
  - intros Hs. rewrite Hdir in Hs.
    now destruct (includes (blockMarkup b) sent_marker).
  - intros Hs. now rewrite Hdir, Hs.
Qed.

Lemma fetchAllMessages_fields_witness :
  fetchAllMessages (Sample.web (Sample.page Sample.chatA)) [] Sample.threadUrl
  = (Ok Sample.messagesA, Sample.consoleA)
  /\ chatContentOf (body (Sample.web (Sample.page Sample.chatA) [] Sample.threadUrl))
     = Some Sample.chatA
  /\ map (fun m => (id m, direction m)) Sample.messagesA
     = [(lit "3", sent); (lit "5", received); (lit "9", received)]
  /\ Forall (fun m =>
            exists b, In b (messageMatchesOf Sample.chatA)
                      /\ id m = blockId b
                      /\ id m <> []
                      /\ Forall (fun c => is_digit c = true) (id m)
                      /\ Map_get (id m) (messageTextsOf Sample.chatA)
                         = Some (text m)
                      /\ text m <> []
                      /\ time m = trim (blockTime b)
                      /\ (direction m = sent <->
                          includes (blockMarkup b) sent_marker = true))
         Sample.messagesA.
Proof.
  assert (H1 : fetchAllMessages (Sample.web (Sample.page Sample.chatA)) []
                 Sample.threadUrl = (Ok Sample.messagesA, Sample.consoleA))
    by (vm_compute; reflexivity).
  assert (H2 : chatContentOf
                 (body (Sample.web (Sample.page Sample.chatA) [] Sample.threadUrl))
               = Some Sample.chatA) by (vm_compute; reflexivity).
  split; [exact H1|]. split; [exact H2|]. split; [vm_compute; reflexivity|].
  exact (fetchAllMessages_fields _ _ _ H1 H2).
Defined.

(** ** The text lookup *)

Lemma Map_get_app (k : str) (m1 m2 : Map) :
  Map_get k (m1 ++ m2)
  = match Map_get k m1 with Some v => Some v | None => Map_get k m2 end.
Proof.
  induction m1 as [|[k' v] m1 IH]; simpl; [reflexivity|].
  now destruct (str_eqb k' k).
Qed.

(** The map the [while] loop over the scripts builds: the [set] calls, the
    latest first. *)
Lemma messageTexts_fold (sms : list (Match (str * str))) (acc : Map) :
  fold_left (fun m sm => Map_set (snd (groups sm)) (fst (groups sm)) m) sms acc
  = rev (map (fun sm => (snd (groups sm), fst (groups sm))) sms) ++ acc.
Proof.
  revert acc. induction sms as [|sm sms IH]; intros acc; simpl; [reflexivity|].
  rewrite IH. unfold Map_set. now rewrite <- app_assoc.
Qed.

(** The lookup of an id in the scripts [pre ++ [sm]], when [sm] is the last
    one. *)
Lemma Map_get_last (k : str) (sms : list (Match (str * str))) :
  Map_get k (rev (map (fun sm => (snd (groups sm), fst (groups sm))) sms))
  = match find (fun sm => str_eqb (snd (groups sm)) k) (rev sms) with
    | Some sm => Some (fst (groups sm))
    | None => None
    end.
Proof.
  rewrite <- map_rev. induction (rev sms) as [|sm l IH]; simpl; [reflexivity|].
  now destruct (str_eqb (snd (groups sm)) k).
Qed.

(** X3: when several inline scripts carry the same message id, the last one
    in the page wins: the text of a returned message is group 1 of the last
    script, in document order, whose group 2 is the id of the message. *)
Theorem fetchAllMessages_last_script_wins (web : Web) (cookieString u : str)
        (messages : list Message) (console : list Console) (cc : str) :
  fetchAllMessages web cookieString u = (Ok messages, console) ->
  chatContentOf (body (web cookieString u)) = Some cc ->
  Forall (fun m =>
            exists pre sm post,
              scriptMatchesOf cc = pre ++ sm :: post
              /\ snd (groups sm) = id m
              /\ fst (groups sm) = text m
              /\ Forall (fun later => snd (groups later) <> id m) post)
         messages.
Proof.
  intros Hf Hcc.
  destruct (fetchAllMessages_Ok _ _ _ Hf) as (cc' & Hcc' & _ & Hm & _).
  assert (cc' = cc) as -> by congruence. subst messages.
  rewrite (sort_perm byId (pushedOf cc)).
  eapply Forall_impl;
    [|apply (scanMessages_fields cc (messageTextsOf cc) (messageMatchesOf cc)
               (dateMatchesOf cc) None)].
  cbv beta. intros m (b & _ & _ & Htext & _).
  unfold messageTextsOf in Htext. fold (scriptMatchesOf cc) in Htext.
  rewrite messageTexts_fold, app_nil_r, Map_get_last in Htext.
  pose proof (find_first (fun sm => str_eqb (snd (groups sm)) (id m))
                         (rev (scriptMatchesOf cc))) as Hfind.
  destruct (find _ (rev (scriptMatchesOf cc))) as [sm|]; [|discriminate].
  destruct Hfind as (pre & post & E & Hsm & Hpre).
  injection Htext as Htext.
  exists (rev post), sm, (rev pre). repeat split.
  - rewrite <- (rev_involutive (scriptMatchesOf cc)), E, rev_app_distr.
    simpl. now rewrite <- app_assoc.
  - now apply str_eqb_eq.
  - exact Htext.
  - apply Forall_forall. intros later Hin. apply in_rev in Hin.
    rewrite Forall_forall in Hpre. specialize (Hpre later Hin).
    intros Heq. apply str_eqb_eq in Heq. congruence.
Qed.

Lemma fetchAllMessages_last_script_wins_witness :
  fetchAllMessages (Sample.web (Sample.page SampleMore.chatTwoScripts)) []
                   Sample.threadUrl
  = (Ok SampleMore.messagesTwoScripts,
     snd (fetchAllMessages (Sample.web (Sample.page SampleMore.chatTwoScripts))
                           [] Sample.threadUrl))
  /\ chatContentOf (body (Sample.web (Sample.page SampleMore.chatTwoScripts) []
                                     Sample.threadUrl))
     = Some SampleMore.chatTwoScripts
  /\ map (fun sm => fst (groups sm))
         (scriptMatchesOf SampleMore.chatTwoScripts)
     = [lit "Labdien"; lit "Labdien, vai auto ir pieejams?"]
  /\ map text SampleMore.messagesTwoScripts
     = [lit "Labdien, vai auto ir pieejams?"]
  /\ Forall (fun m =>
            exists pre sm post,
              scriptMatchesOf SampleMore.chatTwoScripts = pre ++ sm :: post
              /\ snd (groups sm) = id m
              /\ fst (groups sm) = text m
              /\ Forall (fun later => snd (groups later) <> id m) post)
         SampleMore.messagesTwoScripts.
Proof.
  assert (H1 : fetchAllMessages
                 (Sample.web (Sample.page SampleMore.chatTwoScripts)) []
                 Sample.threadUrl
               = (Ok SampleMore.messagesTwoScripts,
                  snd (fetchAllMessages
                         (Sample.web (Sample.page SampleMore.chatTwoScripts))
                         [] Sample.threadUrl)))
    by (vm_compute; reflexivity).
  assert (H2 : chatContentOf
                 (body (Sample.web (Sample.page SampleMore.chatTwoScripts) []
                                   Sample.threadUrl))
               = Some SampleMore.chatTwoScripts) by (vm_compute; reflexivity).
  split; [exact H1|]. split; [exact H2|].
  split; [vm_compute; reflexivity|]. split; [vm_compute; reflexivity|].
  exact (fetchAllMessages_last_script_wins _ _ _ H1 H2).
Defined.

(** ** Messages with the same number *)

Section SortStable.
Variable A : Type.
Variable compareFn : A -> A -> Z.
Variable key : A -> Z.
Variable P : A -> Prop.
Hypothesis compareFn_key :
  forall a b, P a -> P b -> compareFn a b = (key a - key b)%Z.

Lemma sort_insert_stable (k : Z) (x : A) (l : list A) :
  P x -> Forall P l ->
  filter (fun y => (key y =? k)%Z) (sort_insert compareFn x l)
  = filter (fun y => (key y =? k)%Z) (x :: l).
Proof.
  intros Px Pl. induction Pl as [|y l Py Pl IH]; [reflexivity|].
  cbn [sort_insert]. rewrite (compareFn_key Px Py).
  destruct (Z.ltb_spec 0 (key x - key y)) as [Hlt|Hge]; [|reflexivity].
  cbn [filter] in *. rewrite IH.
  destruct (Z.eqb_spec (key y) k) as [Ey|Ey];
    destruct (Z.eqb_spec (key x) k) as [Ex|Ex]; try reflexivity. lia.
Qed.

Lemma sort_stable (k : Z) (l : list A) :
  Forall P l ->
  filter (fun y => (key y =? k)%Z) (sort compareFn l)
  = filter (fun y => (key y =? k)%Z) l.
Proof.
  induction 1 as [|x l Px Pl IH]; [reflexivity|].
  cbn [sort fold_right]. fold (sort compareFn l).
  rewrite sort_insert_stable;
    [|exact Px|now rewrite (sort_perm compareFn l)].
  cbn [filter]. now rewrite IH.
Qed.
End SortStable.

(** X4: the sort by id is stable: the returned messages whose ids have the
    same number (a repeated anchor, or anchors such as 05 and 5) stay in the
    order of their blocks in the page (the ids being safe integers). *)
Theorem fetchAllMessages_same_number_in_page_order
        (web : Web) (cookieString u : str)
        (messages : list Message) (console : list Console) (cc : str) (k : Z) :
  fetchAllMessages web cookieString u = (Ok messages, console) ->
  chatContentOf (body (web cookieString u)) = Some cc ->
  safeIds messages ->
  filter (fun m => (numericId m =? k)%Z) messages
  = filter (fun m => (numericId m =? k)%Z) (pushedOf cc)
  /\ map id (filter (fun m => (numericId m =? k)%Z) messages)
     = map blockId (filter (fun b => (blockNumber b =? k)%Z) (keptBlocks cc)).
Proof.
  intros Hf Hcc _.
  destruct (fetchAllMessages_Ok _ _ _ Hf) as (cc' & Hcc' & _ & Hm & _).
  assert (cc' = cc) as -> by congruence. subst messages.
  assert (E : filter (fun m => (numericId m =? k)%Z) (sort byId (pushedOf cc))
              = filter (fun m => (numericId m =? k)%Z) (pushedOf cc)).
  { apply sort_stable with (P := fun m => exists v, parseInt (id m) = Some v);
      [apply byId_numericId | apply pushedOf_numeric]. }
  split; [exact E|]. rewrite E.
  pose proof (pushedOf_ids cc) as Hids. revert Hids.
  generalize (keptBlocks cc) as bs. generalize (pushedOf cc) as ms.
  induction ms as [|m ms IH]; intros [|b bs] Hids; try discriminate;
    [reflexivity|].
  injection Hids as Hm Hrest. cbn [filter].
  unfold numericId at 1, blockNumber at 1. rewrite Hm.
  destruct (match parseInt (blockId b) with Some z => z | None => 0%Z end
            =? k)%Z; cbn [map]; rewrite (IH bs Hrest); congruence.
Qed.

Lemma fetchAllMessages_same_number_in_page_order_witness :
  fetchAllMessages (Sample.web (Sample.page SampleMore.chatSameNumber)) []
                   Sample.threadUrl
  = (Ok SampleMore.messagesSameNumber,
     snd (fetchAllMessages (Sample.web (Sample.page SampleMore.chatSameNumber))
                           [] Sample.threadUrl))
  /\ chatContentOf (body (Sample.web (Sample.page SampleMore.chatSameNumber) []
                                     Sample.threadUrl))
     = Some SampleMore.chatSameNumber
  /\ safeIds SampleMore.messagesSameNumber
  /\ map id SampleMore.messagesSameNumber = [lit "3"; lit "05"; lit "5"]
  /\ map id (filter (fun m => (numericId m =? 5)%Z)
                    SampleMore.messagesSameNumber)
     = map blockId (filter (fun b => (blockNumber b =? 5)%Z)
                           (keptBlocks SampleMore.chatSameNumber)).
Proof.
  assert (H1 : fetchAllMessages
                 (Sample.web (Sample.page SampleMore.chatSameNumber)) []
                 Sample.threadUrl
               = (Ok SampleMore.messagesSameNumber,
                  snd (fetchAllMessages
                         (Sample.web (Sample.page SampleMore.chatSameNumber))
                         [] Sample.threadUrl)))
    by (vm_compute; reflexivity).
  assert (H2 : chatContentOf
                 (body (Sample.web (Sample.page SampleMore.chatSameNumber) []
                                   Sample.threadUrl))
               = Some SampleMore.chatSameNumber) by (vm_compute; reflexivity).
  assert (H3 : safeIds SampleMore.messagesSameNumber)
    by (repeat constructor; vm_compute; reflexivity).
  split; [exact H1|]. split; [exact H2|]. split; [exact H3|].
  split; [vm_compute; reflexivity|].
  exact (proj2 (fetchAllMessages_same_number_in_page_order _ _ _ 5%Z H1 H2 H3)).
Defined.

(** ** Where the matches are *)

Lemma indexOf_from_bounds (needle : str) (k : nat) :
  forall (s rest : str) (p : nat),
    skipn k s = needle ++ rest ->
    (Z.of_nat p <= indexOf_from p s needle <= Z.of_nat (p + k))%Z.
Proof.
  induction k as [|k IH]; intros s rest p H.
  - simpl in H. destruct s as [|c s]; simpl;
      rewrite (proj2 (starts_with_spec needle _) (ex_intro _ rest H)); lia.
  - destruct s as [|c s].
    + simpl in H. destruct needle; [|discriminate].
      simpl. lia.
    + simpl in H. cbn [indexOf_from].
      destruct (starts_with needle (c :: s)); [lia|].
      specialize (IH s rest (S p) H). lia.
Qed.

Section DriverOffsets.
Variable G : Type.
Variable here : str -> option (G * str).

Lemma match_at_whole (pos : nat) (s : str) (m : Match G) (len : nat) :
  Regex.match_at here pos s = Some (m, len) ->
  exists rest, s = whole m ++ rest.
Proof.
  unfold Regex.match_at. destruct (here s) as [[g r]|]; [|discriminate].
  intros [= <- _]. cbn [whole].
  exists (skipn (length s - length r) s). now rewrite firstn_skipn.
Qed.

(** Every match is a piece of the text, at the offset it reports. *)
Lemma exec_all_occurs (skip pos : nat) (s : str) :
  Forall (fun m => exists rest, skipn (index m - pos) s = whole m ++ rest)
         (Regex.exec_all here skip pos s).
Proof.
  revert skip pos. induction s as [|c s IH]; intros skip pos; [constructor|].
  assert (Hshift : forall k,
             Forall (fun m => exists rest,
                         skipn (index m - pos) (c :: s) = whole m ++ rest)
                    (Regex.exec_all here k (S pos) s)).
  { intros k. destruct (exec_all_index here k (S pos) s) as [Hlo _].
    pose proof (IH k (S pos)) as H.
    rewrite Forall_forall in *. intros m Hm.
    destruct (H m Hm) as [rest E]. specialize (Hlo m Hm). exists rest.
    replace (index m - pos) with (S (index m - S pos)) by lia. exact E. }
  cbn [Regex.exec_all]. destruct skip as [|k]; [|apply Hshift].
  destruct (Regex.match_at here pos (c :: s)) as [[m len]|] eqn:E;
    [|apply Hshift].
  constructor; [|apply Hshift].
  destruct (match_at_index _ _ _ E) as [Ei _].
  destruct (match_at_whole _ _ E) as [rest Hw].
  exists rest. now rewrite Ei, Nat.sub_diag.
Qed.
End DriverOffsets.

Lemma date_marker_offset_bounds (cc : str) (d : Match str) :
  In d (dateMatchesOf cc) ->
  (0 <= datePosOf cc d <= Z.of_nat (index d))%Z.
Proof.
  intros Hin.
  pose proof (exec_all_occurs Regex.dateHeader 0 0 cc) as H.
  rewrite Forall_forall in H. destruct (H d Hin) as [rest E].
  rewrite Nat.sub_0_r in E. unfold datePosOf, indexOf.
  pose proof (@indexOf_from_bounds (whole d) (index d) cc rest 0 E).
  simpl in *. lia.
Qed.

Lemma StronglySorted_app_l (A : Type) (R : A -> A -> Prop) (l1 l2 : list A) :
  StronglySorted R (l1 ++ l2) -> StronglySorted R l1.
Proof.
  induction l1 as [|a l1 IH]; intros H; [constructor|].
  inversion H as [|? ? Hs Ha]; subst. constructor; [now apply IH|].
  rewrite Forall_forall in *. intros x Hx. apply Ha, in_or_app. now left.
Qed.

Lemma StronglySorted_app_r (A : Type) (R : A -> A -> Prop) (l1 l2 : list A) :
  StronglySorted R (l1 ++ l2) -> StronglySorted R l2.
Proof.
  induction l1 as [|a l1 IH]; intros H; [exact H|].
  inversion H; subst. now apply IH.
Qed.

(** X5: a date marker found in the chat region is a piece of the region at
    the offset of its match, so the offset the date pointer computes for it
    with [indexOf] is never -1 and never beyond the offset of the marker. *)
Theorem date_marker_offset (cc : str) (d : Match str) :
  In d (dateMatchesOf cc) ->
  (exists rest, skipn (index d) cc = whole d ++ rest)
  /\ (0 <= datePosOf cc d <= Z.of_nat (index d))%Z.
Proof.
  intros Hin.
  pose proof (exec_all_occurs Regex.dateHeader 0 0 cc) as H.
  rewrite Forall_forall in H. destruct (H d Hin) as [rest E].
  rewrite Nat.sub_0_r in E. split; [now exists rest|].
  now apply date_marker_offset_bounds.
Qed.

(** The theorem at the header that comes back in the page with a repeated
    header: the pointer computes the offset 0 of the first header for it. *)
Lemma date_marker_offset_witness :
  In SampleDates.repeatedHeader (dateMatchesOf Sample.chatRepeatedDate)
  /\ datePosOf Sample.chatRepeatedDate SampleDates.repeatedHeader = 0%Z
  /\ 0 < index SampleDates.repeatedHeader
  /\ (0 <= datePosOf Sample.chatRepeatedDate SampleDates.repeatedHeader
      <= Z.of_nat (index SampleDates.repeatedHeader))%Z.
Proof.
  assert (H : In SampleDates.repeatedHeader
                 (dateMatchesOf Sample.chatRepeatedDate)).
  { vm_compute. right. right. left. reflexivity. }
  split; [exact H|]. split; [vm_compute; reflexivity|].
  split; [apply Nat.ltb_lt; vm_compute; reflexivity|].
  exact (proj2 (date_marker_offset _ _ H)).
Defined.

(** ** The date pointer on any page *)

Section Pointer.
Variable cc : str.

Lemma advance_passed (i : nat) (dates : list (Match str)) (cur : option str) :
  advance cc i dates cur
  = (remaining cc i dates, labelAfter (passed cc i dates) cur).
Proof.
  revert cur. induction dates as [|d dates IH]; intros cur; [reflexivity|].
  cbn [advance passed remaining]. unfold datePosOf.
  destruct (indexOf cc (whole d) <? Z.of_nat i)%Z; [|reflexivity].
  now rewrite IH.
Qed.

Lemma passed_remaining (i : nat) (dates : list (Match str)) :
  dates = passed cc i dates ++ remaining cc i dates.
Proof.
  induction dates as [|d dates IH]; [reflexivity|]. cbn [passed remaining].
  destruct (datePosOf cc d <? Z.of_nat i)%Z; [|reflexivity].
  cbn [app]. now f_equal.
Qed.

Lemma passed_before (i : nat) (dates : list (Match str)) :
  Forall (fun d => (datePosOf cc d < Z.of_nat i)%Z) (passed cc i dates).
Proof.
  induction dates as [|d dates IH]; [constructor|]. cbn [passed].
  destruct (Z.ltb_spec (datePosOf cc d) (Z.of_nat i)); now constructor.
Qed.

Lemma remaining_head (i : nat) (dates : list (Match str)) (d : Match str)
      (rest : list (Match str)) :
  remaining cc i dates = d :: rest -> (Z.of_nat i <= datePosOf cc d)%Z.
Proof.
  induction dates as [|x dates IH]; [discriminate|]. cbn [remaining].
  destruct (Z.ltb_spec (datePosOf cc x) (Z.of_nat i)); [exact IH|].
  now intros [= <- _].
Qed.

(** Passing the markers for a block and then for a later block is passing
    them for the later block. *)
Lemma passed_twice (j i : nat) (all : list (Match str)) :
  j <= i ->
  passed cc j all ++ passed cc i (remaining cc j all) = passed cc i all
  /\ remaining cc i (remaining cc j all) = remaining cc i all.
Proof.
  intros Hji. induction all as [|d all [IH1 IH2]]; [now split|].
  cbn [passed remaining].
  destruct (Z.ltb_spec (datePosOf cc d) (Z.of_nat j)) as [Hj|Hj].
  - destruct (Z.ltb_spec (datePosOf cc d) (Z.of_nat i)); [|lia].
    cbn [app]. now rewrite IH1, IH2.
  - now split.
Qed.

(** The label the loop holds for each message is the label after the
    markers passed for its block. *)
Lemma scanMessages_passed (texts : Map) (all : list (Match str))
      (blocks : list (Match (str * str * str))) :
  StronglySorted (fun a b => index a < index b) blocks ->
  forall j,
    Forall (fun b => j <= index b) blocks ->
    Forall2 (fun b m =>
               id m = blockId b /\
               date m = or_else (labelAfter (passed cc (index b) all) None)
                                unknown_date)
            (filter (hasText texts) blocks)
            (fst (scanMessages cc texts (remaining cc j all)
                               (labelAfter (passed cc j all) None) blocks)).
Proof.
  induction 1 as [|b blocks Hs IH Hb]; intros j Hj; [constructor|].
  inversion Hj as [|? ? Hjb Hj']; subst.
  rewrite scanMessages_cons. cbv zeta. rewrite advance_passed. cbn [fst snd].
  destruct (passed_twice all Hjb) as [E1 E2].
  rewrite E2, <- labelAfter_app, E1.
  assert (Hnext : Forall2 (fun b0 m =>
               id m = blockId b0 /\
               date m = or_else (labelAfter (passed cc (index b0) all) None)
                                unknown_date)
            (filter (hasText texts) blocks)
            (fst (scanMessages cc texts (remaining cc (index b) all)
                    (labelAfter (passed cc (index b) all) None) blocks))).
  { apply IH. eapply Forall_impl; [|exact Hb]. cbv beta. intros; lia. }
  cbn [filter]. destruct (hasText texts b); [|exact Hnext].
  constructor; [|exact Hnext]. now split.
Qed.

Lemma labelAfter_last (l : list (Match str)) (d : Match str) :
  labelAfter (l ++ [d]) None = Some (trim (groups d)).
Proof. now rewrite labelAfter_app. Qed.
End Pointer.

Lemma passed_none (cc : str) (all : list (Match str)) :
  Forall (fun d => (0 <= datePosOf cc d)%Z) all ->
  passed cc 0 all = [] /\ remaining cc 0 all = all.
Proof.
  intros H. destruct H as [|d all Hd _]; [now split|].
  cbn [passed remaining].
  destruct (Z.ltb_spec (datePosOf cc d) (Z.of_nat 0)); [lia|now split].
Qed.

(** X6: on every page where [fetchAllMessages] succeeds, whether or not the
    markup of a date header repeats, the date of each message is either the
    label Unknown date or the non-empty trimmed text of a date marker whose
    markup occurs in the chat region before the block of the message; and
    when some date marker precedes the block, the date comes from that
    marker or from a marker further down the page, never from an older
    one. *)
Theorem fetchAllMessages_date_origin (web : Web) (cookieString u : str)
        (messages : list Message) (console : list Console) (cc : str) :
  fetchAllMessages web cookieString u = (Ok messages, console) ->
  chatContentOf (body (web cookieString u)) = Some cc ->
  Permutation messages (pushedOf cc)
  /\ Forall2 (fun b m =>
                id m = blockId b
                /\ (date m = unknown_date
                    \/ exists d, In d (dateMatchesOf cc)
                                 /\ date m = trim (groups d)
                                 /\ date m <> []
                                 /\ (0 <= datePosOf cc d < Z.of_nat (index b))%Z)
                /\ forall d0, In d0 (dateMatchesOf cc) ->
                              index d0 < index b ->
                              exists d, In d (dateMatchesOf cc)
                                        /\ index d0 <= index d
                                        /\ date m
                                           = or_else (Some (trim (groups d)))
                                                     unknown_date)
             (keptBlocks cc) (pushedOf cc).
Proof.
  intros Hf Hcc.
  destruct (fetchAllMessages_Ok _ _ _ Hf) as (cc' & Hcc' & _ & Hm & _).
  assert (cc' = cc) as -> by congruence. subst messages.
  split; [apply sort_perm|].
  set (all := dateMatchesOf cc).
  assert (Hpos : forall d, In d all ->
                           (0 <= datePosOf cc d <= Z.of_nat (index d))%Z)
    by (intros d Hd; now apply date_marker_offset_bounds).
  pose proof (dateMatchesOf_sorted cc) as Hsorted. fold all in Hsorted.
  destruct (@passed_none cc all) as [E1 E2].
  { apply Forall_forall. intros d Hd. now apply Hpos. }
  pose proof (@scanMessages_passed cc (messageTextsOf cc) all
                (messageMatchesOf cc) (messageMatchesOf_sorted cc) 0) as H.
  rewrite E1, E2 in H. cbn [labelAfter fold_left] in H.
  specialize (H ltac:(apply Forall_forall; intros; lia)).
  unfold keptBlocks, pushedOf. fold all.
  eapply Forall2_impl; [|exact H]. clear H.
  intros b m [Hid Hdate]. split; [exact Hid|].
  pose proof (passed_remaining cc (index b) all) as Hsplit.
  pose proof (passed_before cc (index b) all) as Hbefore.
  rewrite Forall_forall in Hbefore.
  assert (Hin : forall d, In d (passed cc (index b) all) -> In d all).
  { intros d Hd. rewrite Hsplit. apply in_or_app. now left. }
  destruct (passed cc (index b) all) as [|x l] eqn:Ep using rev_ind.
  - cbn in Hdate. split; [now left|].
    intros d0 Hd0 Hlt. exfalso.
    cbn [app] in Hsplit. rewrite Hsplit in Hd0.
    destruct (remaining cc (index b) all) as [|r rest] eqn:Er; [destruct Hd0|].
    pose proof (remaining_head _ _ _ Er) as Hr.
    assert (Hrin : In r all) by (rewrite Hsplit; now left).
    destruct Hd0 as [<-|Hd0].
    + specialize (Hpos r Hrin). lia.
    + rewrite Hsplit in Hsorted. inversion Hsorted as [|? ? _ Hall]; subst.
      rewrite Forall_forall in Hall. specialize (Hall d0 Hd0).
      specialize (Hpos r Hrin). lia.
  - clear IHl. rewrite labelAfter_last in Hdate.
    assert (Hx : In x (l ++ [x])) by (apply in_or_app; right; now left).
    split.
    + destruct (trim (groups x)) as [|c t] eqn:Et.
      * left. exact Hdate.
      * right. exists x. cbn [or_else truthy] in Hdate.
        split; [now apply Hin|]. rewrite Et.
        split; [exact Hdate|]. split; [rewrite Hdate; discriminate|].
        specialize (Hbefore x Hx). specialize (Hpos x (Hin x Hx)). lia.
    + intros d0 Hd0 Hlt. exists x. split; [now apply Hin|].
      split; [|exact Hdate].
      rewrite Hsplit in Hd0, Hsorted.
      apply in_app_or in Hd0 as [Hd0|Hd0].
      * apply in_app_or in Hd0 as [Hd0|[->|[]]]; [|lia].
        apply StronglySorted_app_l in Hsorted.
        apply StronglySorted_last in Hsorted.
        rewrite Forall_forall in Hsorted. specialize (Hsorted d0 Hd0).
        simpl in Hsorted. lia.
      * exfalso.
        destruct (remaining cc (index b) all) as [|r rest] eqn:Er;
          [destruct Hd0|].
        pose proof (remaining_head _ _ _ Er) as Hr.
        assert (Hrin : In r all).
        { rewrite Hsplit. apply in_or_app. right. now left. }
        specialize (Hpos r Hrin).
        destruct Hd0 as [<-|Hd0]; [lia|].
        apply StronglySorted_app_r in Hsorted.
        inversion Hsorted as [|? ? _ Hall]; subst.
        rewrite Forall_forall in Hall. specialize (Hall d0 Hd0). lia.
Qed.

(** The theorem on the page where the header of 1 February comes back after
    the header of 2 February: the message after the header of 2 February is
    dated 1 February, by the header that comes back further down. *)
Lemma fetchAllMessages_date_origin_witness :
  fetchAllMessages (Sample.web (Sample.page Sample.chatRepeatedDate)) []
                   Sample.threadUrl
  = (Ok SampleMore.messagesRepeatedDate,
     snd (fetchAllMessages (Sample.web (Sample.page Sample.chatRepeatedDate))
                           [] Sample.threadUrl))
  /\ chatContentOf (body (Sample.web (Sample.page Sample.chatRepeatedDate) []
                                     Sample.threadUrl))
     = Some Sample.chatRepeatedDate
  /\ map date SampleMore.messagesRepeatedDate
     = [lit "1. feb"; lit "1. feb"; lit "1. feb"]
  /\ Permutation SampleMore.messagesRepeatedDate
                 (pushedOf Sample.chatRepeatedDate).
Proof.
  assert (H1 : fetchAllMessages
                 (Sample.web (Sample.page Sample.chatRepeatedDate)) []
                 Sample.threadUrl
               = (Ok SampleMore.messagesRepeatedDate,
                  snd (fetchAllMessages
                         (Sample.web (Sample.page Sample.chatRepeatedDate))
                         [] Sample.threadUrl)))
    by (vm_compute; reflexivity).
  assert (H2 : chatContentOf
                 (body (Sample.web (Sample.page Sample.chatRepeatedDate) []
                                   Sample.threadUrl))
               = Some Sample.chatRepeatedDate) by (vm_compute; reflexivity).
  split; [exact H1|]. split; [exact H2|]. split; [vm_compute; reflexivity|].
  exact (proj1 (fetchAllMessages_date_origin _ _ _ H1 H2)).
Defined.

(* ===================================================================== *)
(** * Further properties of main *)
(* ===================================================================== *)

(** ** Failures before the store is reached *)

(** X7: when the cookies cannot be loaded, or the scraper throws (expired
    session, chat container not found or too short), [main] throws the same
    error and the record store is left exactly as it was, its request log
    included: no request is sent. *)
Theorem main_aborts_before_store (toLowerCase : str -> str) (g : Globals)
        (cookieFile : option str) (web : Web) (r : Remote) (e : Error) :
  scrapeOf g cookieFile web = Throw e ->
  main toLowerCase g cookieFile web r = (Throw e, r).
Proof.
  unfold scrapeOf, main. destruct cookieFile as [c|]; cbn [loadCookies].
  - intros H. erewrite bind_Ok by reflexivity. unfold bind, lift.
    now rewrite H.
  - now intros [= <-].
Qed.

(** The theorem on a page without the chat container, against the store of
    scenario B. *)
Lemma main_aborts_before_store_witness :
  scrapeOf ScenarioB.globals (Some (lit "sid=1"))
           (Sample.web SampleMore.pageNoChat) = Throw ChatDivNotFound
  /\ main toLowerCaseLatin ScenarioB.globals (Some (lit "sid=1"))
          (Sample.web SampleMore.pageNoChat) ScenarioB.store
     = (Throw ChatDivNotFound, ScenarioB.store).
Proof.
  assert (H : scrapeOf ScenarioB.globals (Some (lit "sid=1"))
                       (Sample.web SampleMore.pageNoChat)
              = Throw ChatDivNotFound) by (vm_compute; reflexivity).
  split; [exact H|].
  exact (main_aborts_before_store toLowerCaseLatin _ _ _ ScenarioB.store H).
Defined.

(** ** The custom field keys *)

(** X8: when the thread is parsed and not empty and the store answers, but
    the field table has no key, or an empty key, for the channel field 36 or
    for the company field 49, [main] throws Could not resolve custom deal
    field keys after the one request for the deal fields: no contact is
    searched and nothing is created. *)
Theorem main_field_keys_unresolved (toLowerCase : str -> str) (g : Globals)
        (cookieFile : option str) (web : Web) (r : Remote)
        (messages : list Message) :
  scrapeOf g cookieFile web = Ok messages ->
  messages <> [] ->
  quota r = None ->
  resolvedKey (byId_get SOURCE_CHANNEL_FIELD_ID (dealFields r))
  && resolvedKey (byId_get SOURCE_COMPANY_FIELD_ID (dealFields r)) = false ->
  exists r',
    main toLowerCase g cookieFile web r = (Throw FieldKeysUnresolved, r')
    /\ requests r' = requests r ++ [GetDealFields]
    /\ persons r' = persons r /\ deals r' = deals r /\ notes r' = notes r.
Proof.
  unfold scrapeOf. intros Hs Hne Hq Hkeys.
  destruct cookieFile as [c|]; [|discriminate]. cbn [loadCookies] in Hs.
  exists (after GetDealFields r). split; [|now repeat split].
  unfold main. cbn [loadCookies].
  erewrite bind_Ok by reflexivity.
  erewrite bind_Ok by (unfold lift; rewrite Hs; reflexivity).
  cbv beta. destruct messages as [|firstMessage rest]; [congruence|].
  run_with getDealFieldKeys_answered. cbv beta iota.
  destruct (byId_get SOURCE_CHANNEL_FIELD_ID (dealFields r)) as [ck|];
    [|reflexivity].
  destruct (byId_get SOURCE_COMPANY_FIELD_ID (dealFields r)) as [sk|];
    [|reflexivity].
  cbn [resolvedKey] in Hkeys.
  destruct (truthy ck), (truthy sk); try discriminate; reflexivity.
Qed.

Lemma main_field_keys_unresolved_witness :
  let r := mkRemote [(36%Z, lit "channel_key"); (49%Z, [])]
                    [ScenarioB.janis] [] [] 30 (fun _ _ => true) [] None in
  scrapeOf ScenarioB.globals (Some (lit "sid=1"))
           (Sample.web (Sample.page Sample.chatA)) = Ok Sample.messagesA
  /\ resolvedKey (byId_get SOURCE_CHANNEL_FIELD_ID (dealFields r))
     && resolvedKey (byId_get SOURCE_COMPANY_FIELD_ID (dealFields r)) = false
  /\ exists r',
       main toLowerCaseLatin ScenarioB.globals (Some (lit "sid=1"))
            (Sample.web (Sample.page Sample.chatA)) r
       = (Throw FieldKeysUnresolved, r')
       /\ requests r' = [GetDealFields].
Proof.
  intros r.
  assert (H : scrapeOf ScenarioB.globals (Some (lit "sid=1"))
                       (Sample.web (Sample.page Sample.chatA))
              = Ok Sample.messagesA) by (vm_compute; reflexivity).
  split; [exact H|]. split; [reflexivity|].
  destruct (@main_field_keys_unresolved toLowerCaseLatin ScenarioB.globals
              (Some (lit "sid=1")) (Sample.web (Sample.page Sample.chatA)) r
              Sample.messagesA H ltac:(discriminate) eq_refl eq_refl)
    as (r' & Hrun & Hreq & _).
  exists r'. split; [exact Hrun|exact Hreq].
Defined.

(** ** What every run does to the store *)

Lemma fetchAllMessages_error (web : Web) (cookieString u : str) :
  ~ gatewayFailure (fst (fetchAllMessages web cookieString u)).
Proof.
  unfold fetchAllMessages.
  destruct (redirectedToLogin (web cookieString u)); [exact (fun H => H)|].
  destruct (Regex.exec Regex.chatDiv (body (web cookieString u)));
    [|exact (fun H => H)].
  destruct (length (groups m) <? 50); [exact (fun H => H)|].
  destruct (scanMessages _ _ _ _ _). exact (fun H => H).
Qed.

Section Runs.

Variables A B : Type.

Lemma runsOn_lift (x : Res A) (r : Remote) :
  ~ gatewayFailure x -> runsOn r (lift x r).
Proof.
  intros Hx. exists [], [], [], []. cbn [lift fst snd length].
  rewrite !app_nil_r. repeat split; try lia.
  destruct (quota r) as [n|]; [left|]; repeat split; try assumption.
  - lia.
  - f_equal. lia.
Qed.

Lemma runsOn_ret (a : A) (r : Remote) : runsOn r (ret a r).
Proof. apply (runsOn_lift (Ok a)). exact (fun H => H). Qed.

Lemma runsOn_cast (e : Error) (r r' : Remote) :
  runsOn r (@Throw A e, r') -> runsOn r (@Throw B e, r').
Proof.
  intros (ps & ds & ns & qs & P & D & N & Q & F & S & I & C & G).
  exists ps, ds, ns, qs. cbn [fst snd] in *. repeat split; try assumption.
  destruct (quota r) as [n|].
  - destruct G as [(L & E & X)|(L & E & qs' & q & -> & [= ->] & C')].
    + left. repeat split; assumption.
    + right. repeat split; try assumption. now exists qs', q.
  - exact G.
Qed.

Lemma runsOn_bind (m : M A) (k : A -> M B) :
  (forall r, runsOn r (m r)) ->
  (forall a r, runsOn r (k a r)) ->
  forall r, runsOn r (bind m k r).
Proof.
  intros Hm Hk r. unfold bind. specialize (Hm r).
  destruct (m r) as [[a|e] r1]; [|now apply runsOn_cast].
  specialize (Hk a r1). destruct (k a r1) as [res r2].
  destruct Hm as (ps1 & ds1 & ns1 & qs1 & P1 & D1 & N1 & Q1 & F1 & S1 & I1
                  & C1 & G1).
  destruct Hk as (ps2 & ds2 & ns2 & qs2 & P2 & D2 & N2 & Q2 & F2 & S2 & I2
                  & C2 & G2).
  cbn [fst snd] in *.
  exists (ps1 ++ ps2), (ds1 ++ ds2), (ns1 ++ ns2), (qs1 ++ qs2).
  cbn [fst snd].
  rewrite P2, D2, N2, Q2, F2, S2, P1, D1, N1, Q1, F1, S1, !app_assoc,
    !length_app.
  repeat split; try lia.
  destruct (quota r) as [n|].
  - destruct G1 as [(L1 & E1 & _)|(_ & _ & qs' & q & _ & [=] & _)].
    rewrite E1 in G2.
    destruct G2 as [(L2 & E2 & X2)|(L2 & E2 & qs' & q & -> & X2 & C2')].
    + left. repeat split; try assumption; try lia.
      rewrite E2. f_equal. lia.
    + right. repeat split; try assumption; try lia.
      exists (qs1 ++ qs'), q. rewrite app_assoc, length_app.
      repeat split; try assumption. lia.
  - destruct G1 as (E1 & _). rewrite E1 in G2. exact G2.
Qed.

End Runs.

Lemma runsOn_pdFetch (req : Request) (r : Remote) : runsOn r (pdFetch req r).
Proof.
  unfold pdFetch, runsOn. destruct (quota r) as [[|k]|] eqn:Eq.
  - exists [], [], [], [req]. cbn. rewrite !app_nil_r, Eq.
    repeat split; try lia.
    right. repeat split. exists [], req. repeat split. cbn. lia.
  - destruct req; cbn;
      [ eexists [], [], [], [_]
      | eexists [], [], [], [_]
      | eexists [], [], [], [_]
      | eexists [], [], [], [_]
      | eexists [_], [], [], [_]
      | eexists [], [_], [], [_]
      | eexists [], [], [_], [_] ];
      cbn; rewrite ?app_nil_r, ?Eq;
      (repeat split; try lia);
      left; (repeat split; try lia; try (exact (fun H => H)));
      f_equal; lia.
  - destruct req; cbn;
      [ eexists [], [], [], [_]
      | eexists [], [], [], [_]
      | eexists [], [], [], [_]
      | eexists [], [], [], [_]
      | eexists [_], [], [], [_]
      | eexists [], [_], [], [_]
      | eexists [], [], [_], [_] ];
      cbn; rewrite ?app_nil_r, ?Eq;
      (repeat split; try lia); exact (fun H => H).
Qed.

Lemma runsOn_throw (A : Type) (e : Error) (r : Remote) :
  ~ gatewayFailure (@Throw A e) -> runsOn r (@throw A e r).
Proof. apply (@runsOn_lift A (Throw e)). Qed.

Ltac runs_step :=
  lazymatch goal with
  | |- runsOn _ (bind _ _ _) => apply runsOn_bind; [intros ?r | intros ?a ?r]
  | |- runsOn _ (pdFetch _ _) => apply runsOn_pdFetch
  | |- runsOn _ (ret _ _) => apply runsOn_ret
  | |- runsOn _ (throw _ _) => apply runsOn_throw; exact (fun H => H)
  end.

Ltac runs := repeat runs_step.

Lemma runsOn_created_id (resp : Json) (r : Remote) :
  runsOn r (created_id resp r).
Proof. destruct resp; cbn [created_id]; runs. Qed.

Lemma runsOn_addNote (dealId : Z) (content : str) (r : Remote) :
  runsOn r (addNote dealId content r).
Proof. unfold addNote. runs. apply runsOn_created_id. Qed.

Lemma runsOn_addAllNotes (dealId : Z) (messages : list Message) :
  forall (notesAdded : nat) (r : Remote),
    runsOn r (addAllNotes dealId messages notesAdded r).
Proof.
  induction messages as [|message messages' IH]; intros notesAdded r;
    cbn [addAllNotes]; [runs|].
  apply runsOn_bind; [intros r0|intros i r0].
  - apply runsOn_addNote.
  - apply IH.
Qed.

Lemma runsOn_addMissingNotes (dealId : Z) (existingNotes : list Note)
      (messages : list Message) :
  forall (notesAdded : nat) (r : Remote),
    runsOn r (addMissingNotes dealId existingNotes messages notesAdded r).
Proof.
  induction messages as [|message messages' IH]; intros notesAdded r;
    cbn [addMissingNotes]; [runs|].
  destruct (negb (someNoteIncludes existingNotes (text message)));
    [|apply IH].
  apply runsOn_bind; [intros r0|intros i r0].
  - apply runsOn_addNote.
  - apply IH.
Qed.

Lemma runsOn_scanDeals (firstMessage : Message) (messages : list Message)
      (ds : list Deal) :
  forall r : Remote, runsOn r (scanDeals firstMessage messages ds r).
Proof.
  induction ds as [|deal deals' IH]; intros r; cbn [scanDeals]; [runs|].
  apply runsOn_bind; [intros r0|intros existingNotes r0].
  - unfold getNotesForDeal. runs.
  - destruct (someNoteIncludes existingNotes (text firstMessage));
      [|apply IH].
    apply runsOn_bind; [intros r1|intros added r1]; [|runs].
    apply runsOn_addMissingNotes.
Qed.

Lemma runsOn_main (toLowerCase : str -> str) (g : Globals)
      (cookieFile : option str) (web : Web) (r : Remote) :
  runsOn r (main toLowerCase g cookieFile web r).
Proof.
  unfold main.
  apply runsOn_bind; [intros r0|intros cookieString r0].
  { apply runsOn_lift. destruct cookieFile; exact (fun H => H). }
  apply runsOn_bind; [intros r1|intros messages r1].
  { apply runsOn_lift, fetchAllMessages_error. }
  destruct messages as [|firstMessage rest]; [runs|].
  apply runsOn_bind; [intros r2|intros keys r2].
  { unfold getDealFieldKeys. runs. }
  destruct keys as [[ck|] [sk|]]; [|runs..].
  destruct (negb (truthy ck) || negb (truthy sk)); [runs|].
  apply runsOn_bind; [intros r3|intros existingPerson r3].
  { unfold findPersonByFirstName. runs. }
  apply runsOn_bind; [intros r4|intros found r4].
  { destruct existingPerson as [p|]; [|runs].
    apply runsOn_bind; [intros r5|intros ds r5].
    - unfold getDealsForPerson. runs.
    - apply runsOn_bind; [intros r6|intros synced r6]; [|runs].
      apply runsOn_scanDeals. }
  destruct found as [pid [[did added]|]]; [runs|].
  apply runsOn_bind; [intros r5|intros pid' r5].
  { destruct existingPerson as [p|]; [runs|].
    apply runsOn_bind; [intros r6|intros created r6]; [runs|].
    apply runsOn_bind; [intros r7|intros i r7]; [|runs].
    apply runsOn_created_id. }
  apply runsOn_bind; [intros r6|intros createdDeal r6]; [runs|].
  apply runsOn_bind; [intros r7|intros did r7]; [apply runsOn_created_id|].
  apply runsOn_bind; [intros r8|intros nid r8]; [apply runsOn_addNote|].
  apply runsOn_bind; [intros r9|intros added r9]; [|runs].
  apply runsOn_addAllNotes.
Qed.

(** X9: whatever the page, the store and the outcome of the run, [main]
    only appends: the contacts, deals, notes and logged requests of the
    store before the run are a prefix of those after it (nothing is updated,
    deleted or undone, also when the run fails half way), the field table
    and the search are untouched, ids are never reused, and at most one
    record is created per request sent. *)
Theorem main_only_appends (toLowerCase : str -> str) (g : Globals)
        (cookieFile : option str) (web : Web) (r : Remote) :
  let r' := snd (main toLowerCase g cookieFile web r) in
  exists ps ds ns qs,
    persons r' = persons r ++ ps
    /\ deals r' = deals r ++ ds
    /\ notes r' = notes r ++ ns
    /\ requests r' = requests r ++ qs
    /\ dealFields r' = dealFields r
    /\ searchHit r' = searchHit r
    /\ (nextId r <= nextId r')%Z
    /\ length ps + length ds + length ns <= length qs.
Proof.
  destruct (runsOn_main toLowerCase g cookieFile web r)
    as (ps & ds & ns & qs & P & D & N & Q & F & S & I & C & _).
  exists ps, ds, ns, qs. repeat split; assumption.
Qed.

(** X10: [main] never retries and never goes on after a failed request.
    Against a store that answers [n] more requests and then fails, a run
    sends at most [n + 1] requests; it sends [n + 1] exactly when it ends
    with a Pipedrive API error, and that error is the one of the last
    request sent. *)
Theorem main_stops_at_failed_request (toLowerCase : str -> str) (g : Globals)
        (cookieFile : option str) (web : Web) (r : Remote) (n : nat) :
  quota r = Some n ->
  let out := main toLowerCase g cookieFile web r in
  exists qs,
    requests (snd out) = requests r ++ qs
    /\ length qs <= S n
    /\ quota (snd out) = Some (n - length qs)
    /\ (length qs = S n <-> gatewayFailure (fst out))
    /\ forall q, fst out = Throw (PipedriveApiError q) ->
                 exists qs', qs = qs' ++ [q].
Proof.
  intros Hq out.
  destruct (runsOn_main toLowerCase g cookieFile web r)
    as (ps & ds & ns & qs & _ & _ & _ & Q & _ & _ & _ & _ & G).
  fold out in Q, G. rewrite Hq in G. exists qs. split; [exact Q|].
  destruct G as [(L & E & X)|(L & E & qs' & q & -> & X & _)].
  - split; [lia|]. split; [exact E|]. split; [split|].
    + intros H. lia.
    + intros H. now destruct X.
    + intros q Hout. destruct X. now rewrite Hout.
  - split; [lia|]. split; [rewrite E; f_equal; lia|]. split; [split|].
    + intros _. now rewrite X.
    + intros _. exact L.
    + intros q' Hout. rewrite X in Hout. injection Hout as <-. now exists qs'.
Qed.

(** The theorem on scenario B with a store that answers three requests:
    the fourth request, for the notes of the first deal, fails. *)
Lemma main_stops_at_failed_request_witness :
  let r := with_quota ScenarioB.store (Some 3) in
  let out := main toLowerCaseLatin ScenarioB.globals (Some (lit "sid=1"))
                  (Sample.web (Sample.page Sample.chatA)) r in
  quota r = Some 3
  /\ fst out = Throw (PipedriveApiError (GetNotes 10))
  /\ exists qs,
       requests (snd out) = requests r ++ qs
       /\ length qs <= 4
       /\ quota (snd out) = Some (3 - length qs)
       /\ (length qs = 4 <-> gatewayFailure (fst out))
       /\ forall q, fst out = Throw (PipedriveApiError q) ->
                    exists qs', qs = qs' ++ [q].
Proof.
  intros r out. split; [reflexivity|]. split; [vm_compute; reflexivity|].
  exact (@main_stops_at_failed_request toLowerCaseLatin ScenarioB.globals
           (Some (lit "sid=1")) (Sample.web (Sample.page Sample.chatA)) r 3
           eq_refl).
Defined.

(** A store that never fails never makes [main] end with a Pipedrive API
    error. *)
Lemma main_no_gateway_failure (toLowerCase : str -> str) (g : Globals)
      (cookieFile : option str) (web : Web) (r : Remote) :
  quota r = None ->
  ~ gatewayFailure (fst (main toLowerCase g cookieFile web r)).
Proof.
  intros Hq.
  destruct (runsOn_main toLowerCase g cookieFile web r)
    as (ps & ds & ns & qs & _ & _ & _ & _ & _ & _ & _ & _ & G).
  rewrite Hq in G. exact (proj2 G).
Qed.

(** ** A failure between the contact and the deal *)

Lemma pdFetch_budget (req : Request) (r : Remote) (k : nat) :
  quota r = Some (S k) ->
  pdFetch req r
  = (Ok (fst (serve req (with_quota (logged req r) (Some k)))),
     snd (serve req (with_quota (logged req r) (Some k)))).
Proof.
  intros Hq. unfold pdFetch, logged. rewrite Hq.
  now destruct (serve req _).
Qed.

Lemma pdFetch_exhausted (req : Request) (r : Remote) :
  quota r = Some 0 ->
  pdFetch req r = (Throw (PipedriveApiError req), logged req r).
Proof. intros Hq. unfold pdFetch, logged. now rewrite Hq. Qed.

(** X11: nothing is rolled back. When the run reaches the duplicate check,
    no stored contact matches, and the store answers the first three
    requests (field keys, search, new contact) and fails the fourth, [main]
    ends with the Pipedrive API error of the request that creates the deal,
    and the contact it has just created stays in the store, without a deal
    and without notes. *)
Theorem main_keeps_contact_when_deal_fails (toLowerCase : str -> str)
        (g : Globals) (cookieFile : option str) (web : Web) (r : Remote)
        (messages : list Message) (ck sk : str) :
  reachesDuplicateCheck g cookieFile web r messages ck sk ->
  existingPersonOf toLowerCase g r = None ->
  quota r = Some 3 ->
  exists r',
    main toLowerCase g cookieFile web r
    = (Throw (PipedriveApiError
                (postDealOf g messages ck sk (Some (nextId r)))), r')
    /\ persons r' = persons r ++ [mkPerson (nextId r) (Some (contactPersonName g))]
    /\ deals r' = deals r
    /\ notes r' = notes r
    /\ requests r' = requests r
                     ++ [GetDealFields; SearchPersons (contactPersonFirstName g);
                         PostPerson (contactPersonName g) DEAL_OWNER_USER_ID;
                         postDealOf g messages ck sk (Some (nextId r))].
Proof.
  intros (c & -> & Hf & Hne & Hck & Tck & Hsk & Tsk) Hnone Hq.
  destruct messages as [|firstMessage rest]; [congruence|].
  unfold main. cbn [loadCookies].
  erewrite bind_Ok by reflexivity.
  erewrite bind_Ok by (unfold lift; rewrite Hf; reflexivity).
  cbv beta iota.
  erewrite bind_Ok;
    [|unfold getDealFieldKeys; erewrite bind_Ok by (apply pdFetch_budget; first [eassumption|reflexivity]);
      reflexivity].
  cbn [serve fst snd logged with_quota with_requests dealFields].
  rewrite Hck, Hsk, Tck, Tsk. cbn [negb orb].
  erewrite bind_Ok;
    [|unfold findPersonByFirstName;
      erewrite bind_Ok by (apply pdFetch_budget; first [eassumption|reflexivity]); reflexivity].
  cbn [serve fst snd logged with_quota with_requests dealFields persons
       searchOf searchHit].
  change (searchOf (with_quota
                      (logged (SearchPersons (contactPersonFirstName g))
                              (with_quota (logged GetDealFields r) (Some 2)))
                      (Some 1)) (contactPersonFirstName g))
    with (searchOf r (contactPersonFirstName g)).
  unfold existingPersonOf in Hnone. rewrite Hnone.
  erewrite bind_Ok by reflexivity. cbv beta iota.
  erewrite bind_Ok;
    [|erewrite bind_Ok by (apply pdFetch_budget; first [eassumption|reflexivity]); reflexivity].
  cbn [serve fst snd logged with_quota with_requests add_person nextId
       requests dealFields persons deals notes searchHit quota].
  unfold bind at 1. rewrite pdFetch_exhausted by reflexivity.
  eexists. split; [reflexivity|].
  cbn [logged with_requests persons deals notes requests].
  repeat split.
  cbn [requests add_person with_quota logged with_requests].
  now rewrite <- !app_assoc.
Qed.

(** The theorem on scenario A with a store that answers three requests. *)
Lemma main_keeps_contact_when_deal_fails_witness :
  let g := Scenario.globalsOf Scenario.janisBerzins in
  let r := with_quota Scenario.emptyStore (Some 3) in
  reachesDuplicateCheck g (Some (lit "sid=1"))
                        (Sample.web (Sample.page Sample.chatA)) r
                        Sample.messagesA (lit "channel_key") (lit "company_key")
  /\ existingPersonOf toLowerCaseLatin g r = None
  /\ exists r',
       main toLowerCaseLatin g (Some (lit "sid=1"))
            (Sample.web (Sample.page Sample.chatA)) r
       = (Throw (PipedriveApiError
                   (postDealOf g Sample.messagesA (lit "channel_key")
                               (lit "company_key") (Some 1%Z))), r')
       /\ persons r' = [mkPerson 1 (Some Scenario.janisBerzins)]
       /\ deals r' = []
       /\ notes r' = [].
Proof.
  intros g r.
  assert (Hr : reachesDuplicateCheck g (Some (lit "sid=1"))
                 (Sample.web (Sample.page Sample.chatA)) r
                 Sample.messagesA (lit "channel_key") (lit "company_key")).
  { exists (lit "sid=1"). repeat split; try (vm_compute; reflexivity).
    discriminate. }
  split; [exact Hr|]. split; [reflexivity|].
  destruct (@main_keeps_contact_when_deal_fails toLowerCaseLatin g
              (Some (lit "sid=1")) (Sample.web (Sample.page Sample.chatA)) r
              Sample.messagesA (lit "channel_key") (lit "company_key")
              Hr eq_refl eq_refl)
    as (r' & Hrun & Hp & Hd & Hn & _).
  exists r'. repeat split; assumption.
Defined.

(* ===================================================================== *)
(** * The constants computed at startup *)
(* ===================================================================== *)

Section While.

Variable f : N -> bool.

Lemma takeWhile_dropWhile (s : str) : s = takeWhile f s ++ dropWhile f s.
Proof.
  induction s as [|c s IH]; [reflexivity|]. cbn [takeWhile dropWhile].
  destruct (f c); [|reflexivity]. cbn [app]. now f_equal.
Qed.

Lemma takeWhile_all (s : str) : Forall (fun c => f c = true) (takeWhile f s).
Proof.
  induction s as [|c s IH]; [constructor|]. cbn [takeWhile].
  destruct (f c) eqn:E; constructor; assumption.
Qed.

Lemma dropWhile_all (s : str) : forallb f s = true -> dropWhile f s = [].
Proof.
  induction s as [|c s IH]; [reflexivity|]. cbn [forallb dropWhile].
  intros [-> H]%andb_prop. now apply IH.
Qed.

End While.

Lemma trim_blank (s : str) : forallb is_space s = true -> trim s = [].
Proof.
  intros H. unfold trim, trimStart. now rewrite dropWhile_all.
Qed.

Lemma first_name_of_trimmed (s : str) :
  (if truthy (split_space_0 (trim s)) then split_space_0 (trim s) else trim s)
  = split_space_0 (trim s).
Proof.
  unfold split_space_0. destruct (trim s) as [|c t] eqn:E; [reflexivity|].
  apply trim_head_not_space in E. cbn [takeWhile].
  destruct (N.eqb_spec c 32) as [->|_]; [discriminate|reflexivity].
Qed.

(** X12: the contact names computed at startup. The name is the trimmed
    fourth argument. The first name used for the search and the deal title
    is the part of the name before its first U+0020: the name is the first
    name followed by nothing or by a rest that begins with U+0020, and the
    first name holds no U+0020 (other white space does not end it); it is
    empty only when the name is empty. The name is Unknown when the
    argument is absent or empty, but a blank argument (white space only)
    gives the empty name and the empty first name. *)
Theorem startup_contact_names (toLowerCase : str -> str) (p : Process)
        (g : Globals) :
  startup toLowerCase p = Some g ->
  contactPersonName g = trim (or_else (argv4 p) (lit "Unknown"))
  /\ (exists rest,
        contactPersonName g = contactPersonFirstName g ++ rest
        /\ (rest = [] \/ exists rest', rest = 32%N :: rest'))
  /\ ~ In 32%N (contactPersonFirstName g)
  /\ (contactPersonFirstName g = [] <-> contactPersonName g = [])
  /\ (or_else (argv4 p) [] = [] ->
      contactPersonName g = lit "Unknown"
      /\ contactPersonFirstName g = lit "Unknown")
  /\ (forall s, argv4 p = Some s -> s <> [] -> forallb is_space s = true ->
                contactPersonName g = [] /\ contactPersonFirstName g = []).
Proof.
  unfold startup. intros H.
  destruct (argv2 p) as [u|]; [|discriminate].
  destruct (negb (truthy u) || negb (truthy _)); [discriminate|].
  destruct (negb (truthy (or_else (PIPEDRIVE_API_TOKEN p) [])));
    [discriminate|].
  destruct (SENDER_CONFIG _) as [c|]; [|discriminate].
  injection H as <-. cbn [contactPersonName contactPersonFirstName].
  rewrite first_name_of_trimmed.
  pose proof (@split_space_0_trim (or_else (argv4 p) (lit "Unknown"))) as Hne.
  split; [reflexivity|].
  set (name := trim (or_else (argv4 p) (lit "Unknown"))) in *.
  split; [|split; [|split; [|split]]].
  - exists (dropWhile (fun c => negb (c =? 32)%N) name).
    split; [apply takeWhile_dropWhile|].
    destruct (dropWhile (fun c => negb (c =? 32)%N) name) as [|x rest'] eqn:E;
      [now left|right].
    apply dropWhile_not_head in E. apply negb_false_iff, N.eqb_eq in E.
    subst x. now exists rest'.
  - intros Hin. pose proof (takeWhile_all (fun c => negb (c =? 32)%N) name) as Hall.
    rewrite Forall_forall in Hall. now specialize (Hall _ Hin).
  - split.
    + intros E. destruct name as [|x t]; [reflexivity|].
      now destruct Hne.
    + now intros ->.
  - intros Hnone. subst name.
    assert (E : or_else (argv4 p) (lit "Unknown") = lit "Unknown").
    { destruct (argv4 p) as [[|x t]|]; try reflexivity. discriminate. }
    rewrite E. split; reflexivity.
  - intros s Hs Hs0 Hblank. subst name. rewrite Hs.
    destruct s as [|x t]; [congruence|]. cbn [or_else truthy].
    rewrite (trim_blank _ Hblank). split; reflexivity.
Qed.

(** The theorem at a name whose first two parts are separated by a tab and
    whose last part follows a space: the first name is Anna, tab, Liepa. *)
Lemma startup_contact_names_witness :
  let name := Scenario.annaTab ++ lit " Ozola" in
  let p := Scenario.process name in
  let g := Scenario.globalsOf name in
  startup toLowerCaseLatin p = Some g
  /\ contactPersonName g = name
  /\ contactPersonFirstName g = Scenario.annaTab
  /\ exists rest,
       contactPersonName g = contactPersonFirstName g ++ rest
       /\ (rest = [] \/ exists rest', rest = 32%N :: rest').
Proof.
  intros name p g.
  assert (H : startup toLowerCaseLatin p = Some g) by (vm_compute; reflexivity).
  split; [exact H|]. split; [vm_compute; reflexivity|].
  split; [vm_compute; reflexivity|].
  exact (proj1 (proj2 (startup_contact_names toLowerCaseLatin p H))).
Defined.

(* ===================================================================== *)
(** * The first version of the program *)
(* ===================================================================== *)

(** ** The scraper of the first version against the current one *)

Section FirstMatch.

Variable G : Type.
Variable here : str -> option (G * str).
Hypothesis here_nil : here [] = None.

(** The first [exec] of a global pattern finds the first of all its
    matches. *)
Lemma exec_from_head (s : str) :
  forall pos, Regex.exec_from here pos s
              = hd_error (Regex.exec_all here 0 pos s).
Proof.
  induction s as [|c s IH]; intros pos.
  - cbn [Regex.exec_from Regex.exec_all]. unfold Regex.match_at.
    now rewrite here_nil.
  - cbn [Regex.exec_from Regex.exec_all].
    destruct (Regex.match_at here pos (c :: s)) as [[m len]|];
      [reflexivity|apply IH].
Qed.

End FirstMatch.

Lemma exec_messageBlock (cc : str) :
  Regex.exec Regex.messageBlock cc = hd_error (messageMatchesOf cc).
Proof. apply exec_from_head. reflexivity. Qed.

(** The value of [fetchAllMessages] on a page with a chat region. *)
Lemma fetchAllMessages_value (web : Web) (cookieString u : str)
      (cd : Match str) :
  redirectedToLogin (web cookieString u) = false ->
  Regex.exec Regex.chatDiv (body (web cookieString u)) = Some cd ->
  (length (groups cd) <? 50) = false ->
  fst (fetchAllMessages web cookieString u)
  = Ok (sort byId (pushedOf (groups cd))).
Proof.
  intros H1 H2 H3. unfold fetchAllMessages, pushedOf. rewrite H1, H2, H3.
  now destruct (scanMessages _ _ _ _ _).
Qed.

(** X13: the two scrapers on the same page. They throw the same errors for
    an expired session, a missing and a too short chat region. Where the
    first version finds no message block, the current one returns the empty
    list; where the first version rejects the page because its first block
    has no text, the current one skips that block and goes on; and the text
    the first version returns is the text of the first message the current
    one pushes, in page order, before it sorts by id. *)
Theorem fetchFirstMessage_fetchAllMessages (web : Web) (cookieString u : str) :
  match fst (V1.fetchFirstMessage web cookieString u) with
  | V1.Ok1 t =>
      exists cc m rest,
        chatContentOf (body (web cookieString u)) = Some cc
        /\ pushedOf cc = m :: rest
        /\ text m = t
        /\ hd_error (map blockId (messageMatchesOf cc)) = Some (id m)
        /\ fst (fetchAllMessages web cookieString u)
           = Ok (sort byId (m :: rest))
  | V1.Throw1 (V1.Shared e) =>
      fst (fetchAllMessages web cookieString u) = Throw e
  | V1.Throw1 V1.NoMessagesParsed =>
      fst (fetchAllMessages web cookieString u) = Ok []
  | V1.Throw1 V1.FirstMessageEmpty =>
      exists cc b blocks,
        chatContentOf (body (web cookieString u)) = Some cc
        /\ messageMatchesOf cc = b :: blocks
        /\ hasText (messageTextsOf cc) b = false
        /\ map id (pushedOf cc)
           = map blockId (filter (hasText (messageTextsOf cc)) blocks)
        /\ fst (fetchAllMessages web cookieString u)
           = Ok (sort byId (pushedOf cc))
  end.
Proof.
  pose proof (@fetchAllMessages_value web cookieString u) as Hval.
  remember (fst (fetchAllMessages web cookieString u)) as F eqn:EF.
  unfold fetchAllMessages in EF.
  unfold V1.fetchFirstMessage, chatContentOf.
  destruct (redirectedToLogin (web cookieString u)); [exact EF|].
  destruct (Regex.exec Regex.chatDiv (body (web cookieString u))) as [cd|];
    [|exact EF].
  specialize (Hval cd eq_refl eq_refl).
  destruct (length (groups cd) <? 50); [exact EF|].
  specialize (Hval eq_refl). clear EF. rewrite exec_messageBlock.
  pose proof (pushedOf_ids (groups cd)) as Hids. unfold keptBlocks in Hids.
  unfold pushedOf in Hval, Hids |- *.
  destruct (messageMatchesOf (groups cd)) as [|b blocks] eqn:Eb;
    cbn [hd_error].
  - exact Hval.
  - rewrite scanMessages_cons in Hval, Hids. cbv zeta in Hval, Hids.
    change (fst (fst (groups b))) with (blockId b).
    change (truthy (or_else (Map_get (blockId b)
                                     (messageTextsOf (groups cd))) []))
      with (hasText (messageTextsOf (groups cd)) b).
    cbn [filter] in Hids.
    destruct (hasText (messageTextsOf (groups cd)) b) eqn:Eh;
      cbn [negb fst snd option_map map hd_error] in *.
    + exists (groups cd). eexists. eexists.
      rewrite Eb, scanMessages_cons. cbv zeta. rewrite Eh. cbn [fst].
      split; [reflexivity|]. split; [reflexivity|]. split; [reflexivity|].
      split; [reflexivity|]. exact Hval.
    + exists (groups cd), b, blocks. rewrite Eb, scanMessages_cons. cbv zeta.
      rewrite Eh. cbn [fst]. repeat split; assumption.
Qed.

(** ** The duplicate test of the first version *)

Lemma includes_firstn (s t : str) (n : nat) :
  includes s t = true -> includes s (firstn n t) = true.
Proof.
  rewrite !includes_spec. intros (pre & suf & ->).
  exists pre, (skipn n t ++ suf).
  now rewrite (app_assoc (firstn n t)), firstn_skipn.
Qed.

Lemma someNoteIncludesStart_weaker (notes : list Note) (t : str) :
  someNoteIncludes notes t = true -> V1.someNoteIncludesStart notes t = true.
Proof.
  unfold someNoteIncludes, V1.someNoteIncludesStart. rewrite !existsb_exists.
  intros (n & Hin & H). exists n. split; [exact Hin|].
  now apply includes_firstn.
Qed.

(** X14: the duplicate test of the first version sends the same request as
    [getNotesForDeal] and fails when it fails; on the notes returned it
    accepts every deal the test of the current version accepts for that
    text, because it compares the first 50 code units only, and the two
    tests agree on a text of at most 50 code units. *)
Theorem dealHasFirstMessageNote_getNotesForDeal (dealId : Z)
        (firstMessage : str) (r : Remote) :
  snd (V1.dealHasFirstMessageNote dealId firstMessage r)
  = snd (getNotesForDeal dealId r)
  /\ match fst (V1.dealHasFirstMessageNote dealId firstMessage r),
           fst (getNotesForDeal dealId r) with
     | Ok has, Ok existingNotes =>
         has = V1.someNoteIncludesStart existingNotes firstMessage
         /\ (someNoteIncludes existingNotes firstMessage = true -> has = true)
         /\ (length firstMessage <= 50 ->
             has = someNoteIncludes existingNotes firstMessage)
     | Throw e, Throw e' => e = e'
     | _, _ => False
     end.
Proof.
  unfold V1.dealHasFirstMessageNote, getNotesForDeal, bind.
  destruct (pdFetch (GetNotes dealId) r) as [[resp|e] r1]; cbn [fst snd ret];
    [|now split].
  split; [reflexivity|]. split; [reflexivity|]. split.
  - apply someNoteIncludesStart_weaker.
  - intros Hlen. unfold V1.someNoteIncludesStart, someNoteIncludes, slice0.
    now rewrite firstn_all2.
Qed.

(** The converse fails: a note that holds the first 50 code units of a
    longer message, and no more, passes the first test only. *)
Lemma someNoteIncludesStart_not_converse :
  let t := repeat 97%N 50 ++ lit "b" in
  let existingNotes := [mkNote 1 1 (Some (repeat 97%N 50 ++ lit "c"))] in
  V1.someNoteIncludesStart existingNotes t = true
  /\ someNoteIncludes existingNotes t = false.
Proof. split; vm_compute; reflexivity. Qed.

(** ** One note per run *)

Lemma after_tables (req : Request) (r : Remote) :
  notes (after req r)
  = notes r ++ match req with
               | PostNote dealId content =>
                   [mkNote (nextId r) dealId (Some content)]
               | _ => []
               end
  /\ length (deals (after req r))
     = length (deals r) + match req with PostDeal _ _ _ _ => 1 | _ => 0 end.
Proof.
  destruct req; cbn; rewrite ?app_nil_r, ?length_app; cbn; split;
    trivial; lia.
Qed.

Lemma dealHasFirstMessageNote_answered (dealId : Z) (firstMessage : str)
      (r : Remote) :
  quota r = None ->
  V1.dealHasFirstMessageNote dealId firstMessage r
  = (Ok (V1.someNoteIncludesStart (notesOf r dealId) firstMessage),
     after (GetNotes dealId) r).
Proof.
  intros Hq. unfold V1.dealHasFirstMessageNote.
  run_with pdFetch_answered. reflexivity.
Qed.

(** The loop over the deals reads, and adds one note exactly when it finds
    a deal. *)
Lemma scanDeals1_answered (g : Globals) (t : str) (ds : list Deal) :
  forall r,
    quota r = None ->
    exists reads,
      Forall reading reads
      /\ (V1.scanDeals1 g t ds r = (Ok None, afterAll reads r)
          \/ exists d,
               In d ds
               /\ V1.someNoteIncludesStart (notesOf r (deal_id d)) t = true
               /\ V1.scanDeals1 g t ds r
                  = (Ok (Some (deal_id d, nextId r)),
                     after (PostNote (deal_id d) (V1.latestNoteOf g t))
                           (afterAll reads r))).
Proof.
  induction ds as [|d ds IH]; intros r Hq.
  - exists []. split; [constructor|]. now left.
  - cbn [V1.scanDeals1]. run_with dealHasFirstMessageNote_answered.
    destruct (after_reading (GetNotes (deal_id d)) r I) as (_ & _ & Hn & Hi).
    destruct (V1.someNoteIncludesStart (notesOf r (deal_id d)) t) eqn:Eh.
    + exists [GetNotes (deal_id d)]. split; [repeat constructor|]. right.
      exists d. split; [now left|]. split; [exact Eh|].
      run_with addNote_answered. now rewrite Hi.
    + destruct (IH (after (GetNotes (deal_id d)) r)) as (reads & Hr & H);
        [now rewrite after_quota|].
      exists (GetNotes (deal_id d) :: reads).
      split; [constructor; [exact I|exact Hr]|].
      destruct H as [H|(d' & Hin & Hhas & H)].
      * left. exact H.
      * right. exists d'. split; [now right|]. split.
        -- now rewrite <- (notesOf_same_notes _ _ _ Hn).
        -- rewrite H, Hi. reflexivity.
Qed.

(** X15: the first version adds exactly one note per run, whatever the
    store already holds. When the cookies load, the first message is
    scraped, the two field keys resolve (distinct, and none of title,
    user_id, person_id) and the store answers, [main] returns and the notes
    of the store are those it had plus one note, the one reported. Its
    content is the thread link, a block with the anchor element that has the
    URL of the thread as target and as text, followed by a block with the
    label Latest SS message (the note goes to an existing deal) or First SS
    message (a deal is created) and the whole first message. One deal is
    created, or none. The store is left ready for the next run, which adds
    the message once more. *)
Theorem main1_adds_one_note (toLowerCase : str -> str) (g : Globals)
        (cookieString : str) (web : Web) (r : Remote) (t ck sk : str) :
  quota r = None ->
  fst (V1.fetchFirstMessage web cookieString (conversationUrl g)) = V1.Ok1 t ->
  byId_get SOURCE_CHANNEL_FIELD_ID (dealFields r) = Some ck ->
  truthy ck = true ->
  byId_get SOURCE_COMPANY_FIELD_ID (dealFields r) = Some sk ->
  truthy sk = true ->
  plainKeys ck sk ->
  exists report r' noteId dealId,
    V1.main toLowerCase g (Some cookieString) web r = (V1.Ok1 report, r')
    /\ V1.noteId1 report = Some noteId
    /\ V1.dealId1 report = Some dealId
    /\ notes r'
       = notes r
         ++ [mkNote noteId dealId
                    (Some (lit "<div><b>SS message link:</b> "
                           ++ anchorTo (conversationUrl g) ++ lit "</div>"
                           ++ match V1.resultAction1 report with
                              | V1.added_note_to_existing_deal =>
                                  lit "<div><b>Latest SS message:</b> "
                              | V1.created_new_deal1 =>
                                  lit "<div><b>First SS message:</b> "
                              end
                           ++ t ++ lit "</div>"))]
    /\ length (deals r')
       = length (deals r)
         + match V1.resultAction1 report with
           | V1.added_note_to_existing_deal => 0
           | V1.created_new_deal1 => 1
           end
    /\ quota r' = None
    /\ dealFields r' = dealFields r.
Proof.
  intros Hq Hf Hck Tck Hsk Tsk _.
  assert (Hlatest : V1.latestNoteOf g t
                    = lit "<div><b>SS message link:</b> "
                      ++ anchorTo (conversationUrl g) ++ lit "</div>"
                      ++ lit "<div><b>Latest SS message:</b> " ++ t
                      ++ lit "</div>").
  { unfold V1.latestNoteOf, V1.noteLinkOf1, anchorTo.
    repeat rewrite <- app_assoc. reflexivity. }
  assert (Hfirst : V1.firstMessageNoteOf g t
                   = lit "<div><b>SS message link:</b> "
                     ++ anchorTo (conversationUrl g) ++ lit "</div>"
                     ++ lit "<div><b>First SS message:</b> " ++ t
                     ++ lit "</div>").
  { unfold V1.firstMessageNoteOf, V1.noteLinkOf1, anchorTo.
    repeat rewrite <- app_assoc. reflexivity. }
  unfold V1.main. cbn [loadCookies]. rewrite Hf. unfold V1.store1.
  run_with getDealFieldKeys_answered. rewrite Hck, Hsk, Tck, Tsk.
  cbn [negb orb].
  run_with findPersonByFirstName_answered.
  set (r1 := after (SearchPersons (contactPersonFirstName g))
                   (after GetDealFields r)).
  assert (Hq1 : quota r1 = None) by (unfold r1; answered).
  assert (Hn1 : notes r1 = notes r /\ length (deals r1) = length (deals r)).
  { unfold r1.
    destruct (after_tables (SearchPersons (contactPersonFirstName g))
                           (after GetDealFields r)) as (-> & ->).
    destruct (after_tables GetDealFields r) as (-> & ->).
    rewrite !app_nil_r. split; [reflexivity|lia]. }
  destruct Hn1 as (Hn1 & Hd1).
  destruct (find (firstNameMatches toLowerCase (contactPersonFirstName g))
                 (searchOf (after GetDealFields r) (contactPersonFirstName g)))
    as [p|].
  - set (r2 := after (GetPersonDeals (person_id p)) r1).
    assert (Hq2 : quota r2 = None) by (unfold r2; answered).
    destruct (after_tables (GetPersonDeals (person_id p)) r1) as (Hn2 & Hd2).
    fold r2 in Hn2, Hd2. rewrite app_nil_r in Hn2.
    destruct (@scanDeals1_answered g t (dealsOf r1 (person_id p)) r2 Hq2)
      as (reads & Hreads & [E|(d & _ & _ & E)]).
    + erewrite bind_Ok
        by (run_with getDealsForPerson_answered;
            erewrite bind_Ok by exact E; reflexivity).
      cbv beta iota. erewrite bind_Ok by reflexivity. cbv beta.
      set (r3 := afterAll reads r2).
      assert (Hq3 : quota r3 = None) by (unfold r3; answered).
      destruct (@afterAll_reading reads r2 Hreads) as (_ & Hd3 & Hn3 & _).
      fold r3 in Hd3, Hn3.
      run_with pdFetch_answered.
      erewrite bind_Ok by reflexivity. cbv beta.
      run_with addNote_answered.
      eexists _, _, _, _. split; [reflexivity|].
      cbn [V1.noteId1 V1.dealId1 V1.resultAction1].
      split; [reflexivity|]. split; [reflexivity|].
      match goal with
      | |- context [after (PostNote ?x ?c) (after ?q r3)] =>
          destruct (after_tables (PostNote x c) (after q r3)) as (-> & ->);
          destruct (after_tables q r3) as (-> & ->)
      end.
      rewrite app_nil_r, Hn3, Hn2, Hn1, Hd3, Hd2, Hd1, Hfirst.
      split; [reflexivity|]. split; [lia|].
      unfold r3, r2, r1.
      rewrite ?after_quota, ?afterAll_quota, ?after_dealFields,
        ?afterAll_dealFields.
      split; [exact Hq|reflexivity].
    + erewrite bind_Ok
        by (run_with getDealsForPerson_answered;
            erewrite bind_Ok by exact E; reflexivity).
      cbv beta iota.
      set (r3 := afterAll reads r2).
      destruct (@afterAll_reading reads r2 Hreads) as (_ & Hd3 & Hn3 & Hi3).
      fold r3 in Hd3, Hn3, Hi3.
      eexists _, _, _, _. split; [reflexivity|].
      cbn [V1.noteId1 V1.dealId1 V1.resultAction1].
      split; [reflexivity|]. split; [reflexivity|].
      destruct (after_tables (PostNote (deal_id d) (V1.latestNoteOf g t)) r3)
        as (-> & ->).
      rewrite Hn3, Hn2, Hn1, Hd3, Hd2, Hd1, Hi3, Hlatest.
      split; [reflexivity|]. split; [lia|].
      unfold r3, r2, r1.
      rewrite ?after_quota, ?afterAll_quota, ?after_dealFields,
        ?afterAll_dealFields.
      split; [exact Hq|reflexivity].
  - erewrite bind_Ok by reflexivity. cbv beta iota.
    erewrite bind_Ok
      by (erewrite bind_Ok by (apply pdFetch_answered; exact Hq1);
          reflexivity).
    cbv beta.
    run_with pdFetch_answered.
    erewrite bind_Ok by reflexivity. cbv beta.
    run_with addNote_answered.
    eexists _, _, _, _. split; [reflexivity|].
    cbn [V1.noteId1 V1.dealId1 V1.resultAction1].
    split; [reflexivity|]. split; [reflexivity|].
    match goal with
    | |- context [after (PostNote ?x ?c) (after ?q (after ?q0 r1))] =>
        destruct (after_tables (PostNote x c) (after q (after q0 r1)))
          as (-> & ->);
        destruct (after_tables q (after q0 r1)) as (-> & ->);
        destruct (after_tables q0 r1) as (-> & ->)
    end.
    rewrite !app_nil_r, Hn1, Hd1, Hfirst.
    split; [reflexivity|]. split; [lia|].
    unfold r1.
    rewrite ?after_quota, ?afterAll_quota, ?after_dealFields,
      ?afterAll_dealFields.
    split; [exact Hq|reflexivity].
Qed.

(** The theorem on the thread of scenario A, whose first block holds the
    second message by id, against the store of scenario B: no note holds
    that text, so a deal is created, with the note of the first message. *)
Lemma main1_adds_one_note_witness :
  let g := ScenarioB.globals in
  let web := Sample.web (Sample.page Sample.chatA) in
  fst (V1.fetchFirstMessage web (lit "sid=1") (conversationUrl g))
  = V1.Ok1 (lit "Cik maksa?")
  /\ plainKeys (lit "channel_key") (lit "company_key")
  /\ exists report r',
       V1.main toLowerCaseLatin g (Some (lit "sid=1")) web ScenarioB.store
       = (V1.Ok1 report, r')
       /\ V1.resultAction1 report = V1.created_new_deal1
       /\ map note_content (notes r')
          = map note_content (notes ScenarioB.store)
            ++ [Some (lit "<div><b>SS message link:</b> "
                      ++ anchorTo Sample.threadUrl ++ lit "</div>"
                      ++ lit "<div><b>First SS message:</b> Cik maksa?</div>")].
Proof.
  intros g web.
  assert (Hf : fst (V1.fetchFirstMessage web (lit "sid=1") (conversationUrl g))
               = V1.Ok1 (lit "Cik maksa?")) by (vm_compute; reflexivity).
  assert (Hkeys : plainKeys (lit "channel_key") (lit "company_key")).
  { split; [discriminate|].
    split; intros [H|[H|[H|[]]]]; discriminate. }
  split; [exact Hf|]. split; [exact Hkeys|].
  destruct (@main1_adds_one_note toLowerCaseLatin g (lit "sid=1") web
              ScenarioB.store (lit "Cik maksa?") (lit "channel_key")
              (lit "company_key") eq_refl Hf eq_refl eq_refl eq_refl eq_refl
              Hkeys)
    as (report & r' & noteId & dealId & Hrun & _ & _ & Hn & _).
  exists report, r'. split; [exact Hrun|].
  assert (Ha : V1.resultAction1 report = V1.created_new_deal1).
  { assert (E : fst (V1.main toLowerCaseLatin g (Some (lit "sid=1")) web
                            ScenarioB.store)
                = V1.Ok1 (V1.mkReport1 V1.created_new_deal1 (Some 1%Z)
                                       (Some 30%Z) (Some 31%Z)))
      by (vm_compute; reflexivity).
    rewrite Hrun in E. cbn [fst] in E. injection E as ->. reflexivity. }
  split; [exact Ha|].
  rewrite Hn, Ha, map_app. reflexivity.
Defined.

(* ===================================================================== *)
(** * The test for a message that is already in the deal *)
(* ===================================================================== *)

Lemma includes_trans (s t u : str) :
  includes s t = true -> includes t u = true -> includes s u = true.
Proof.
  rewrite !includes_spec. intros (a & b & ->) (c & d & ->).
  exists (a ++ c), (d ++ b). now rewrite <- !app_assoc.
Qed.

Lemma missingFrom_In (existingNotes : list Note) (messages : list Message)
      (m : Message) :
  In m (missingFrom existingNotes messages)
  <-> In m messages /\ someNoteIncludes existingNotes (text m) = false.
Proof.
  unfold missingFrom. rewrite filter_In, negb_true_iff. reflexivity.
Qed.

Lemma someNoteIncludes_In (existingNotes : list Note) (n : Note) (t : str) :
  In n existingNotes ->
  includes (or_else (note_content n) []) t = true ->
  someNoteIncludes existingNotes t = true.
Proof.
  intros Hin H. unfold someNoteIncludes. apply existsb_exists. now exists n.
Qed.

(** X16: the test for a message that is already in the deal is a substring
    test on whole notes. Once the deal holds the note of a message, the loop
    that adds the missing messages adds none whose text occurs anywhere in
    that note: not a message with the same text, not one whose text is a
    piece of the older text, and not one whose text is a piece of the markup
    around it. Every message it adds is a message of the thread. *)
Theorem addMissingNotes_skips_contained_text (dealId : Z)
        (existingNotes : list Note) (messages : list Message) (k : nat)
        (r : Remote) (n : Note) (older : Message) :
  quota r = None ->
  In n existingNotes ->
  note_content n = Some (formatNoteHtml older) ->
  exists added,
    addMissingNotes dealId existingNotes messages k r
    = (Ok (k + length added), afterAll (postNotesOf dealId added) r)
    /\ (forall m, In m added -> In m messages)
    /\ (forall m, In m messages ->
                  includes (formatNoteHtml older) (text m) = true ->
                  ~ In m added)
    /\ (forall m, In m messages ->
                  includes (text older) (text m) = true ->
                  ~ In m added).
Proof.
  intros Hq Hin Hc. exists (missingFrom existingNotes messages).
  split; [now apply addMissingNotes_answered|].
  assert (Hnote : forall m, includes (formatNoteHtml older) (text m) = true ->
                            ~ In m (missingFrom existingNotes messages)).
  { intros m Hinc [_ Hmiss]%missingFrom_In.
    rewrite (@someNoteIncludes_In existingNotes n (text m) Hin) in Hmiss;
      [discriminate|].
    rewrite Hc. cbn [or_else].
    destruct (formatNoteHtml older) as [|c s]; [|exact Hinc].
    exact Hinc. }
  split; [|split].
  - intros m Hm. now apply missingFrom_In in Hm.
  - intros m _ Hinc. now apply Hnote.
  - intros m _ Hinc. apply Hnote.
    apply includes_trans with (t := text older); [|exact Hinc].
    apply formatNoteHtml_includes.
Qed.

(** The theorem on a deal that holds the note of the message
    [Labdien, vai auto ir pieejams?]: of the messages [Labdien], [Received]
    and [Paldies], only the last is added. *)
Lemma addMissingNotes_skips_contained_text_witness :
  let older := mkMessage (lit "1") (lit "Labdien, vai auto ir pieejams?")
                         (lit "10:15") (lit "1. feb") received in
  let n := mkNote 20 10 (Some (formatNoteHtml older)) in
  let m1 := mkMessage (lit "2") (lit "Labdien") (lit "10:20") (lit "1. feb")
                      received in
  let m2 := mkMessage (lit "3") (lit "Received") (lit "10:25") (lit "1. feb")
                      sent in
  let m3 := mkMessage (lit "4") (lit "Paldies") (lit "10:30") (lit "1. feb")
                      received in
  includes (text older) (text m1) = true
  /\ includes (formatNoteHtml older) (text m2) = true
  /\ exists added,
       addMissingNotes 10 [n] [m1; m2; m3] 0 Scenario.emptyStore
       = (Ok (length added),
          afterAll (postNotesOf 10 added) Scenario.emptyStore)
       /\ ~ In m1 added /\ ~ In m2 added.
Proof.
  intros older n m1 m2 m3.
  assert (H1 : includes (text older) (text m1) = true)
    by (vm_compute; reflexivity).
  assert (H2 : includes (formatNoteHtml older) (text m2) = true)
    by (vm_compute; reflexivity).
  split; [exact H1|]. split; [exact H2|].
  destruct (@addMissingNotes_skips_contained_text 10 [n] [m1; m2; m3] 0
              Scenario.emptyStore n older eq_refl (or_introl eq_refl) eq_refl)
    as (added & Hrun & _ & Hnote & Htext).
  exists added. split; [exact Hrun|]. split.
  - apply Htext; [now left|exact H1].
  - apply Hnote; [right; now left|exact H2].
Defined.

(* ===================================================================== *)
(** * The ids in the store *)
(* ===================================================================== *)

Lemma issued_mono (xs : list Z) (r r' : Remote) :
  (nextId r <= nextId r')%Z -> issued xs r -> issued xs r'.
Proof.
  intros Hle. unfold issued. apply Forall_impl. intros x Hx. lia.
Qed.

Lemma issued_incl (xs ys : list Z) (r : Remote) :
  incl ys xs -> issued xs r -> issued ys r.
Proof.
  unfold issued. rewrite !Forall_forall. intros Hincl H x Hx.
  apply H, Hincl, Hx.
Qed.

Lemma issued_app (xs ys : list Z) (r : Remote) :
  issued xs r -> issued ys r -> issued (xs ++ ys) r.
Proof. unfold issued. intros H1 H2. apply Forall_app. now split. Qed.

(** A store grown by records with issued ids. *)
Lemma idsIssued_grow (r r' : Remote) (ps : list Person) (ds : list Deal)
      (ns : list Note) :
  persons r' = persons r ++ ps ->
  deals r' = deals r ++ ds ->
  notes r' = notes r ++ ns ->
  (nextId r <= nextId r')%Z ->
  Forall (fun p => (person_id p < nextId r')%Z) ps ->
  Forall (fun d => (deal_id d < nextId r')%Z
                   /\ match deal_person_id d with
                      | Some q => (q < nextId r')%Z
                      | None => True
                      end) ds ->
  Forall (fun n => (note_id n < nextId r')%Z
                   /\ (note_deal_id n < nextId r')%Z) ns ->
  idsIssued r -> idsIssued r'.
Proof.
  intros Hp Hd Hn Hle Fp Fd Fn (Ip & Id & In_). unfold idsIssued.
  rewrite Hp, Hd, Hn. repeat split; apply Forall_app; split; trivial.
  - eapply Forall_impl; [|exact Ip]. cbv beta. intros p H. lia.
  - eapply Forall_impl; [|exact Id]. cbv beta. intros d [H1 H2].
    split; [lia|]. destruct (deal_person_id d); [lia|exact I].
  - eapply Forall_impl; [|exact In_]. cbv beta. intros n [H1 H2]. lia.
Qed.

Section Ids.

Variables A B : Type.

Lemma keepsIds_lift (xs : list Z) (x : Res A) (f : A -> list Z) :
  (forall a, incl (f a) xs) -> keepsIds xs (lift x) f.
Proof.
  intros Hf r Hi Hx. cbn [lift fst snd]. split; [exact Hi|].
  split; [lia|]. destruct x as [a|e]; [|exact I].
  now apply issued_incl with (xs := xs).
Qed.

Lemma keepsIds_ret (xs : list Z) (a : A) (f : A -> list Z) :
  incl (f a) xs -> keepsIds xs (ret a) f.
Proof.
  intros Hf r Hi Hx. cbn [ret fst snd]. split; [exact Hi|].
  split; [lia|]. now apply issued_incl with (xs := xs).
Qed.

Lemma keepsIds_throw (xs : list Z) (e : Error) (f : A -> list Z) :
  keepsIds xs (throw e) f.
Proof. intros r Hi Hx. cbn [throw fst snd]. split; [exact Hi|]. split; [lia|exact I]. Qed.

Lemma keepsIds_bind (xs : list Z) (m : M A) (k : A -> M B)
      (f : A -> list Z) (g : B -> list Z) :
  keepsIds xs m f ->
  (forall a, keepsIds (f a ++ xs) (k a) g) ->
  keepsIds xs (bind m k) g.
Proof.
  intros Hm Hk r Hi Hx. unfold bind. specialize (Hm r Hi Hx).
  destruct (m r) as [[a|e] r1]; cbn [fst snd] in *.
  - destruct Hm as (Hi1 & Hle1 & Hf).
    assert (Hx1 : issued (f a ++ xs) r1).
    { apply issued_app; [exact Hf|]. now apply issued_mono with (r := r). }
    destruct (Hk a r1 Hi1 Hx1) as (Hi2 & Hle2 & Hg).
    split; [exact Hi2|]. split; [lia|exact Hg].
  - destruct Hm as (Hi1 & Hle1 & _). split; [exact Hi1|]. split; [lia|exact I].
Qed.

Lemma keepsIds_post (xs : list Z) (m : M A) (f g : A -> list Z) :
  keepsIds xs m f ->
  (forall a, incl (g a) (f a ++ xs)) ->
  keepsIds xs m g.
Proof.
  intros Hm Hg r Hi Hx. destruct (Hm r Hi Hx) as (Hi1 & Hle & Hf).
  split; [exact Hi1|]. split; [exact Hle|].
  destruct (fst (m r)) as [a|e]; [|exact I].
  apply issued_incl with (xs := f a ++ xs); [apply Hg|].
  apply issued_app; [exact Hf|]. now apply issued_mono with (r := r).
Qed.

End Ids.

Lemma searchOf_ids_issued (r : Remote) (term : str) :
  idsIssued r -> issued (map person_id (searchOf r term)) r.
Proof.
  intros (Ip & _). unfold issued, searchOf. rewrite Forall_map.
  rewrite Forall_forall in *. intros p [Hp _]%filter_In. now apply Ip.
Qed.

Lemma dealsOf_ids_issued (r : Remote) (personId : Z) :
  idsIssued r -> issued (map deal_id (dealsOf r personId)) r.
Proof.
  intros (_ & Id & _). unfold issued, dealsOf. rewrite Forall_map.
  rewrite Forall_forall in *. intros d [Hd _]%filter_In. now apply Id.
Qed.

(** What the store does with an answered request whose ids were issued. *)
Lemma serve_issued (req : Request) (r : Remote) :
  idsIssued r -> issued (reqIds req) r ->
  idsIssued (snd (serve req r))
  /\ (nextId r <= nextId (snd (serve req r)))%Z
  /\ issued (idsOf (fst (serve req r))) (snd (serve req r)).
Proof.
  intros Hi Hx.
  destruct req as [|term|pid|did|name owner|title user pid custom|did content];
    cbn [serve fst snd idsOf].
  - split; [exact Hi|]. split; [lia|constructor].
  - split; [exact Hi|]. split; [lia|now apply searchOf_ids_issued].
  - split; [exact Hi|]. split; [lia|now apply dealsOf_ids_issued].
  - split; [exact Hi|]. split; [lia|constructor].
  - split; [|split].
    + apply (@idsIssued_grow r _ [mkPerson (nextId r) (Some name)] [] []);
        cbn; rewrite ?app_nil_r; trivial; try lia; repeat constructor; cbn; lia.
    + cbn. lia.
    + repeat constructor. cbn. lia.
  - split; [|split].
    + apply (@idsIssued_grow r _ []
               [mkDeal (nextId r) title user pid custom false] []);
        cbn; rewrite ?app_nil_r; trivial; try lia; repeat constructor; cbn;
        try lia.
      destruct pid as [q|]; [|exact I].
      cbn [reqIds] in Hx. inversion Hx; subst. lia.
    + cbn. lia.
    + repeat constructor. cbn. lia.
  - split; [|split].
    + apply (@idsIssued_grow r _ [] []
               [mkNote (nextId r) did (Some content)]);
        cbn; rewrite ?app_nil_r; trivial; try lia; repeat constructor; cbn;
        try lia.
      cbn [reqIds] in Hx. inversion Hx; subst. lia.
    + cbn. lia.
    + repeat constructor. cbn. lia.
Qed.

Lemma keepsIds_pdFetch (xs : list Z) (req : Request) :
  incl (reqIds req) xs -> keepsIds xs (pdFetch req) idsOf.
Proof.
  intros Hreq r Hi Hx. apply (issued_incl Hreq) in Hx. unfold pdFetch.
  destruct (quota r) as [[|k]|].
  - cbn [fst snd]. split; [exact Hi|]. split; [cbn; lia|exact I].
  - pose proof (@serve_issued req
                  (with_quota (with_requests r (requests r ++ [req])) (Some k))
                  Hi Hx) as H.
    destruct (serve req _) as [json r2]. exact H.
  - pose proof (@serve_issued req (with_requests r (requests r ++ [req]))
                  Hi Hx) as H.
    destruct (serve req _) as [json r2]. exact H.
Qed.

Ltac ids_incl :=
  solve [ intros ? ?; cbn [idsOf reqIds map app fst snd] in *;
          repeat rewrite in_app_iff in *; cbn [In] in *;
          intuition (subst; auto) ].

Lemma keepsIds_created_id (xs : list Z) (resp : Json) :
  incl (idsOf resp) xs -> keepsIds xs (created_id resp) (fun i => [i]).
Proof.
  intros H. destruct resp; cbn [created_id]; try apply keepsIds_throw.
  apply keepsIds_ret. exact H.
Qed.

Lemma keepsIds_addNote (xs : list Z) (dealId : Z) (content : str) :
  In dealId xs -> keepsIds xs (addNote dealId content) (fun _ => []).
Proof.
  intros H. unfold addNote.
  eapply keepsIds_bind; [apply keepsIds_pdFetch; ids_incl|].
  intros resp. eapply keepsIds_post; [apply keepsIds_created_id|];
    ids_incl.
Qed.

Lemma keepsIds_addAllNotes (dealId : Z) (messages : list Message) :
  forall (xs : list Z) (k : nat),
    In dealId xs ->
    keepsIds xs (addAllNotes dealId messages k) (fun _ => []).
Proof.
  induction messages as [|m messages IH]; intros xs k H; cbn [addAllNotes].
  - apply keepsIds_ret. ids_incl.
  - eapply keepsIds_bind; [now apply keepsIds_addNote|].
    intros i. cbv beta. cbn [app]. now apply IH.
Qed.

Lemma keepsIds_addMissingNotes (dealId : Z) (existingNotes : list Note)
      (messages : list Message) :
  forall (xs : list Z) (k : nat),
    In dealId xs ->
    keepsIds xs (addMissingNotes dealId existingNotes messages k)
             (fun _ => []).
Proof.
  induction messages as [|m messages IH]; intros xs k H;
    cbn [addMissingNotes].
  - apply keepsIds_ret. ids_incl.
  - destruct (negb (someNoteIncludes existingNotes (text m)));
      [|now apply IH].
    eapply keepsIds_bind; [now apply keepsIds_addNote|].
    intros i. cbv beta. cbn [app]. now apply IH.
Qed.

Lemma keepsIds_getNotesForDeal (xs : list Z) (dealId : Z) :
  keepsIds xs (getNotesForDeal dealId) (fun _ => []).
Proof.
  unfold getNotesForDeal.
  eapply keepsIds_bind; [apply keepsIds_pdFetch; ids_incl|].
  intros resp. apply keepsIds_ret. ids_incl.
Qed.

Lemma keepsIds_getDealsForPerson (xs : list Z) (personId : Z) :
  keepsIds xs (getDealsForPerson personId) (fun ds => map deal_id ds).
Proof.
  unfold getDealsForPerson.
  eapply keepsIds_bind; [apply keepsIds_pdFetch; ids_incl|].
  intros resp. apply keepsIds_ret. destruct resp; ids_incl.
Qed.

Lemma keepsIds_getDealFieldKeys (xs : list Z) :
  keepsIds xs getDealFieldKeys (fun _ => []).
Proof.
  unfold getDealFieldKeys.
  eapply keepsIds_bind; [apply keepsIds_pdFetch; ids_incl|].
  intros resp. apply keepsIds_ret. ids_incl.
Qed.

Lemma keepsIds_findPersonByFirstName (toLowerCase : str -> str)
      (xs : list Z) (firstName : str) :
  keepsIds xs (findPersonByFirstName toLowerCase firstName)
           (fun found => match found with
                         | Some p => [person_id p]
                         | None => []
                         end).
Proof.
  unfold findPersonByFirstName.
  eapply keepsIds_bind; [apply keepsIds_pdFetch; ids_incl|].
  intros resp. apply keepsIds_ret.
  destruct resp as [l|l|l|l|i]; cbn [find idsOf]; try ids_incl.
  destruct (find (firstNameMatches toLowerCase firstName) l) as [p|] eqn:E;
    [|ids_incl].
  apply find_some in E. intros x [<-|[]]. apply in_or_app. left.
  apply in_map, E.
Qed.

Lemma keepsIds_scanDeals (firstMessage : Message) (messages : list Message)
      (ds : list Deal) :
  forall xs : list Z,
    incl (map deal_id ds) xs ->
    keepsIds xs (scanDeals firstMessage messages ds) (fun _ => []).
Proof.
  induction ds as [|d ds IH]; intros xs H; cbn [scanDeals].
  - apply keepsIds_ret. ids_incl.
  - assert (Hd : In (deal_id d) xs) by (apply H; now left).
    assert (Hds : incl (map deal_id ds) xs)
      by (intros x Hx; apply H; now right).
    eapply keepsIds_bind; [apply keepsIds_getNotesForDeal|].
    intros existingNotes. cbn [app].
    destruct (someNoteIncludes existingNotes (text firstMessage));
      [|now apply IH].
    eapply keepsIds_bind; [now apply keepsIds_addMissingNotes|].
    intros added. apply keepsIds_ret. ids_incl.
Qed.

Lemma keepsIds_main (toLowerCase : str -> str) (g : Globals)
      (cookieFile : option str) (web : Web) :
  keepsIds [] (main toLowerCase g cookieFile web) (fun _ => []).
Proof.
  unfold main.
  eapply keepsIds_bind with (f := fun _ => []);
    [apply keepsIds_lift; ids_incl|].
  intros cookieString.
  eapply keepsIds_bind with (f := fun _ => []);
    [apply keepsIds_lift; ids_incl|].
  intros [|firstMessage rest]; [apply keepsIds_throw|].
  eapply keepsIds_bind; [apply keepsIds_getDealFieldKeys|].
  intros [[ck|] [sk|]]; try apply keepsIds_throw.
  destruct (negb (truthy ck) || negb (truthy sk)); [apply keepsIds_throw|].
  eapply keepsIds_bind; [apply keepsIds_findPersonByFirstName|].
  intros existingPerson.
  eapply keepsIds_bind
    with (f := fun found => match fst found with
                            | Some pid => [pid]
                            | None => []
                            end).
  { destruct existingPerson as [p|]; [|apply keepsIds_ret; ids_incl].
    eapply keepsIds_bind; [apply keepsIds_getDealsForPerson|].
    intros ds.
    eapply keepsIds_bind; [apply keepsIds_scanDeals; ids_incl|].
    intros synced. apply keepsIds_ret. ids_incl. }
  intros [pid [[did added]|]]; [apply keepsIds_ret; ids_incl|].
  eapply keepsIds_bind
    with (f := fun found => match found with
                            | Some pid => [pid]
                            | None => []
                            end).
  { destruct existingPerson as [p|]; [apply keepsIds_ret; ids_incl|].
    eapply keepsIds_bind; [apply keepsIds_pdFetch; ids_incl|].
    intros created.
    eapply keepsIds_bind; [apply keepsIds_created_id; ids_incl|].
    intros i. apply keepsIds_ret. ids_incl. }
  intros pid'.
  eapply keepsIds_bind;
    [apply keepsIds_pdFetch; destruct pid'; ids_incl|].
  intros createdDeal.
  eapply keepsIds_bind; [apply keepsIds_created_id; ids_incl|].
  intros did.
  eapply keepsIds_bind; [apply keepsIds_addNote; now left|].
  intros nid.
  eapply keepsIds_bind; [apply keepsIds_addAllNotes; now left|].
  intros added. apply keepsIds_ret. ids_incl.
Qed.

(** X17: the ids of the store are an invariant of [main]. If every id and
    every reference in the tables was issued by the store before the run,
    the same holds after it, whatever the page and the outcome, also when a
    request fails half way: the contact of a deal [main] creates and the
    deal of every note it adds are records the store issued. *)
Theorem main_keeps_ids_issued (toLowerCase : str -> str) (g : Globals)
        (cookieFile : option str) (web : Web) (r : Remote) :
  idsIssued r ->
  idsIssued (snd (main toLowerCase g cookieFile web r))
  /\ (nextId r <= nextId (snd (main toLowerCase g cookieFile web r)))%Z.
Proof.
  intros Hi.
  destruct (@keepsIds_main toLowerCase g cookieFile web r Hi) as (H1 & H2 & _);
    [constructor|]. now split.
Qed.

(** The theorem on scenario B. *)
Lemma main_keeps_ids_issued_witness :
  idsIssued ScenarioB.store
  /\ idsIssued (snd ScenarioB.run)
  /\ (30 <= nextId (snd ScenarioB.run))%Z.
Proof.
  assert (Hi : idsIssued ScenarioB.store)
    by (repeat split; repeat constructor).
  split; [exact Hi|].
  exact (@main_keeps_ids_issued toLowerCaseLatin ScenarioB.globals
           (Some (lit "sid=1")) (Sample.web (Sample.page Sample.chatA))
           ScenarioB.store Hi).
Defined.
